(** * Satellite position pipeline of 3D-Earth: a shallow embedding

    The development follows [script.js] (main thread) and the propagation
    worker script.  JavaScript strings are sequences of UTF-16 code units,
    typed arrays are lists updated by index, numbers are idealised as real
    numbers, and the satellite.js library is an abstract capability.
    Where the exact double matters the arithmetic is that of binary64
    ([Binary64]) or has its rounding made explicit ([Rounded]). *)

From Stdlib Require Import Reals Lra Lia NArith String Ascii.
From Stdlib Require PrimFloat.
From stdpp Require Import base list pretty.

Set Default Proof Using "Type".

(** ** JavaScript strings *)

Module JsString.

(** A string is its sequence of UTF-16 code units. *)
Definition t := list N.

Definition of_string (s : string) : t :=
  N_of_ascii <$> list_ascii_of_string s.

(** Code units removed by [String.prototype.trim]: the WhiteSpace and
    LineTerminator productions of ECMAScript. *)
Definition ws_units : list N :=
  [ 0x09; 0x0A; 0x0B; 0x0C; 0x0D; 0x20; 0xA0; 0x1680;
    0x2000; 0x2001; 0x2002; 0x2003; 0x2004; 0x2005; 0x2006;
    0x2007; 0x2008; 0x2009; 0x200A; 0x2028; 0x2029; 0x202F;
    0x205F; 0x3000; 0xFEFF ]%N.

Definition is_ws (c : N) : bool := existsb (N.eqb c) ws_units.

Definition newline : N := 0x0A%N.

Fixpoint trimStart (s : t) : t :=
  match s with
  | [] => []
  | c :: s' => if is_ws c then trimStart s' else s
  end.

Definition trimEnd (s : t) : t := reverse (trimStart (reverse s)).

(** [s.trim()] *)
Definition trim (s : t) : t := trimEnd (trimStart s).

(** [s.split('\n')]: never empty, the empty string gives one empty piece. *)
Fixpoint split_nl (s : t) : list t :=
  match s with
  | [] => [[]]
  | c :: s' =>
      if N.eqb c newline then [] :: split_nl s'
      else match split_nl s' with
           | [] => [[c]]
           | l :: ls => (c :: l) :: ls
           end
  end.

(** Truthiness of a string value: only the empty string is falsy. *)
Definition truthy (s : t) : bool :=
  match s with [] => false | _ => true end.

(** A string all of whose code units are white space or line ends. *)
Definition blank (s : t) : Prop := Forall (λ c, is_ws c = true) s.

End JsString.

(** ** Element sets *)

(** One entry of [tleData].  A line is [None] when the property is
    absent ([undefined]); the placeholder entries carry empty strings. *)
Record entry := Entry {
  name : option JsString.t;
  tle1 : option JsString.t;
  tle2 : option JsString.t
}.

(** [!v] for a value that is a string or absent. *)
Definition falsy (v : option JsString.t) : bool :=
  match v with
  | None => true
  | Some s => negb (JsString.truthy s)
  end.

(** The string handed to the library once a line is known to be truthy. *)
Definition str (v : option JsString.t) : JsString.t := default [] v.

(** ** Parsing the fetched text ([fetchTLES], the [try] block up to the
    end of the parsing loop) *)

Module Parser.
Import JsString.

(** [text.split('\n').map((l) => l.trim()).filter(Boolean)] *)
Definition lines_of (text : JsString.t) : list JsString.t :=
  List.filter truthy (trim <$> split_nl text).

(** The loop [for (let i = 0; i < lines.length; i += 3)]; [fuel] bounds
    the number of iterations, [acc] is [tleData]. *)
Fixpoint loop (fuel : nat) (lines : list JsString.t) (i : nat)
    (acc : list entry) : list entry :=
  match fuel with
  | O => acc
  | S fuel' =>
      if decide (i < length lines) then
        let name := lines !! i in
        let tle1 := lines !! (i + 1) in
        let tle2 := lines !! (i + 2) in
        if falsy tle1 || falsy tle2 then acc
        else loop fuel' lines (i + 3) (acc ++ [Entry name tle1 tle2])
      else acc
  end.

Definition parseLines (lines : list JsString.t) : list entry :=
  loop (length lines) lines 0 [].

Definition parseTLE (text : JsString.t) : list entry :=
  parseLines (lines_of text).

(** The parser as the specification words it: the non-blank trimmed
    lines taken three at a time, an incomplete last group dropped. *)
Fixpoint triplets (ls : list JsString.t) : list entry :=
  match ls with
  | n :: a :: b :: rest => Entry (Some n) (Some a) (Some b) :: triplets rest
  | _ => []
  end.

End Parser.

(** ** Numbers and typed arrays *)

(** A cell of a [Float32Array].  Finite values are idealised as reals
    (no rounding); [NaN] is what storing [undefined] leaves in a cell. *)
Inductive cell :=
| Num (x : R)
| NaN.

Abbreviation buffer := (list cell).

Definition triple : Type := cell * cell * cell.

(** [new Float32Array(n)] *)
Definition zeros (n : nat) : buffer := replicate n (Num 0).

(** The value a cell takes when [buf[j]] is assigned to it: reading out
    of range gives [undefined], which is stored as [NaN]. *)
Definition read (buf : buffer) (j : nat) : cell := default NaN (buf !! j).

(** The three assignments [out[i * 3 + 0] = x; out[i * 3 + 1] = y;
    out[i * 3 + 2] = z]; a typed array ignores a write out of range. *)
Definition write3 (i : nat) (v : triple) (out : buffer) : buffer :=
  let '(x, y, z) := v in
  <[i * 3 + 2 := z]> (<[i * 3 + 1 := y]> (<[i * 3 + 0 := x]> out)).

(** [target.set(source)]: copies at offset 0, [None] is the [RangeError]
    raised when the source is longer than the target. *)
Definition ta_set (target source : buffer) : option buffer :=
  if decide (length source <= length target)%nat
  then Some (source ++ drop (length source) target)
  else None.

(** ** Results of calls that may raise *)

Inductive result (A : Type) :=
| Ok (a : A)
| Throw.
Arguments Ok {A} a.
Arguments Throw {A}.

#[global] Instance result_ret : MRet result := λ A a, Ok a.
#[global] Instance result_bind : MBind result :=
  λ A B k m, match m with Ok a => k a | Throw => Throw end.

(** ** The propagation library (satellite.js) as a capability *)

Record geodetic := Geodetic { longitude : R; latitude : R }.

(** Dates are milliseconds since the epoch.  [propagate] stands for
    [satellite.propagate(satrec, now).position]: [Ok None] when the
    position is falsy, [Throw] when the call or the property access
    raises. *)
Record SatLib := {
  satrec : Type;
  eciPosition : Type;
  gstime : Z -> R;
  twoline2satrec : JsString.t -> JsString.t -> result satrec;
  propagate : satrec -> Z -> result (option eciPosition);
  eciToGeodetic : eciPosition -> R -> result geodetic
}.

(** ** The propagation worker *)

Module Worker.

Record state := State {
  satlibLoaded : bool;
  tleData : list entry
}.

(** Messages received from the main thread; [msg.tle] may be absent. *)
Inductive msg :=
| SetTLE (tle : option (list entry))
| Update.

(** Messages posted back to the main thread. *)
Inductive reply :=
| Ready (satlib : bool) (count : nat)
| Positions (positions : buffer).

Section WithLibrary.
Variable L : SatLib.
Variable now : Z.
Variable gmst : R.

(** The [try] block of the per-entry loop: the three values assigned to
    the entry's slots, or [Throw] when a call raises.  [t] is
    [tleData[i]]; reading a property of [undefined] raises. *)
Definition try_block (t : option entry) : result triple :=
  match t with
  | None => Throw
  | Some t =>
      if falsy (tle1 t) || falsy (tle2 t) then Ok (Num 0, Num 0, Num 0)
      else
        satrec ← twoline2satrec L (str (tle1 t)) (str (tle2 t));
        p ← propagate L satrec now;
        match p with
        | None => Ok (Num 0, Num 0, Num 0)
        | Some p =>
            geo ← eciToGeodetic L p gmst;
            let lon := (longitude geo * 180 / PI)%R in
            let lat := (latitude geo * 180 / PI)%R in
            let phi := ((90 - lat) * (PI / 180))%R in
            let theta := ((lon + 180) * (PI / 180))%R in
            let r := 1.1%R in
            let x := (r * sin phi * cos theta)%R in
            let y := (r * cos phi)%R in
            let z := (r * sin phi * sin theta)%R in
            Ok (Num x, Num y, Num z)
        end
  end.

(** One iteration of the loop, with its [catch]. *)
Definition iteration (tle : list entry) (out : buffer) (i : nat) : buffer :=
  match try_block (tle !! i) with
  | Ok v => write3 i v out
  | Throw => write3 i (Num 0, Num 0, Num 0) out
  end.

(** [for (let i = 0; i < tleData.length; i++)] over a fresh buffer. *)
Definition positions_loop (tle : list entry) : buffer :=
  foldl (iteration tle) (zeros (length tle * 3)) (seq 0 (length tle)).

End WithLibrary.

(** [self.onmessage]: the new state and the messages posted.  The
    library is only touched when [satlibLoaded] holds. *)
Definition onmessage (L : SatLib) (now : Z) (s : state) (m : msg)
    : state * list reply :=
  match m with
  | SetTLE tle =>
      let tleData := default [] tle in
      (State (satlibLoaded s) tleData,
       [Ready (satlibLoaded s) (length tleData)])
  | Update =>
      if negb (satlibLoaded s) then
        let outEmpty := zeros (length (tleData s) * 3) in
        (s, [Positions outEmpty])
      else
        let gmst := gstime L now in
        let out := positions_loop L now gmst (tleData s) in
        (s, [Positions out])
  end.

End Worker.

(** ** Main thread: the double-buffer store *)

(** [tlePositionsAttr]: the attribute [a_posNext], whose array is the
    very object [nextSatBuffer], or the attribute [position] of the
    placeholder geometry with an array of its own. *)
Inductive attr :=
| AttrNext
| AttrPosition (array : buffer).

Record store := Store {
  tleData : list entry;
  prevSatBuffer : option buffer;
  nextSatBuffer : option buffer;
  tlePoints : bool;
  tlePositionsAttr : option attr;
  u_interp : R;
  satInterpStart : R;
  tleLatestBuffer : option buffer;
  lastTleUpdate : Z
}.

Definition satInterpDuration : R := 0.8.
Definition tleUpdateInterval : Z := 5000.

Definition set_buffers (p n : option buffer) (s : store) : store :=
  Store (tleData s) p n (tlePoints s) (tlePositionsAttr s) (u_interp s)
        (satInterpStart s) (tleLatestBuffer s) (lastTleUpdate s).

Definition set_attr (a : option attr) (s : store) : store :=
  Store (tleData s) (prevSatBuffer s) (nextSatBuffer s) (tlePoints s) a
        (u_interp s) (satInterpStart s) (tleLatestBuffer s) (lastTleUpdate s).

Definition set_interp (u start : R) (s : store) : store :=
  Store (tleData s) (prevSatBuffer s) (nextSatBuffer s) (tlePoints s)
        (tlePositionsAttr s) u start (tleLatestBuffer s) (lastTleUpdate s).

Definition set_latest (b : option buffer) (s : store) : store :=
  Store (tleData s) (prevSatBuffer s) (nextSatBuffer s) (tlePoints s)
        (tlePositionsAttr s) (u_interp s) (satInterpStart s) b
        (lastTleUpdate s).

Definition set_lastTleUpdate (d : Z) (s : store) : store :=
  Store (tleData s) (prevSatBuffer s) (nextSatBuffer s) (tlePoints s)
        (tlePositionsAttr s) (u_interp s) (satInterpStart s)
        (tleLatestBuffer s) d.

Definition set_tleData (tle : list entry) (s : store) : store :=
  Store tle (prevSatBuffer s) (nextSatBuffer s) (tlePoints s)
        (tlePositionsAttr s) (u_interp s) (satInterpStart s)
        (tleLatestBuffer s) (lastTleUpdate s).

(** How a handler ends: normally, or with an exception escaping it (the
    store keeps the writes made before the exception). *)
Inductive outcome :=
| Done
| Raised.

(** [window._tleLatestBuffer] is reallocated when absent or of another
    length, then receives a copy of [arr]. *)
Definition update_latest (arr : buffer) (s : store) : store :=
  let latest :=
    match tleLatestBuffer s with
    | Some b => if decide (length b = length arr) then b
                else zeros (length arr)
    | None => zeros (length arr)
    end in
  set_latest (ta_set latest arr) s.

(** [prevSatBuffer.set(nextSatBuffer); nextSatBuffer.set(arr);], the two
    copies that both the positions handler and the fallback make. *)
Definition slide (arr p n : buffer) (s : store) : store * outcome :=
  match ta_set p n with
  | None => (s, Raised)
  | Some p' =>
      match ta_set n arr with
      | None => (set_buffers (Some p') (Some n) s, Raised)
      | Some n' => (set_buffers (Some p') (Some n') s, Done)
      end
  end.

(** [u_interp.value = 0.0; satInterpStart = performance.now() / 1000.0] *)
Definition restart_clock (perfNow : R) (s : store) : store :=
  set_interp 0 (perfNow / 1000) s.

(** The [positions] branch of the handler installed by
    [setupSgp4Worker]; [dateNow] is [Date.now()], [perfNow] is
    [performance.now()]. *)
Definition on_positions (arr : buffer) (perfNow : R) (dateNow : Z)
    (s : store) : store * outcome :=
  match tlePositionsAttr s with
  | None => (s, Done)
  | Some _ =>
      let s := update_latest arr s in
      let '(s, o) :=
        match prevSatBuffer s, nextSatBuffer s, tlePoints s with
        | Some p, Some n, true =>
            let '(s, o) := slide arr p n s in
            match o with
            | Raised => (s, Raised)
            | Done => (restart_clock perfNow s, Done)
            end
        | _, _, _ => (s, Done)
        end in
      match o with
      | Raised => (s, Raised)
      | Done => (set_lastTleUpdate dateNow s, Done)
      end
  end.

(** ** Main thread: the fallback propagation *)

Module Fallback.
Section WithLibrary.
Variable L : SatLib.
Variable now : Z.
Variable gmst : R.
Variable nextSatBuffer : option buffer.

(** [nextSatBuffer ? nextSatBuffer[i * 3 + k] : d], for the three slots. *)
Definition keep (i : nat) (d : triple) : triple :=
  match nextSatBuffer with
  | Some nb => (read nb (i * 3 + 0), read nb (i * 3 + 1), read nb (i * 3 + 2))
  | None => d
  end.

(** The [try] block of the loop: the values assigned to the entry's
    slots, [None] when the block ends by [continue] without a write. *)
Definition try_block (i : nat) (t : option entry) : result (option triple) :=
  match t with
  | None => Throw
  | Some t =>
      if falsy (tle1 t) || falsy (tle2 t)
      then Ok (Some (keep i (Num 1.1, Num 0.0, Num 0.0)))
      else
        satrec ← twoline2satrec L (str (tle1 t)) (str (tle2 t));
        p ← propagate L satrec now;
        match p with
        | None => Ok None
        | Some p =>
            geo ← eciToGeodetic L p gmst;
            let lon := (longitude geo * 180 / PI)%R in
            let lat := (latitude geo * 180 / PI)%R in
            let phi := ((90 - lat) * (PI / 180))%R in
            let theta := ((lon + 180) * (PI / 180))%R in
            let r := 1.1%R in
            let x := (r * sin phi * cos theta)%R in
            let y := (r * cos phi)%R in
            let z := (r * sin phi * sin theta)%R in
            Ok (Some (Num x, Num y, Num z))
        end
  end.

(** One iteration, with its [catch]. *)
Definition iteration (tle : list entry) (arr : buffer) (i : nat) : buffer :=
  match try_block i (tle !! i) with
  | Ok (Some v) => write3 i v arr
  | Ok None => arr
  | Throw => write3 i (keep i (Num 0, Num 0, Num 0)) arr
  end.

(** [for (let i = 0; i < count; i++)] over [new Float32Array(count * 3)]. *)
Definition positions_loop (tle : list entry) : buffer :=
  let count := length tle in
  foldl (iteration tle) (zeros (count * 3)) (seq 0 count).

End WithLibrary.
End Fallback.

(** [updateTLEPositionsFallback].  The function is [async] without an
    [await]: it runs to its end at once, and an exception only rejects
    the promise it returns. *)
Definition updateTLEPositionsFallback (L : SatLib) (now : Z) (perfNow : R)
    (s : store) : store * outcome :=
  if decide (length (tleData s) = 0%nat) then (s, Done)
  else
    let gmst := gstime L now in
    let arr := Fallback.positions_loop L now gmst (nextSatBuffer s) (tleData s) in
    let '(s, o) :=
      match prevSatBuffer s, nextSatBuffer s with
      | Some p, Some n =>
          let '(s, o) := slide arr p n s in
          match o with
          | Raised => (s, Raised)
          | Done =>
              if tlePoints s then (restart_clock perfNow s, Done)
              else (s, Raised)
          end
      | _, _ =>
          match tlePositionsAttr s with
          | Some (AttrPosition a) =>
              match ta_set a arr with
              | Some a' => (set_attr (Some (AttrPosition a')) s, Done)
              | None => (s, Raised)
              end
          | Some AttrNext =>
              match nextSatBuffer s with
              | Some n =>
                  match ta_set n arr with
                  | Some n' => (set_buffers (prevSatBuffer s) (Some n') s, Done)
                  | None => (s, Raised)
                  end
              | None => (s, Done)
              end
          | None => (s, Done)
          end
      end in
    match o with
    | Raised => (s, Raised)
    | Done => (set_lastTleUpdate now (update_latest arr s), Done)
    end.

(** The block of [animate] that advances the blend: [now] is
    [performance.now()]. *)
Definition advance_interp (perfNow : R) (s : store) : store :=
  if tlePoints s then
    let now := (perfNow / 1000)%R in
    if Rlt_dec 0 (satInterpStart s) then
      let t := Rmin 1 ((now - satInterpStart s) / satInterpDuration) in
      set_interp t (satInterpStart s) s
    else s
  else s.

(** ** Main thread: the worker handle, fetching and the frame loop *)

(** [sgp4Worker] names the worker instance held, if any.  [posted] and
    [terminated] record the calls [postMessage] and [terminate] made on
    worker instances, oldest first. *)
Record link := Link {
  sgp4Worker : option nat;
  posted : list (nat * Worker.msg);
  terminated : list nat
}.

Record synth := Synth {
  altitude : R;
  speed : R;
  phase : R;
  inclination : R
}.

(** [syntheticPositions] is the array of [syntheticPositionsAttr], absent
    until [createSatellites] has made [syntheticPoints]. *)
Record main := Main {
  st : store;
  lk : link;
  syntheticParams : list synth;
  syntheticPositions : option buffer
}.

Definition SYNTHETIC_SAT_COUNT : nat := 2000.

Definition with_store (f : store -> store) (m : main) : main :=
  Main (f (st m)) (lk m) (syntheticParams m) (syntheticPositions m).

Definition with_link (f : link -> link) (m : main) : main :=
  Main (st m) (f (lk m)) (syntheticParams m) (syntheticPositions m).

(** [sgp4Worker.postMessage(msg)] on the instance held. *)
Definition post (w : nat) (msg : Worker.msg) (l : link) : link :=
  Link (sgp4Worker l) (posted l ++ [(w, msg)]) (terminated l).

(** The state before [init]. *)
Definition initial : main :=
  Main (Store [] None None false None 0 0 None 0) (Link None [] []) [] None.

(** [setupSgp4Worker]: [spawn] is the instance [new Worker] returns,
    [None] when [Worker] is undefined or the constructor raises. *)
Definition setupSgp4Worker (spawn : option nat) (l : link) : link :=
  match spawn with
  | Some w => Link (Some w) (posted l) (terminated l)
  | None => Link None (posted l) (terminated l)
  end.

(** The [ready] branch of the handler installed by [setupSgp4Worker]. *)
Definition on_ready (satlib : bool) (l : link) : link :=
  if negb satlib then
    let terminated' :=
      match sgp4Worker l with
      | Some w => terminated l ++ [w]
      | None => terminated l
      end in
    Link None (posted l) terminated'
  else l.

(** [sgp4Worker.onmessage] *)
Definition onmessage (msg : Worker.reply) (perfNow : R) (dateNow : Z)
    (m : main) : main :=
  match msg with
  | Worker.Positions arr =>
      with_store (λ s, fst (on_positions arr perfNow dateNow s)) m
  | Worker.Ready satlib _ => with_link (on_ready satlib) m
  end.

(** The loop of [updateTLEPositions] when no worker is held: it writes
    into [tlePositionsAttr.array] and skips an entry on any failure. *)
Definition direct_iteration (L : SatLib) (now : Z) (gmst : R)
    (tle : list entry) (array : buffer) (i : nat) : buffer :=
  let attempt : result (option triple) :=
    match tle !! i with
    | None => Throw
    | Some t =>
        satrec ← twoline2satrec L (str (tle1 t)) (str (tle2 t));
        p ← propagate L satrec now;
        match p with
        | None => Ok None
        | Some p =>
            geo ← eciToGeodetic L p gmst;
            let lon := (longitude geo * 180 / PI)%R in
            let lat := (latitude geo * 180 / PI)%R in
            let phi := ((90 - lat) * (PI / 180))%R in
            let theta := ((lon + 180) * (PI / 180))%R in
            let r := 1.1%R in
            let x := (r * sin phi * cos theta)%R in
            let y := (r * cos phi)%R in
            let z := (r * sin phi * sin theta)%R in
            Ok (Some (Num x, Num y, Num z))
        end
    end in
  match attempt with
  | Ok (Some v) => write3 i v array
  | _ => array
  end.

(** [updateTLEPositions] *)
Definition updateTLEPositions (L : SatLib) (now : Z) (m : main) : main :=
  let s := st m in
  match tleData s, tlePositionsAttr s with
  | [], _ | _, None => m
  | tle, Some a =>
      match sgp4Worker (lk m) with
      | Some w => with_link (post w Worker.Update) m
      | None =>
          let gmst := gstime L now in
          let run array := foldl (direct_iteration L now gmst tle) array
                                 (seq 0 (length tle)) in
          let s' :=
            match a with
            | AttrPosition array => set_attr (Some (AttrPosition (run array))) s
            | AttrNext =>
                set_buffers (prevSatBuffer s) (run <$> nextSatBuffer s) s
            end in
          with_store (λ _, set_lastTleUpdate now s') m
      end
  end.

(** The placeholder ring written at allocation: entry [i] of [count] at
    angle [a = (i / count) * Math.PI * 2], flattened by [squash]. *)
Definition ring_point (squash : R) (count i : nat) : triple :=
  let a := (INR i / INR count * PI * 2)%R in
  let r := 1.1%R in
  (Num (r * cos a), Num (r * sin a * squash), Num (r * sin a)).

Definition ring (squash : R) (count : nat) : buffer :=
  foldl (λ buf i, write3 i (ring_point squash count i) buf)
        (zeros (count * 3)) (seq 0 count).

(** The entries pushed when the fetch fails. *)
Definition placeholder (i : nat) : entry :=
  Entry (Some (JsString.of_string ("SYNTH-" ++ pretty i)))
        (Some []) (Some []).

(** [fetchTLES] from the point where the fetch settles, in a state where
    the point cloud exists ([createSatellites] assigns [tlePoints]
    before it calls [fetchTLES]): [fetched] is the text received,
    [None] when [fetch] or [res.text()] raises.  With the point cloud
    there [tlePoints.geometry.dispose()] succeeds and, the library being
    loaded on the main thread, nothing past the fetch raises inside the
    [try]. *)
Definition fetchTLES (L : SatLib) (fetched : option JsString.t)
    (spawn : option nat) (now : Z) (m : main) : main :=
  match fetched with
  | Some text =>
      let tle := Parser.parseTLE text in
      let count := length tle in
      let prev := ring 0.1 count in
      let next := prev in
      let m := with_store (λ s, set_attr (Some AttrNext)
                 (set_buffers (Some prev) (Some next) (set_tleData tle s))) m in
      let m := match sgp4Worker (lk m) with
               | None => with_link (setupSgp4Worker spawn) m
               | Some _ => m
               end in
      match sgp4Worker (lk m) with
      | Some w =>
          with_link (λ l, post w Worker.Update
                            (post w (Worker.SetTLE (Some tle)) l)) m
      | None => updateTLEPositions L now m
      end
  | None =>
      let tle := placeholder <$> seq 0 12 in
      with_store (λ s, set_lastTleUpdate now
                   (set_attr (Some (AttrPosition (ring 0.2 (length tle))))
                      (set_tleData tle s))) m
  end.

(** The random numbers [Math.random()] returns, in call order. *)
Definition randoms := nat -> R.

(** The parameters pushed by iteration [i] of the loop that ends
    [createSatellites]. *)
Definition synth_param (rnd : randoms) (i : nat) : synth :=
  Synth (1.05 + rnd (4 * i)%nat * 0.5)
        (0.002 + rnd (4 * i + 1)%nat * 0.01)
        (rnd (4 * i + 2)%nat * PI * 2)
        (rnd (4 * i + 3)%nat * PI).

(** [createSatellites], the call of [fetchTLES] left to its own step:
    the point cloud [tlePoints], the synthetic point cloud and the
    synthetic parameters. *)
Definition createSatellites (rnd : randoms) (m : main) : main :=
  let s := st m in
  Main (Store (tleData s) (prevSatBuffer s) (nextSatBuffer s) true
              (tlePositionsAttr s) 0.0 (satInterpStart s)
              (tleLatestBuffer s) (lastTleUpdate s))
       (lk m)
       (synth_param rnd <$> seq 0 SYNTHETIC_SAT_COUNT)
       (Some (zeros (SYNTHETIC_SAT_COUNT * 3))).

(** One iteration of the loop of [animateSyntheticSatellites]; reading
    [p.phase] of a missing entry raises and ends the loop. *)
Definition synth_iteration (acc : list synth * buffer * outcome) (i : nat)
    : list synth * buffer * outcome :=
  let '(params, array, o) := acc in
  match o with
  | Raised => acc
  | Done =>
      match params !! i with
      | None => (params, array, Raised)
      | Some p =>
          let p := Synth (altitude p) (speed p) (phase p + speed p)
                         (inclination p) in
          let a := phase p in
          let inc := inclination p in
          let r := altitude p in
          let x := (r * cos a)%R in
          let y := (r * sin a * sin inc)%R in
          let z := (r * sin a * cos inc)%R in
          (<[i := p]> params, write3 i (Num x, Num y, Num z) array, Done)
      end
  end.

(** [animateSyntheticSatellites] *)
Definition animateSyntheticSatellites (m : main) : main :=
  match syntheticPositions m with
  | None => m
  | Some array =>
      let '(params, array, _) :=
        foldl synth_iteration (syntheticParams m, array, Done)
              (seq 0 SYNTHETIC_SAT_COUNT) in
      Main (st m) (lk m) params (Some array)
  end.

(** The callback of [setInterval] in [startTleUpdateLoop]. *)
Definition timer_tick (L : SatLib) (now : Z) (perfNow : R) (m : main) : main :=
  match sgp4Worker (lk m) with
  | Some w => with_link (post w Worker.Update) m
  | None => with_store (λ s, fst (updateTLEPositionsFallback L now perfNow s)) m
  end.

(** [animate]: the periodic refresh of the element positions, the
    synthetic bodies and the blend. *)
Definition animate (L : SatLib) (now : Z) (perfNow : R) (m : main) : main :=
  let m :=
    if decide (now - lastTleUpdate (st m) > tleUpdateInterval)%Z then
      match sgp4Worker (lk m) with
      | Some _ => updateTLEPositions L now m
      | None =>
          with_store (λ s, fst (updateTLEPositionsFallback L now perfNow s)) m
      end
    else m in
  let m := animateSyntheticSatellites m in
  with_store (advance_interp perfNow) m.

(** What happens on the main thread once [fetchTLES] has settled. *)
Inductive event :=
| WorkerMessage (msg : Worker.reply)
| TimerTick
| Frame.

(** An event with the readings of [Date.now()] and [performance.now()]
    at which it is handled. *)
Definition step (L : SatLib) (m : main) (e : event * Z * R) : main :=
  let '(e, now, perfNow) := e in
  match e with
  | WorkerMessage msg => onmessage msg perfNow now m
  | TimerTick => timer_tick L now perfNow m
  | Frame => animate L now perfNow m
  end.

Definition run (L : SatLib) (m : main) (es : list (event * Z * R)) : main :=
  foldl (step L) m es.

(** A library in which every call raises, for examples that never reach
    it. *)
Definition raising_lib : SatLib :=
  {| satrec := unit; eciPosition := unit;
     gstime := λ _, 0%R;
     twoline2satrec := λ _ _, Throw;
     propagate := λ _ _, Throw;
     eciToGeodetic := λ _ _, Throw |}.

(** A library that locates every element set at latitude and longitude
    zero, for examples. *)
Definition steady_lib : SatLib :=
  {| satrec := unit; eciPosition := unit;
     gstime := λ _, 0%R;
     twoline2satrec := λ _ _, Ok ();
     propagate := λ _ _, Ok (Some ());
     eciToGeodetic := λ _ _, Ok (Geodetic 0 0) |}.

(** An entry as the parser produces it, for examples. *)
Definition sample_entry : entry :=
  Entry (Some (JsString.of_string "ISS")) (Some (JsString.of_string "1 25544U"))
        (Some (JsString.of_string "2 25544")).

(** ** Notions used to state the properties *)

(** The three cells of entry [i] in a coordinate buffer. *)
Definition slot (buf : buffer) (i : nat) : option triple :=
  x ← buf !! (i * 3 + 0)%nat;
  y ← buf !! (i * 3 + 1)%nat;
  z ← buf !! (i * 3 + 2)%nat;
  Some (x, y, z).

(** What the library answers for an entry, in the cases the
    specification distinguishes: a line is absent, a call raises, there
    is no position, or the entry is located. *)
Inductive answer :=
| Absent
| Raises
| NoPosition
| Located (geo : geodetic).

Definition answer_of (L : SatLib) (now : Z) (gmst : R) (t : entry) : answer :=
  if falsy (tle1 t) || falsy (tle2 t) then Absent
  else
    match twoline2satrec L (str (tle1 t)) (str (tle2 t)) with
    | Throw => Raises
    | Ok rec =>
        match propagate L rec now with
        | Throw => Raises
        | Ok None => NoPosition
        | Ok (Some p) =>
            match eciToGeodetic L p gmst with
            | Throw => Raises
            | Ok geo => Located geo
            end
        end
    end.

(** The projection as the specification words it, from latitude and
    longitude in degrees. *)
Definition spherical (lat lon : R) : R * R * R :=
  let phi := ((90 - lat) * PI / 180)%R in
  let theta := ((lon + 180) * PI / 180)%R in
  ((1.1 * sin phi * cos theta)%R, (1.1 * cos phi)%R,
   (1.1 * sin phi * sin theta)%R).

Definition degrees (rad : R) : R := (rad * 180 / PI)%R.

Definition cells (v : R * R * R) : triple :=
  let '(x, y, z) := v in (Num x, Num y, Num z).

Definition norm (v : R * R * R) : R :=
  let '(x, y, z) := v in sqrt (x * x + y * y + z * z).

(** The cells the specification's projection gives for a located entry. *)
Definition located_cells (geo : geodetic) : triple :=
  cells (spherical (degrees (latitude geo)) (degrees (longitude geo))).

(** What the worker's loop is found to leave in the slots of an entry. *)
Definition worker_cells (L : SatLib) (now : Z) (gmst : R) (t : entry)
    : triple :=
  match answer_of L now gmst t with
  | Located geo => located_cells geo
  | _ => (Num 0, Num 0, Num 0)
  end.

(** What the fallback's loop is found to leave in the slots of entry
    [i], given the [nextSatBuffer] it reads. *)
Definition fallback_cells (L : SatLib) (now : Z) (gmst : R)
    (next : option buffer) (i : nat) (t : entry) : triple :=
  match answer_of L now gmst t with
  | Absent => Fallback.keep next i (Num 1.1, Num 0, Num 0)
  | Raises => Fallback.keep next i (Num 0, Num 0, Num 0)
  | NoPosition => (Num 0, Num 0, Num 0)
  | Located geo => located_cells geo
  end.

(** The write iteration [i] of the worker's loop is found to make. *)
Definition worker_write (L : SatLib) (now : Z) (gmst : R)
    (tle : list entry) (i : nat) : option triple :=
  Some (from_option (worker_cells L now gmst) (Num 0, Num 0, Num 0)
                    (tle !! i)).

(** The write iteration [i] of the fallback's loop is found to make, if
    any. *)
Definition fallback_write (L : SatLib) (now : Z) (gmst : R)
    (next : option buffer) (tle : list entry) (i : nat) : option triple :=
  match tle !! i with
  | None => Some (Fallback.keep next i (Num 0, Num 0, Num 0))
  | Some t =>
      match answer_of L now gmst t with
      | NoPosition => None
      | _ => Some (fallback_cells L now gmst next i t)
      end
  end.

(** The scene objects the handlers test for are in place: the point
    cloud [tlePoints] and the attribute [tlePositionsAttr]. *)
Definition ready (s : store) : Prop :=
  tlePoints s = true ∧ is_Some (tlePositionsAttr s).

(** The size invariant of the double-buffer store: both buffers exist
    and hold three cells per entry of the collection. *)
Definition sized (s : store) : Prop :=
  ∃ p n, prevSatBuffer s = Some p ∧ nextSatBuffer s = Some n
         ∧ length p = (3 * length (tleData s))%nat
         ∧ length n = (3 * length (tleData s))%nat.

(** Nothing a handler does changes the collection or the size of a
    buffer of the store. *)
Definition same_shape (s s' : store) : Prop :=
  tleData s' = tleData s
  ∧ length <$> prevSatBuffer s' = length <$> prevSatBuffer s
  ∧ length <$> nextSatBuffer s' = length <$> nextSatBuffer s.

(** A synthetic body after one frame: [phase += speed]. *)
Definition advance_body (p : synth) : synth :=
  Synth (altitude p) (speed p) (phase p + speed p) (inclination p).

(** The inclined circular orbit as the specification words it. *)
Definition orbit_point (p : synth) : R * R * R :=
  let a := phase p in
  let i := inclination p in
  let r := altitude p in
  ((r * cos a)%R, (r * sin a * sin i)%R, (r * sin a * cos i)%R).

(** The ranges of the parameters that a frame leaves alone. *)
Definition in_ranges (p : synth) : Prop :=
  (1.05 <= altitude p <= 1.55)%R ∧ (0.002 <= speed p < 0.012)%R
  ∧ (0 <= inclination p < PI)%R.

(** The synthetic population is in place: one set of parameters and
    three cells per body. *)
Definition populated (m : main) : Prop :=
  length (syntheticParams m) = SYNTHETIC_SAT_COUNT
  ∧ Forall in_ranges (syntheticParams m)
  ∧ ∃ array, syntheticPositions m = Some array
             ∧ length array = (SYNTHETIC_SAT_COUNT * 3)%nat.

(** ** Further code of [script.js] *)

(** *** The vertex shader of the point cloud *)

(** GLSL [mix(x, y, a)], that is [x * (1 - a) + y * a]; a [NaN] operand
    gives [NaN]. *)
Definition mix (a : R) (x y : cell) : cell :=
  match x, y with
  | Num x, Num y => Num (x * (1 - a) + y * a)
  | _, _ => NaN
  end.

(** [vec3 pos = mix(a_posPrev, a_posNext, u_interp)] for every vertex of
    the geometry whose attributes are the two buffers. *)
Definition vertex_positions (s : store) : option buffer :=
  p ← prevSatBuffer s;
  n ← nextSatBuffer s;
  Some (zip_with (mix (u_interp s)) p n).

(** *** [updateTLEPositions] without a worker *)

(** What the library answers on the direct path, where the lines are
    handed over without a test. *)
Definition direct_answer (L : SatLib) (now : Z) (gmst : R) (t : entry)
    : answer :=
  match twoline2satrec L (str (tle1 t)) (str (tle2 t)) with
  | Throw => Raises
  | Ok rec =>
      match propagate L rec now with
      | Throw => Raises
      | Ok None => NoPosition
      | Ok (Some p) =>
          match eciToGeodetic L p gmst with
          | Throw => Raises
          | Ok geo => Located geo
          end
      end
  end.

(** The write iteration [i] of the direct loop is found to make. *)
Definition direct_write (L : SatLib) (now : Z) (gmst : R)
    (tle : list entry) (i : nat) : option triple :=
  match tle !! i with
  | None => None
  | Some t =>
      match direct_answer L now gmst t with
      | Located geo => Some (located_cells geo)
      | _ => None
      end
  end.

(** *** [findIssTleIndex] *)

Module Iss.
Section WithLowerCase.
(** [String.prototype.toLowerCase] *)
Variable toLowerCase : JsString.t -> JsString.t.

Fixpoint starts_with (sub s : JsString.t) : bool :=
  match sub, s with
  | [], _ => true
  | c :: sub', d :: s' => N.eqb c d && starts_with sub' s'
  | _ :: _, [] => false
  end.

(** [s.includes(sub)] *)
Fixpoint includes (s sub : JsString.t) : bool :=
  starts_with sub s
  || match s with
     | [] => false
     | _ :: s' => includes s' sub
     end.

(** The test of the loop on [tleData[i]]. *)
Definition is_iss (t : entry) : bool :=
  let n := toLowerCase (str (name t)) in
  includes n (JsString.of_string "iss")
  || includes n (JsString.of_string "international space station").

(** [for (let i = 0; i < tleData.length; i++)] with its [return i]; the
    index stays below the length, so [tleData[i]] is always there. *)
Fixpoint loop (fuel : nat) (tle : list entry) (i : nat) : Z :=
  match fuel with
  | O => (-1)%Z
  | S fuel' =>
      if decide (i < length tle)%nat then
        match tle !! i with
        | Some t => if is_iss t then Z.of_nat i else loop fuel' tle (S i)
        | None => (-1)%Z
        end
      else (-1)%Z
  end.

Definition findIssTleIndex (tle : list entry) : Z :=
  if decide (length tle = 0%nat) then (-1)%Z
  else loop (length tle) tle 0.

End WithLowerCase.
End Iss.

(** *** [startTleUpdateLoop] and [stopTleUpdateLoop] *)

Module Timer.

(** [running] lists the intervals this script has set and not cleared;
    [issued] is the last handle [setInterval] returned.  Handles are
    positive and never reused. *)
Record state := State {
  tleUpdateTimer : option nat;
  running : list nat;
  issued : nat
}.

Definition initial : state := State None [] 0.

Definition clearInterval (h : nat) (s : state) : state :=
  State (tleUpdateTimer s) (List.filter (λ x, negb (Nat.eqb x h)) (running s))
        (issued s).

Definition setInterval (s : state) : nat * state :=
  let h := S (issued s) in
  (h, State (tleUpdateTimer s) (running s ++ [h]) h).

Definition startTleUpdateLoop (s : state) : state :=
  let s := match tleUpdateTimer s with
           | Some h => clearInterval h s
           | None => s
           end in
  let '(h, s) := setInterval s in
  State (Some h) (running s) (issued s).

Definition stopTleUpdateLoop (s : state) : state :=
  match tleUpdateTimer s with
  | Some h =>
      let s := clearInterval h s in
      State None (running s) (issued s)
  | None => s
  end.

Inductive call :=
| Start
| Stop.

Definition apply (s : state) (c : call) : state :=
  match c with
  | Start => startTleUpdateLoop s
  | Stop => stopTleUpdateLoop s
  end.

End Timer.

(** *** Astronomy and geodesy utilities *)

Module Astro.

(** [date.getTime()] is the argument. *)
Definition toJulianDate (time : Z) : R :=
  (IZR time / 86400000.0 + 2440587.5)%R.

Definition deg2rad (d : R) : R := (d * PI / 180)%R.
Definition rad2deg (r : R) : R := (r * 180 / PI)%R.

(** Rounding towards zero. *)
Definition trunc (x : R) : Z :=
  if Rle_dec 0 x then Int_part x else (- Int_part (- x))%Z.

(** [x % y] on numbers, [y] not zero: the remainder has the sign of [x]. *)
Definition rem (x y : R) : R := (x - y * IZR (trunc (x / y)))%R.

Record vec3 := Vec3 { vx : R; vy : R; vz : R }.

(** [THREE.Vector3.length] *)
Definition vlength (v : vec3) : R :=
  sqrt (vx v * vx v + vy v * vy v + vz v * vz v).

(** [THREE.Vector3.normalize]: [divideScalar(length() || 1)], where
    [divideScalar(s)] multiplies by [1 / s]. *)
Definition normalize (v : vec3) : vec3 :=
  let l := vlength v in
  let s := if Req_dec_T l 0 then 1%R else l in
  Vec3 (vx v * (1 / s)) (vy v * (1 / s)) (vz v * (1 / s)).

(** The sidereal angle in degrees, as both [computeSunEcef] and
    [computeMoonEcef] compute it from [JD]. *)
Definition gmst_degrees (JD : R) : R :=
  let T := ((JD - 2451545.0) / 36525.0)%R in
  let GMST := (280.46061837 + 360.98564736629 * (JD - 2451545.0)
               + 0.000387933 * T * T - (T * T * T) / 38710000.0)%R in
  rem (rem GMST 360 + 360) 360.

Definition computeSunEcef (time : Z) : vec3 :=
  let JD := toJulianDate time in
  let n := (JD - 2451545.0)%R in
  let L := rem (280.460 + 0.9856474 * n) 360 in
  let g := rem (357.528 + 0.9856003 * n) 360 in
  let grad := deg2rad g in
  let lambda :=
    deg2rad (rem (L + 1.915 * sin grad + 0.020 * sin (2 * grad)) 360) in
  let eps := deg2rad (23.439 - 0.0000004 * n) in
  let x_eq := cos lambda in
  let y_eq := (cos eps * sin lambda)%R in
  let z_eq := (sin eps * sin lambda)%R in
  let gmstRad := deg2rad (gmst_degrees JD) in
  let x := (x_eq * cos gmstRad + y_eq * sin gmstRad)%R in
  let y := (- x_eq * sin gmstRad + y_eq * cos gmstRad)%R in
  let z := z_eq in
  normalize (Vec3 x y z).

Section WithAtan2.
(** [Math.atan2] *)
Variable atan2 : R -> R -> R.

Definition computeMoonEcef (time : Z) : vec3 :=
  let JD := toJulianDate time in
  let d := (JD - 2451543.5)%R in
  let N := deg2rad (rem (125.1228 - 0.0529538083 * d) 360) in
  let i := deg2rad 5.1454 in
  let w := deg2rad (rem (318.0634 + 0.1643573223 * d) 360) in
  let a := 60.2666%R in
  let e := 0.054900%R in
  let M := deg2rad (rem (115.3654 + 13.0649929509 * d) 360) in
  let E := (M + e * sin M * (1 + e * cos M))%R in
  let xv := (a * (cos E - e))%R in
  let yv := (a * sqrt (1 - e * e) * sin E)%R in
  let v := atan2 yv xv in
  let r := sqrt (xv * xv + yv * yv) in
  let xe := (r * (cos N * cos (v + w) - sin N * sin (v + w) * cos i))%R in
  let ye := (r * (sin N * cos (v + w) + cos N * sin (v + w) * cos i))%R in
  let ze := (r * (sin (v + w) * sin i))%R in
  let eps := deg2rad 23.4397 in
  let xeq := xe in
  let yeq := (ye * cos eps - ze * sin eps)%R in
  let zeq := (ye * sin eps + ze * cos eps)%R in
  let gmstRad := deg2rad (gmst_degrees JD) in
  let x := (xeq * cos gmstRad + yeq * sin gmstRad)%R in
  let y := (- xeq * sin gmstRad + yeq * cos gmstRad)%R in
  let z := zeq in
  normalize (Vec3 x y z).

End WithAtan2.

(** [latLonAltToEcef]: the result [{ x, y, z }] in metres. *)
Definition latLonAltToEcef (latDeg lonDeg altM : R) : vec3 :=
  let a := 6378137.0%R in
  let f := (1 / 298.257223563)%R in
  let e2 := (f * (2 - f))%R in
  let lat := deg2rad latDeg in
  let lon := deg2rad lonDeg in
  let N := (a / sqrt (1 - e2 * sin lat * sin lat))%R in
  let x := ((N + altM) * cos lat * cos lon)%R in
  let y := ((N + altM) * cos lat * sin lon)%R in
  let z := (((1 - e2) * N + altM) * sin lat)%R in
  Vec3 x y z.

(** [dot3] *)
Definition dot3 (a b : vec3) : R :=
  (vx a * vx b + vy a * vy b + vz a * vz b)%R.

End Astro.

(** *** [toLocalDatetimeInputValue] *)

Module DateFormat.

(** What the local-time getters of a [Date] return, for a year of the
    common era; [getMonth] counts from 0. *)
Record local := Local {
  getFullYear : nat;
  getMonth : nat;
  getDate : nat;
  getHours : nat;
  getMinutes : nat;
  getSeconds : nat
}.

(** [String(n)] for a natural number. *)
Definition String_ (n : nat) : JsString.t := JsString.of_string (pretty n).

(** [s.padStart(len, c)] for a filler of one code unit. *)
Definition padStart (len : nat) (c : N) (s : JsString.t) : JsString.t :=
  replicate (len - length s) c ++ s.

(** [const pad = (n) => String(n).padStart(2, '0')] *)
Definition pad (n : nat) : JsString.t := padStart 2 48%N (String_ n).

Definition toLocalDatetimeInputValue (d : local) : JsString.t :=
  let year := getFullYear d in
  let month := pad (getMonth d + 1) in
  let day := pad (getDate d) in
  let hrs := pad (getHours d) in
  let mins := pad (getMinutes d) in
  let secs := pad (getSeconds d) in
  String_ year ++ [45%N] ++ month ++ [45%N] ++ day ++ [84%N]
    ++ hrs ++ [58%N] ++ mins ++ [58%N] ++ secs.

End DateFormat.

(** *** Notions used to state the further properties *)

(** A buffer without [NaN] cells. *)
Definition numeric (b : buffer) : Prop := Forall (λ c, c ≠ NaN) b.

(** Lines written one per line, a newline between two lines. *)
Fixpoint join_nl (ls : list JsString.t) : JsString.t :=
  match ls with
  | [] => []
  | [l] => l
  | l :: ls' => l ++ (JsString.newline :: join_nl ls')
  end.

(** A line as an element-set file holds it: not empty, without a
    newline, without white space at either end. *)
Definition clean_line (l : JsString.t) : Prop :=
  l ≠ [] ∧ (JsString.newline ∉ l) ∧ JsString.trim l = l.

(** The code units of the decimal digits. *)
Definition digit (c : N) : bool := (N.leb 48 c && N.leb c 57)%N.

(** Three cells without [NaN]. *)
Definition numeric3 (v : triple) : Prop :=
  let '(x, y, z) := v in x ≠ NaN ∧ y ≠ NaN ∧ z ≠ NaN.

(** Both buffers exist and hold no [NaN]. *)
Definition numeric_store (s : store) : Prop :=
  ∃ p n, prevSatBuffer s = Some p ∧ nextSatBuffer s = Some n
         ∧ numeric p ∧ numeric n.

(** An event that, if it is a [positions] message, carries no [NaN]. *)
Definition numeric_event (e : event * Z * R) : Prop :=
  match e with
  | (WorkerMessage (Worker.Positions arr), _, _) => numeric arr
  | _ => True
  end.

(** ** Arithmetic as the code performs it *)

(** *** Binary64

    The computations of [script.js] whose exact result matters, on the
    doubles JavaScript computes with. *)

Module Binary64.
Import PrimFloat.
#[local] Set Warnings "-inexact-float".
#[local] Open Scope float_scope.

(** [let satInterpDuration = 0.8], the double nearest 0.8. *)
Definition satInterpDuration : float := 0.8.

(** [Math.min(x, y)]: [NaN] if an argument is, and [-0] below [+0]. *)
Definition Math_min (x y : float) : float :=
  if is_nan x || is_nan y then nan
  else if x <? y then x
  else if y <? x then y
  else if is_zero x && get_sign x then x else y.

(** [satInterpStart = performance.now() / 1000.0] *)
Definition restart_clock (perfNow : float) : float := perfNow / 1000.

(** The value the block of [animate] that advances the blend writes to
    [u_interp] of the point cloud, if it writes one; [perfNow] is
    [performance.now()]. *)
Definition advance_interp (satInterpStart perfNow : float) : option float :=
  let now := perfNow / 1000 in
  if 0 <? satInterpStart then
    Some (Math_min 1 ((now - satInterpStart) / satInterpDuration))
  else None.

(** [altitude: 1.05 + Math.random() * 0.5] of [createSatellites]. *)
Definition altitude (random : float) : float := 1.05 + random * 0.5.

End Binary64.

(** *** Rounding made explicit

    The clock of the blend with every arithmetic result rounded by
    [rnd], the function that takes a real number to the double nearest
    it; the store is the one of the main thread. *)

Module Rounded.
Section WithRounding.
Variable rnd : R -> R.

(** [let satInterpDuration = 0.8] *)
Definition satInterpDuration : R := rnd 0.8.

(** [u_interp.value = 0.0; satInterpStart = performance.now() / 1000.0] *)
Definition restart_clock (perfNow : R) (s : store) : store :=
  set_interp 0 (rnd (perfNow / 1000)) s.

(** The block of [animate] that advances the blend: [perfNow] is
    [performance.now()]. *)
Definition advance_interp (perfNow : R) (s : store) : store :=
  if tlePoints s then
    let now := rnd (perfNow / 1000) in
    if Rlt_dec 0 (satInterpStart s) then
      let t := Rmin 1 (rnd (rnd (now - satInterpStart s)
                            / satInterpDuration)) in
      set_interp t (satInterpStart s) s
    else s
  else s.

(** The blend values read by successive frames at the given clock
    readings, no install in between. *)
Fixpoint blend_reads (frames : list R) (s : store) : list R :=
  match frames with
  | [] => []
  | f :: frames' =>
      let s' := advance_interp f s in
      u_interp s' :: blend_reads frames' s'
  end.

(** The elapsed time a frame at clock reading [f] computes. *)
Definition elapsed (s : store) (f : R) : R :=
  rnd (rnd (f / 1000) - satInterpStart s).

(** The blend a frame at clock reading [f] is found to compute in a
    store whose clock has been started. *)
Definition blend (s : store) (f : R) : R :=
  Rmin 1 (rnd (elapsed s f / satInterpDuration)).

End WithRounding.
End Rounded.

(** What is used of rounding to the nearest double: it keeps the order,
    and it leaves 0, 1/2 and 1, which are doubles, as they are. *)
Record rounding (rnd : R -> R) : Prop := Rounding {
  rnd_mono : ∀ x y, (x <= y)%R -> (rnd x <= rnd y)%R;
  rnd_zero : rnd 0%R = 0%R;
  rnd_half : rnd (1 / 2)%R = (1 / 2)%R;
  rnd_one : rnd 1%R = 1%R
}.

(** *** The lines of a text, without the parser *)

Module Lines.

(** A line of a text: white space, a core, white space. *)
Record piece := Piece {
  before : JsString.t;
  core : JsString.t;
  after : JsString.t
}.

Definition raw (p : piece) : JsString.t := before p ++ core p ++ after p.

(** White space other than the newline. *)
Definition padding (w : JsString.t) : Prop :=
  Forall (λ c, JsString.is_ws c = true ∧ c ≠ JsString.newline) w.

(** No white space at either end. *)
Definition tight (l : JsString.t) : Prop :=
  (∀ c, head l = Some c -> JsString.is_ws c = false)
  ∧ (∀ c, last l = Some c -> JsString.is_ws c = false).

(** The core of a line is what is left of it without the white space
    at its ends; it may be empty. *)
Definition well_formed (p : piece) : Prop :=
  padding (before p) ∧ padding (after p)
  ∧ tight (core p) ∧ (JsString.newline ∉ core p).

(** The text with the given lines, a newline between two lines. *)
Definition text_of (ps : list piece) : JsString.t := join_nl (raw <$> ps).

(** The cores that are not empty, in order. *)
Definition cores (ps : list piece) : list JsString.t :=
  filter (λ l, l ≠ []) (core <$> ps).

End Lines.

(** * Properties *)

(** ** Strings and the element-set parser *)

Section ParserFacts.
Import JsString Parser.

Lemma trimStart_blank (w s : JsString.t) :
  blank w -> trimStart (w ++ s) = trimStart s.
Proof.
  induction 1 as [|c w Hc _ IH]; simpl; [done|]. by rewrite Hc.
Qed.

Lemma trimStart_nil_blank (s : JsString.t) : trimStart s = [] <-> blank s.
Proof.
  split.
  - induction s as [|c s IH]; simpl; [constructor|].
    destruct (is_ws c) eqn:Hc; [|done]. intros H.
    constructor; [done|by apply IH].
  - intros H. rewrite <- (app_nil_r s). by rewrite trimStart_blank.
Qed.

Lemma trimStart_app (s u : JsString.t) :
  trimStart s ≠ [] -> trimStart (s ++ u) = trimStart s ++ u.
Proof.
  induction s as [|c s IH]; simpl; [done|].
  destruct (is_ws c); [exact IH|done].
Qed.

Lemma blank_reverse (w : JsString.t) : blank w -> blank (reverse w).
Proof. unfold blank. by rewrite Forall_reverse. Qed.

Lemma trimEnd_blank (s w : JsString.t) :
  blank w -> trimEnd (s ++ w) = trimEnd s.
Proof.
  intros Hw. unfold trimEnd. rewrite reverse_app.
  by rewrite trimStart_blank by by apply blank_reverse.
Qed.

Lemma trim_blank_suffix (s w : JsString.t) :
  blank w -> trim (s ++ w) = trim s.
Proof.
  intros Hw. unfold trim.
  destruct (trimStart s) as [|c r] eqn:Hs.
  - apply trimStart_nil_blank in Hs.
    assert (Hb : blank (s ++ w)) by by apply Forall_app.
    apply trimStart_nil_blank in Hb. by rewrite Hb.
  - rewrite trimStart_app by by rewrite Hs.
    rewrite Hs. by apply trimEnd_blank.
Qed.

Lemma trim_blank (w : JsString.t) : blank w -> trim w = [].
Proof.
  intros Hw. unfold trim. apply trimStart_nil_blank in Hw. by rewrite Hw.
Qed.

Lemma split_nl_cons (s : JsString.t) : ∃ l ls, split_nl s = l :: ls.
Proof.
  induction s as [|c s (l & ls & IH)]; simpl; [by eauto|].
  destruct (N.eqb c newline); [by eauto|]. rewrite IH. eauto.
Qed.

(** The pieces of [a ++ b]: those of [a], the last one continued by the
    first piece of [b], then the other pieces of [b]. *)
Lemma split_nl_app (a : JsString.t) :
  ∃ init lst, split_nl a = init ++ [lst] ∧
    ∀ b, split_nl (a ++ b)
         = init ++ (lst ++ hd [] (split_nl b)) :: tl (split_nl b).
Proof.
  induction a as [|c a (init & lst & Ha & Hab)].
  - exists [], []. split; [done|]. intros b. simpl.
    by destruct (split_nl_cons b) as (l & ls & ->).
  - simpl. destruct (N.eqb c newline).
    + exists ([] :: init), lst. split; [by rewrite Ha|].
      intros b. by rewrite Hab.
    + destruct init as [|i0 init].
      * exists [], (c :: lst). split; [by rewrite Ha|].
        intros b. by rewrite Hab.
      * exists ((c :: i0) :: init), lst. split; [by rewrite Ha|].
        intros b. by rewrite Hab.
Qed.

Lemma split_nl_blank (w : JsString.t) :
  blank w -> Forall blank (split_nl w).
Proof.
  induction 1 as [|c w Hc _ IH]; simpl; [by repeat constructor|].
  destruct (N.eqb c newline); [constructor; [constructor|exact IH]|].
  destruct (split_nl w) as [|l ls]; [by repeat constructor|].
  inversion IH; subst. constructor; [by constructor|done].
Qed.

Lemma filter_trim_blank (ls : list JsString.t) :
  Forall blank ls -> List.filter truthy (trim <$> ls) = [].
Proof.
  induction 1 as [|l ls Hl _ IH]; simpl; [done|].
  by rewrite trim_blank.
Qed.

Lemma lines_of_blank_suffix (text tail : JsString.t) :
  blank tail -> lines_of (text ++ tail) = lines_of text.
Proof.
  intros Ht. unfold lines_of.
  destruct (split_nl_app text) as (init & lst & -> & ->).
  pose proof (split_nl_blank tail Ht) as Hb.
  destruct (split_nl tail) as [|h t]; simpl in *.
  - by rewrite app_nil_r.
  - inversion Hb; subst.
    rewrite !fmap_app, !List.filter_app, !fmap_cons.
    cbn [List.filter fmap list_fmap].
    rewrite (trim_blank_suffix lst h) by assumption.
    pose proof (filter_trim_blank t) as Ht0.
    cbn [fmap] in Ht0. by rewrite Ht0.
Qed.

Lemma lines_of_truthy (text : JsString.t) :
  Forall (λ l, truthy l = true) (lines_of text).
Proof.
  apply List.Forall_forall. intros l Hl.
  by apply List.filter_In in Hl as [_ Hl].
Qed.

Lemma loop_triplets (lines : list JsString.t) :
  Forall (λ l, truthy l = true) lines ->
  ∀ fuel i acc, (length lines <= i + fuel)%nat ->
    loop fuel lines i acc = acc ++ triplets (drop i lines).
Proof.
  intros Hall. induction fuel as [|fuel IH]; intros i acc Hfuel; simpl.
  - rewrite drop_ge by lia. simpl. by rewrite app_nil_r.
  - destruct (decide (i < length lines)%nat) as [Hi|Hi];
      [|rewrite drop_ge by lia; simpl; by rewrite app_nil_r].
    destruct (lookup_lt_is_Some_2 lines i Hi) as [n Hn].
    rewrite (drop_S _ _ _ Hn).
    destruct (lines !! (i + 1)%nat) as [a|] eqn:Ha; simpl.
    2:{ apply lookup_ge_None in Ha. rewrite drop_ge by lia.
        simpl. by rewrite app_nil_r. }
    replace (S i) with (i + 1)%nat by lia. rewrite (drop_S _ _ _ Ha).
    assert (Hta : truthy a = true).
    { eapply (proj1 (Forall_lookup _ _) Hall); eauto. }
    rewrite Hta. simpl.
    destruct (lines !! (i + 2)%nat) as [b|] eqn:Hb; simpl.
    2:{ apply lookup_ge_None in Hb. rewrite drop_ge by lia.
        simpl. by rewrite app_nil_r. }
    replace (S (i + 1)) with (i + 2)%nat by lia. rewrite (drop_S _ _ _ Hb).
    assert (Htb : truthy b = true).
    { eapply (proj1 (Forall_lookup _ _) Hall); eauto. }
    rewrite Htb. simpl. rewrite Hn.
    rewrite IH by lia. rewrite <- app_assoc. simpl.
    by replace (S (i + 2)) with (i + 3)%nat by lia.
Qed.

Lemma triplets_length (ls : list JsString.t) :
  length (triplets ls) = (length ls / 3)%nat.
Proof.
  assert (H : ∀ n ls, (length ls < n)%nat ->
              length (triplets ls) = (length ls / 3)%nat).
  { induction n as [|n IH]; intros l Hl; [lia|].
    destruct l as [|x [|a [|b rest]]]; try done.
    cbn [triplets length] in *. rewrite IH by lia.
    replace (S (S (S (length rest)))) with (length rest + 1 * 3)%nat by lia.
    rewrite Nat.div_add by lia. lia. }
  apply (H (S (length ls))). lia.
Qed.

Lemma triplets_lines (ls : list JsString.t) :
  Forall (λ l, truthy l = true) ls ->
  Forall (λ e, ∃ l1 l2, tle1 e = Some l1 ∧ tle2 e = Some l2
                        ∧ l1 ≠ [] ∧ l2 ≠ []) (triplets ls).
Proof.
  assert (H : ∀ n ls, (length ls < n)%nat ->
     Forall (λ l, truthy l = true) ls ->
     Forall (λ e, ∃ l1 l2, tle1 e = Some l1 ∧ tle2 e = Some l2
                           ∧ l1 ≠ [] ∧ l2 ≠ []) (triplets ls)).
  { induction n as [|n IH]; intros l Hl Hall; [lia|].
    destruct l as [|x [|a [|b rest]]]; try by constructor.
    simpl. inversion Hall as [|? ? _ Hall1]; subst.
    inversion Hall1 as [|? ? Ha Hall2]; subst.
    inversion Hall2 as [|? ? Hb Hall3]; subst.
    constructor; [exists a, b; by destruct a, b|].
    apply IH; [simpl in Hl; lia|done]. }
  apply (H (S (length ls))). lia.
Qed.

Lemma parseTLE_eq (text : JsString.t) :
  parseTLE text = triplets (lines_of text).
Proof.
  unfold parseTLE, parseLines.
  rewrite loop_triplets; [done|apply lines_of_truthy|lia].
Qed.

End ParserFacts.

(** ** Coordinate buffers and the per-entry loops *)

Section BufferFacts.

Lemma write3_length i v (out : buffer) : length (write3 i v out) = length out.
Proof. destruct v as [[x y] z]. unfold write3. by rewrite !length_insert. Qed.

Lemma write3_lookup i x y z (out : buffer) :
  (i * 3 + 2 < length out)%nat ->
  write3 i (x, y, z) out !! (i * 3 + 0)%nat = Some x
  ∧ write3 i (x, y, z) out !! (i * 3 + 1)%nat = Some y
  ∧ write3 i (x, y, z) out !! (i * 3 + 2)%nat = Some z.
Proof.
  intros Hi. unfold write3. repeat split.
  - rewrite (list_lookup_insert_ne _ (i * 3 + 2) (i * 3 + 0)) by lia.
    rewrite (list_lookup_insert_ne _ (i * 3 + 1) (i * 3 + 0)) by lia.
    apply list_lookup_insert_eq. lia.
  - rewrite (list_lookup_insert_ne _ (i * 3 + 2) (i * 3 + 1)) by lia.
    apply list_lookup_insert_eq. rewrite length_insert. lia.
  - apply list_lookup_insert_eq. rewrite !length_insert. lia.
Qed.

Lemma write3_lookup_ne i j v (out : buffer) :
  (j < i * 3 ∨ i * 3 + 2 < j)%nat -> write3 i v out !! j = out !! j.
Proof.
  intros Hj. destruct v as [[x y] z]. unfold write3.
  rewrite (list_lookup_insert_ne _ (i * 3 + 2) j) by lia.
  rewrite (list_lookup_insert_ne _ (i * 3 + 1) j) by lia.
  apply list_lookup_insert_ne. lia.
Qed.

Lemma slot_write3 i v (out : buffer) :
  (i * 3 + 2 < length out)%nat -> slot (write3 i v out) i = Some v.
Proof.
  intros Hi. destruct v as [[x y] z]. unfold slot.
  destruct (write3_lookup i x y z out Hi) as (-> & -> & ->). done.
Qed.

Lemma slot_write3_ne i j v (out : buffer) :
  i ≠ j -> slot (write3 i v out) j = slot out j.
Proof.
  intros Hij. unfold slot.
  by rewrite !(write3_lookup_ne i _ v out) by lia.
Qed.

Lemma slot_zeros n i :
  (i < n)%nat -> slot (zeros (n * 3)) i = Some (Num 0, Num 0, Num 0).
Proof.
  intros Hi. unfold slot, zeros.
  by rewrite !lookup_replicate_2 by lia.
Qed.

Lemma slot_None (buf : buffer) i :
  (length buf <= i * 3)%nat -> slot buf i = None.
Proof.
  intros Hi. unfold slot.
  by rewrite (lookup_ge_None_2 buf (i * 3 + 0)) by lia.
Qed.

(** Two buffers of [n] entries with the same entries are equal. *)
Lemma buffer_eq (b1 b2 : buffer) n :
  length b1 = (n * 3)%nat -> length b2 = (n * 3)%nat ->
  (∀ i, (i < n)%nat -> slot b1 i = slot b2 i) -> b1 = b2.
Proof.
  intros H1 H2 Hs. apply list_eq. intros j.
  destruct (decide (j < n * 3)%nat) as [Hj|Hj].
  2:{ by rewrite !lookup_ge_None_2 by lia. }
  assert (Hq : (j `div` 3 < n)%nat) by (apply Nat.Div0.div_lt_upper_bound; lia).
  specialize (Hs _ Hq). unfold slot in Hs.
  pose proof (Nat.div_mod_eq j 3) as Hdm.
  pose proof (Nat.mod_upper_bound j 3) as Hm.
  destruct (lookup_lt_is_Some_2 b1 (j `div` 3 * 3 + 0)) as [x1 Hx1]; [lia|].
  destruct (lookup_lt_is_Some_2 b1 (j `div` 3 * 3 + 1)) as [y1 Hy1]; [lia|].
  destruct (lookup_lt_is_Some_2 b1 (j `div` 3 * 3 + 2)) as [z1 Hz1]; [lia|].
  destruct (lookup_lt_is_Some_2 b2 (j `div` 3 * 3 + 0)) as [x2 Hx2]; [lia|].
  destruct (lookup_lt_is_Some_2 b2 (j `div` 3 * 3 + 1)) as [y2 Hy2]; [lia|].
  destruct (lookup_lt_is_Some_2 b2 (j `div` 3 * 3 + 2)) as [z2 Hz2]; [lia|].
  rewrite Hx1, Hy1, Hz1, Hx2, Hy2, Hz2 in Hs. simpl in Hs.
  destruct (decide (j `mod` 3 = 0)%nat) as [E0|N0];
    [replace j with (j `div` 3 * 3 + 0)%nat by lia; congruence|].
  destruct (decide (j `mod` 3 = 1)%nat) as [E1|N1];
    [replace j with (j `div` 3 * 3 + 1)%nat by lia; congruence|].
  replace j with (j `div` 3 * 3 + 2)%nat by lia; congruence.
Qed.

(** A loop whose iteration [i] writes the three cells [w i], or nothing. *)
Section Loop.
Variable it : buffer -> nat -> buffer.
Variable w : nat -> option triple.
Hypothesis it_spec : ∀ out i,
  it out i = match w i with Some v => write3 i v out | None => out end.

Lemma loop_length (out : buffer) a n :
  length (foldl it out (seq a n)) = length out.
Proof using it_spec.
  induction n as [|n IH]; [done|].
  rewrite seq_S, foldl_snoc, it_spec.
  destruct (w (a + n)%nat); [by rewrite write3_length|done].
Qed.

Lemma loop_slot_outside (out : buffer) a n i :
  (i < a ∨ a + n <= i)%nat -> slot (foldl it out (seq a n)) i = slot out i.
Proof using it_spec.
  induction n as [|n IH]; intros Hi; [done|].
  rewrite seq_S, foldl_snoc, it_spec.
  destruct (w (a + n)%nat); [rewrite slot_write3_ne by lia|]; apply IH; lia.
Qed.

Lemma loop_slot (out : buffer) a n i :
  ((a + n) * 3 <= length out)%nat -> (a <= i < a + n)%nat ->
  slot (foldl it out (seq a n)) i
  = match w i with Some v => Some v | None => slot out i end.
Proof using it_spec.
  induction n as [|n IH]; intros Hlen Hi; [lia|].
  rewrite seq_S, foldl_snoc, it_spec.
  destruct (decide (i = a + n)%nat) as [->|Hne].
  - destruct (w (a + n)%nat).
    + apply slot_write3. rewrite loop_length. lia.
    + apply loop_slot_outside. lia.
  - destruct (w (a + n)%nat); [rewrite slot_write3_ne by lia|];
      apply IH; lia.
Qed.

End Loop.
End BufferFacts.

(** ** The two propagation batches *)

Section BatchFacts.
Variable L : SatLib.
Variable now : Z.
Variable gmst : R.

Lemma projection_eq (geo : geodetic) :
  let lon := (longitude geo * 180 / PI)%R in
  let lat := (latitude geo * 180 / PI)%R in
  let phi := ((90 - lat) * (PI / 180))%R in
  let theta := ((lon + 180) * (PI / 180))%R in
  (Num (1.1 * sin phi * cos theta), Num (1.1 * cos phi),
   Num (1.1 * sin phi * sin theta))
  = located_cells geo.
Proof.
  cbv zeta. unfold located_cells, spherical, degrees, cells.
  replace ((90 - latitude geo * 180 / PI) * (PI / 180))%R
    with ((90 - latitude geo * 180 / PI) * PI / 180)%R
    by (unfold Rdiv; ring).
  replace ((longitude geo * 180 / PI + 180) * (PI / 180))%R
    with ((longitude geo * 180 / PI + 180) * PI / 180)%R
    by (unfold Rdiv; ring).
  done.
Qed.

Lemma worker_iteration tle out i :
  Worker.iteration L now gmst tle out i
  = match worker_write L now gmst tle i with
    | Some v => write3 i v out
    | None => out
    end.
Proof.
  unfold worker_write.
  unfold Worker.iteration, Worker.try_block, worker_cells, answer_of.
  destruct (tle !! i) as [t|]; [|done]. cbn [from_option].
  destruct (falsy (tle1 t) || falsy (tle2 t)); [done|].
  destruct (twoline2satrec L _ _) as [rec|]; simpl; [|done].
  destruct (propagate L rec now) as [[p|]|]; simpl; [|done|done].
  destruct (eciToGeodetic L p gmst) as [geo|]; [|done].
  cbn [mbind result_bind]. by rewrite (projection_eq geo).
Qed.

Lemma worker_length tle :
  length (Worker.positions_loop L now gmst tle) = (length tle * 3)%nat.
Proof.
  unfold Worker.positions_loop.
  rewrite (loop_length _ (worker_write L now gmst tle) (worker_iteration tle)).
  apply length_replicate.
Qed.

Lemma worker_slot tle i t :
  tle !! i = Some t ->
  slot (Worker.positions_loop L now gmst tle) i
  = Some (worker_cells L now gmst t).
Proof.
  intros Ht. unfold Worker.positions_loop.
  pose proof (lookup_lt_Some _ _ _ Ht) as Hi.
  rewrite (loop_slot _ (worker_write L now gmst tle) (worker_iteration tle)).
  - unfold worker_write. by rewrite Ht.
  - unfold zeros. rewrite length_replicate. lia.
  - lia.
Qed.

Lemma fallback_iteration next tle arr i :
  Fallback.iteration L now gmst next tle arr i
  = match fallback_write L now gmst next tle i with
    | Some v => write3 i v arr
    | None => arr
    end.
Proof.
  unfold Fallback.iteration, Fallback.try_block, fallback_write,
    fallback_cells, answer_of.
  destruct (tle !! i) as [t|]; [|done].
  destruct (falsy (tle1 t) || falsy (tle2 t)).
  { unfold Fallback.keep. destruct next; [done|].
    assert (E : 0.0%R = 0%R) by lra. by rewrite E. }
  destruct (twoline2satrec L _ _) as [rec|]; simpl; [|done].
  destruct (propagate L rec now) as [[p|]|]; simpl; [|done|done].
  destruct (eciToGeodetic L p gmst) as [geo|]; [|done].
  cbn [mbind result_bind]. by rewrite (projection_eq geo).
Qed.

Lemma fallback_length next tle :
  length (Fallback.positions_loop L now gmst next tle) = (length tle * 3)%nat.
Proof.
  unfold Fallback.positions_loop.
  rewrite (loop_length _ (fallback_write L now gmst next tle) (fallback_iteration next tle)).
  apply length_replicate.
Qed.

Lemma fallback_slot next tle i t :
  tle !! i = Some t ->
  slot (Fallback.positions_loop L now gmst next tle) i
  = Some (fallback_cells L now gmst next i t).
Proof.
  intros Ht. unfold Fallback.positions_loop.
  pose proof (lookup_lt_Some _ _ _ Ht) as Hi.
  rewrite (loop_slot _ (fallback_write L now gmst next tle) (fallback_iteration next tle)).
  - unfold fallback_write, fallback_cells. rewrite Ht.
    destruct (answer_of L now gmst t); try done.
    by apply slot_zeros.
  - unfold zeros. rewrite length_replicate. lia.
  - lia.
Qed.

End BatchFacts.

Lemma norm_spherical (lat lon : R) : norm (spherical lat lon) = 1.1%R.
Proof.
  unfold norm, spherical. cbv zeta.
  set (phi := ((90 - lat) * PI / 180)%R).
  set (theta := ((lon + 180) * PI / 180)%R).
  pose proof (sin2_cos2 phi) as Hp. pose proof (sin2_cos2 theta) as Ht.
  unfold Rsqr in Hp, Ht.
  replace (1.1 * sin phi * cos theta * (1.1 * sin phi * cos theta)
           + 1.1 * cos phi * (1.1 * cos phi)
           + 1.1 * sin phi * sin theta * (1.1 * sin phi * sin theta))%R
    with (1.1 * 1.1 * (sin phi * sin phi
            * (sin theta * sin theta + cos theta * cos theta)
            + cos phi * cos phi))%R by ring.
  rewrite Ht, Rmult_1_r, Hp, Rmult_1_r.
  apply sqrt_square. lra.
Qed.

(** C10: a worker whose library did not load answers every [update]
    with one [positions] message carrying a buffer of [3 * N] zeros, [N]
    the length of the collection it holds. *)
Theorem update_without_library (L : SatLib) (now : Z) (s : Worker.state) :
  Worker.satlibLoaded s = false ->
  ∃ buf, Worker.onmessage L now s Worker.Update = (s, [Worker.Positions buf])
         ∧ length buf = (3 * length (Worker.tleData s))%nat
         ∧ Forall (λ c, c = Num 0) buf.
Proof.
  intros Hs. exists (zeros (length (Worker.tleData s) * 3)). repeat split.
  - unfold Worker.onmessage. by rewrite Hs.
  - unfold zeros. rewrite length_replicate. lia.
  - unfold zeros. apply Forall_forall. intros c Hc.
    by apply elem_of_replicate in Hc as [-> _].
Qed.

Lemma update_without_library_witness :
  ∃ buf, Worker.onmessage raising_lib 0
           (Worker.State false [placeholder 0; placeholder 1]) Worker.Update
         = (Worker.State false [placeholder 0; placeholder 1],
            [Worker.Positions buf])
         ∧ length buf = 6%nat ∧ Forall (λ c, c = Num 0) buf.
Proof.
  apply (update_without_library raising_lib 0
           (Worker.State false [placeholder 0; placeholder 1])).
  reflexivity.
Defined.

(** C7: for a located entry both batches write the point the
    specification's projection gives from the latitude and longitude in
    degrees, and that point lies at distance 1.1 from the centre. *)
Theorem located_entry_projection (L : SatLib) (now : Z)
    (next : option buffer) (tle : list entry) (i : nat) (t : entry)
    (geo : geodetic) :
  tle !! i = Some t ->
  answer_of L now (gstime L now) t = Located geo ->
  let p := spherical (degrees (latitude geo)) (degrees (longitude geo)) in
  slot (Worker.positions_loop L now (gstime L now) tle) i = Some (cells p)
  ∧ slot (Fallback.positions_loop L now (gstime L now) next tle) i
    = Some (cells p)
  ∧ norm p = 1.1%R.
Proof.
  intros Ht Ha p. repeat split.
  - rewrite (worker_slot _ _ _ _ _ _ Ht). unfold worker_cells. by rewrite Ha.
  - rewrite (fallback_slot _ _ _ _ _ _ _ Ht). unfold fallback_cells.
    by rewrite Ha.
  - apply norm_spherical.
Qed.

Lemma located_entry_projection_witness :
  let t := Entry (Some [73%N]) (Some [49%N]) (Some [50%N]) in
  let p := spherical (degrees 0) (degrees 0) in
  slot (Worker.positions_loop steady_lib 0 0 [t]) 0 = Some (cells p)
  ∧ slot (Fallback.positions_loop steady_lib 0 0 None [t]) 0 = Some (cells p)
  ∧ norm p = 1.1%R.
Proof.
  intros t.
  apply (located_entry_projection steady_lib 0 None [t] 0 t (Geodetic 0 0));
    reflexivity.
Defined.

(** After a failed fetch the collection holds placeholder entries and
    no [nextSatBuffer] exists: the fallback leaves (1.1, 0, 0) at such
    an entry, the worker zeros. *)
Lemma fallback_placeholder_slot :
  slot (Fallback.positions_loop raising_lib 0 (gstime raising_lib 0) None
          [placeholder 0]) 0
  = Some (Num 1.1, Num 0, Num 0).
Proof.
  exact (fallback_slot raising_lib 0 0 None [placeholder 0] 0
           (placeholder 0) eq_refl).
Qed.

Lemma worker_placeholder_slot :
  slot (Worker.positions_loop raising_lib 0 (gstime raising_lib 0)
          [placeholder 0]) 0
  = Some (Num 0, Num 0, Num 0).
Proof.
  exact (worker_slot raising_lib 0 0 [placeholder 0] 0 (placeholder 0)
           eq_refl).
Qed.

(** C2, as stated, fails on the fallback: a placeholder entry, whose
    lines are empty, does not get (0,0,0) in its slot. *)
Lemma fallback_absent_not_zero :
  answer_of raising_lib 0 (gstime raising_lib 0) (placeholder 0) = Absent
  ∧ slot (Fallback.positions_loop raising_lib 0 (gstime raising_lib 0) None
            [placeholder 0]) 0
    ≠ Some (Num 0, Num 0, Num 0).
Proof.
  split; [reflexivity|].
  rewrite fallback_placeholder_slot. intros H.
  injection H as H. lra.
Qed.

(** C2, amended: the worker's batch writes (0,0,0) for an entry with an
    absent line, without position or whose propagation raises; the
    fallback's batch writes (0,0,0) for an entry without position, and
    for an entry with an absent line or a raising propagation the cells
    [nextSatBuffer] holds at its slot, or (1.1,0,0), respectively
    (0,0,0), when there is no [nextSatBuffer]; both batches run to the
    end and give 3 cells per entry whatever the other entries do. *)
Theorem batch_failure_slots (L : SatLib) (now : Z) (next : option buffer)
    (tle : list entry) (i : nat) (t : entry) :
  tle !! i = Some t ->
  let gmst := gstime L now in
  let out := Worker.positions_loop L now gmst tle in
  let arr := Fallback.positions_loop L now gmst next tle in
  Worker.onmessage L now (Worker.State true tle) Worker.Update
    = (Worker.State true tle, [Worker.Positions out])
  ∧ length out = (3 * length tle)%nat
  ∧ length arr = (3 * length tle)%nat
  ∧ ((∀ geo, answer_of L now gmst t ≠ Located geo) ->
       slot out i = Some (Num 0, Num 0, Num 0))
  ∧ (answer_of L now gmst t = NoPosition ->
       slot arr i = Some (Num 0, Num 0, Num 0))
  ∧ (answer_of L now gmst t = Absent ->
       slot arr i = Some (Fallback.keep next i (Num 1.1, Num 0, Num 0)))
  ∧ (answer_of L now gmst t = Raises ->
       slot arr i = Some (Fallback.keep next i (Num 0, Num 0, Num 0))).
Proof.
  intros Ht gmst out arr. repeat split.
  - unfold out. rewrite worker_length. lia.
  - unfold arr. rewrite fallback_length. lia.
  - intros Ha. unfold out. rewrite (worker_slot _ _ _ _ _ _ Ht).
    unfold worker_cells. destruct (answer_of L now gmst t); try done.
    by destruct (Ha geo).
  - intros Ha. unfold arr. rewrite (fallback_slot _ _ _ _ _ _ _ Ht).
    unfold fallback_cells. by rewrite Ha.
  - intros Ha. unfold arr. rewrite (fallback_slot _ _ _ _ _ _ _ Ht).
    unfold fallback_cells. by rewrite Ha.
  - intros Ha. unfold arr. rewrite (fallback_slot _ _ _ _ _ _ _ Ht).
    unfold fallback_cells. by rewrite Ha.
Qed.

Lemma batch_failure_slots_witness :
  slot (Fallback.positions_loop raising_lib 0 0
          (Some [Num 5; Num 6; Num 7; Num 8; Num 9; Num 10])
          [placeholder 0; Entry None (Some [49%N]) (Some [50%N])]) 1
  = Some (Num 8, Num 9, Num 10).
Proof.
  apply (batch_failure_slots raising_lib 0
           (Some [Num 5; Num 6; Num 7; Num 8; Num 9; Num 10])
           [placeholder 0; Entry None (Some [49%N]) (Some [50%N])] 1
           (Entry None (Some [49%N]) (Some [50%N])) eq_refl).
  reflexivity.
Defined.

(** ** The double-buffer store *)

Section StoreFacts.

Lemma ta_set_same_length (target source : buffer) :
  length source = length target -> ta_set target source = Some source.
Proof.
  intros H. unfold ta_set.
  destruct (decide (length source <= length target)%nat); [|lia].
  rewrite drop_ge by lia. by rewrite app_nil_r.
Qed.

Lemma ta_set_length (target source b : buffer) :
  ta_set target source = Some b -> length b = length target.
Proof.
  unfold ta_set.
  destruct (decide (length source <= length target)%nat); [|done].
  intros [= <-]. rewrite length_app, length_drop. lia.
Qed.

Lemma update_latest_fields arr s :
  tleData (update_latest arr s) = tleData s
  ∧ prevSatBuffer (update_latest arr s) = prevSatBuffer s
  ∧ nextSatBuffer (update_latest arr s) = nextSatBuffer s
  ∧ tlePoints (update_latest arr s) = tlePoints s
  ∧ tlePositionsAttr (update_latest arr s) = tlePositionsAttr s
  ∧ u_interp (update_latest arr s) = u_interp s
  ∧ satInterpStart (update_latest arr s) = satInterpStart s.
Proof. done. Qed.

Lemma slide_matching arr p n s :
  length p = length n -> length arr = length n ->
  slide arr p n s = (set_buffers (Some n) (Some arr) s, Done).
Proof.
  intros Hp Ha. unfold slide.
  rewrite (ta_set_same_length p n) by done.
  by rewrite (ta_set_same_length n arr) by done.
Qed.

Lemma same_shape_refl s : same_shape s s.
Proof. done. Qed.

Lemma same_shape_trans s1 s2 s3 :
  same_shape s1 s2 -> same_shape s2 s3 -> same_shape s1 s3.
Proof.
  intros (A1 & B1 & C1) (A2 & B2 & C2).
  repeat split; congruence.
Qed.

Lemma same_shape_sized s s' : same_shape s s' -> sized s -> sized s'.
Proof.
  intros (Ht & Hp & Hn) (p & n & Ep & En & Lp & Ln).
  rewrite Ep in Hp. rewrite En in Hn. unfold sized. rewrite Ht.
  destruct (prevSatBuffer s') as [p'|]; [|done].
  destruct (nextSatBuffer s') as [n'|]; [|done].
  simpl in Hp, Hn. injection Hp as Hp. injection Hn as Hn.
  exists p', n'. repeat split; lia.
Qed.

Lemma slide_shape arr p n s :
  prevSatBuffer s = Some p -> nextSatBuffer s = Some n ->
  same_shape s (fst (slide arr p n s)).
Proof.
  intros Ep En. unfold slide.
  destruct (ta_set p n) as [p'|] eqn:Hp; [|done].
  apply ta_set_length in Hp.
  destruct (ta_set n arr) as [n'|] eqn:Hn.
  - apply ta_set_length in Hn.
    repeat split; simpl; rewrite ?Ep, ?En; simpl; congruence.
  - repeat split; simpl; rewrite ?Ep, ?En; simpl; congruence.
Qed.

Lemma on_positions_shape arr perfNow dateNow s :
  same_shape s (fst (on_positions arr perfNow dateNow s)).
Proof.
  unfold on_positions.
  destruct (tlePositionsAttr s); [|done]. cbv zeta.
  change (prevSatBuffer (update_latest arr s)) with (prevSatBuffer s).
  change (nextSatBuffer (update_latest arr s)) with (nextSatBuffer s).
  change (tlePoints (update_latest arr s)) with (tlePoints s).
  destruct (prevSatBuffer s) as [p|] eqn:Ep; [|done].
  destruct (nextSatBuffer s) as [n|] eqn:En; [|done].
  destruct (tlePoints s); [|done].
  pose proof (slide_shape arr p n (update_latest arr s) Ep En) as Hs.
  destruct (slide arr p n (update_latest arr s)) as [s1 [|]];
    destruct Hs as (A & B & C); simpl in A, B, C;
    repeat split; simpl; rewrite ?Ep, ?En; congruence.
Qed.

Lemma fallback_shape L now perfNow s :
  same_shape s (fst (updateTLEPositionsFallback L now perfNow s)).
Proof.
  unfold updateTLEPositionsFallback.
  destruct (decide (length (tleData s) = 0%nat)) as [_|_]; [done|].
  cbv zeta.
  set (arr := Fallback.positions_loop _ _ _ _ _).
  destruct (prevSatBuffer s) as [p|] eqn:Ep.
  - destruct (nextSatBuffer s) as [q|] eqn:En.
    + pose proof (slide_shape arr p q s Ep En) as Hs.
      destruct (slide arr p q s) as [s1 [|]]; simpl in *; [|done].
      destruct Hs as (A & B & C).
      destruct (tlePoints s1); [|done]. simpl.
      repeat split; simpl; rewrite ?Ep, ?En in *; congruence.
    + destruct (tlePositionsAttr s) as [[|a]|]; simpl; try done.
      destruct (ta_set a arr); simpl; [|done].
      repeat split; simpl; congruence.
  - destruct (tlePositionsAttr s) as [[|a]|]; simpl; try done.
    + destruct (nextSatBuffer s) as [q|] eqn:En; simpl; [|done].
      destruct (ta_set q arr) as [q'|] eqn:Hq; simpl; [|done].
      apply ta_set_length in Hq.
      repeat split; simpl; rewrite ?Ep, ?En; simpl; congruence.
    + destruct (ta_set a arr); simpl; [|done].
      repeat split; simpl; congruence.
Qed.

Lemma advance_interp_shape perfNow s : same_shape s (advance_interp perfNow s).
Proof.
  unfold advance_interp. destruct (tlePoints s); [|done].
  by destruct (Rlt_dec 0 (satInterpStart s)).
Qed.

End StoreFacts.

Lemma advance_at_start (s : store) :
  tlePoints s = true -> (0 < satInterpStart s)%R ->
  u_interp (advance_interp (satInterpStart s * 1000) s) = 0%R.
Proof.
  intros Hp Hs. unfold advance_interp. rewrite Hp.
  destruct (Rlt_dec 0 (satInterpStart s)) as [_|Hn]; [|done]. simpl.
  replace (satInterpStart s * 1000 / 1000 - satInterpStart s)%R with 0%R
    by field.
  unfold satInterpDuration, Rmin.
  destruct (Rle_dec 1 (0 / 0.8)) as [H|H]; lra.
Qed.

(** C3: with [prev] and [next] of the length of the incoming buffer,
    the positions handler and the fallback leave in [prev] what [next]
    held, in [next] the new buffer, the blend at 0 and the clock started
    at the time of the install; a frame drawn at that very time reads a
    blend of 0. *)
Theorem install_slides_buffers (L : SatLib) (now dateNow : Z) (perfNow : R)
    (arr p n : buffer) (s : store) :
  prevSatBuffer s = Some p -> nextSatBuffer s = Some n ->
  length p = length n ->
  tlePoints s = true -> is_Some (tlePositionsAttr s) ->
  (length arr = length n ->
     let s' := fst (on_positions arr perfNow dateNow s) in
     prevSatBuffer s' = Some n ∧ nextSatBuffer s' = Some arr
     ∧ u_interp s' = 0%R ∧ satInterpStart s' = (perfNow / 1000)%R
     ∧ ((0 < perfNow)%R -> u_interp (advance_interp perfNow s') = 0%R))
  ∧ (tleData s ≠ [] -> length n = (length (tleData s) * 3)%nat ->
     let arr := Fallback.positions_loop L now (gstime L now) (Some n)
                  (tleData s) in
     let s' := fst (updateTLEPositionsFallback L now perfNow s) in
     prevSatBuffer s' = Some n ∧ nextSatBuffer s' = Some arr
     ∧ u_interp s' = 0%R ∧ satInterpStart s' = (perfNow / 1000)%R
     ∧ ((0 < perfNow)%R -> u_interp (advance_interp perfNow s') = 0%R)).
Proof.
  intros Ep En Hpn Hpts [a Ha].
  assert (Hread : ∀ s', tlePoints s' = true ->
            satInterpStart s' = (perfNow / 1000)%R -> (0 < perfNow)%R ->
            u_interp (advance_interp perfNow s') = 0%R).
  { intros s' Hp' Hs' Hpos.
    replace perfNow with (satInterpStart s' * 1000)%R at 1
      by (rewrite Hs'; field).
    apply advance_at_start; [done|]. rewrite Hs'. lra. }
  split.
  - intros Harr. unfold on_positions. rewrite Ha. cbv zeta.
    change (prevSatBuffer (update_latest arr s)) with (prevSatBuffer s).
    change (nextSatBuffer (update_latest arr s)) with (nextSatBuffer s).
    change (tlePoints (update_latest arr s)) with (tlePoints s).
    rewrite Ep, En, Hpts, slide_matching by done. simpl.
    repeat split. intros Hpos. by apply Hread.
  - intros Hne Hlen arr0. unfold updateTLEPositionsFallback.
    destruct (decide (length (tleData s) = 0%nat)) as [E|_].
    { by destruct (tleData s). }
    cbv zeta. rewrite En. fold arr0. rewrite Ep.
    rewrite slide_matching;
      [|done|unfold arr0; by rewrite fallback_length].
    simpl. rewrite Hpts. simpl.
    repeat split. intros Hpos. by apply Hread.
Qed.

Lemma install_slides_buffers_witness :
  let s := Store [sample_entry] (Some [Num 1; Num 2; Num 3])
                 (Some [Num 4; Num 5; Num 6]) true (Some AttrNext)
                 1 0 None 0 in
  let s' := fst (on_positions [Num 7; Num 8; Num 9] 2000 5 s) in
  prevSatBuffer s' = Some [Num 4; Num 5; Num 6]
  ∧ nextSatBuffer s' = Some [Num 7; Num 8; Num 9]
  ∧ u_interp s' = 0%R ∧ satInterpStart s' = (2000 / 1000)%R
  ∧ ((0 < 2000)%R -> u_interp (advance_interp 2000 s') = 0%R).
Proof.
  intros s.
  apply (install_slides_buffers raising_lib 0 5 2000 [Num 7; Num 8; Num 9]
           [Num 1; Num 2; Num 3] [Num 4; Num 5; Num 6] s);
    try reflexivity.
  by exists AttrNext.
Defined.

(** ** The blend on doubles *)

Section RoundedBlend.
Variable rnd : R -> R.
Hypothesis Hrnd : rounding rnd.
Variable s : store.
Hypothesis Hstart : (0 < satInterpStart s)%R.

Lemma rounded_duration_pos : (0 < Rounded.satInterpDuration rnd)%R.
Proof using Hrnd.
  unfold Rounded.satInterpDuration.
  assert (H : (rnd (1 / 2) <= rnd 0.8)%R) by (apply (rnd_mono rnd Hrnd); lra).
  rewrite (rnd_half rnd Hrnd) in H. lra.
Qed.

Lemma rounded_advance_read (f : R) (s' : store) :
  tlePoints s' = true -> satInterpStart s' = satInterpStart s ->
  u_interp (Rounded.advance_interp rnd f s') = Rounded.blend rnd s f
  ∧ tlePoints (Rounded.advance_interp rnd f s') = true
  ∧ satInterpStart (Rounded.advance_interp rnd f s') = satInterpStart s.
Proof using Hstart.
  intros Hp Hs.
  unfold Rounded.advance_interp, Rounded.blend, Rounded.elapsed.
  rewrite Hp, Hs. by destruct (Rlt_dec 0 (satInterpStart s)).
Qed.

Lemma rounded_reads_fmap (frames : list R) (s' : store) :
  tlePoints s' = true -> satInterpStart s' = satInterpStart s ->
  Rounded.blend_reads rnd frames s' = Rounded.blend rnd s <$> frames.
Proof using Hstart.
  revert s'. induction frames as [|f frames IH]; intros s' Hp Hs; [done|].
  destruct (rounded_advance_read f s' Hp Hs) as (Hu & Hp' & Hs').
  cbn [Rounded.blend_reads fmap list_fmap]. rewrite Hu. f_equal. by apply IH.
Qed.

Lemma rounded_elapsed_mono (f g : R) :
  (f <= g)%R -> (Rounded.elapsed rnd s f <= Rounded.elapsed rnd s g)%R.
Proof using Hrnd.
  intros Hfg. unfold Rounded.elapsed. apply (rnd_mono rnd Hrnd).
  assert (H : (rnd (f / 1000) <= rnd (g / 1000))%R)
    by (apply (rnd_mono rnd Hrnd); lra).
  lra.
Qed.

Lemma rounded_quotient_mono (d e : R) :
  (d <= e)%R ->
  (rnd (d / Rounded.satInterpDuration rnd)
   <= rnd (e / Rounded.satInterpDuration rnd))%R.
Proof using Hrnd.
  intros Hde. apply (rnd_mono rnd Hrnd).
  apply Rmult_le_compat_r; [|done].
  apply Rlt_le, Rinv_0_lt_compat, rounded_duration_pos.
Qed.

Lemma rounded_blend_range (f : R) :
  (satInterpStart s <= rnd (f / 1000))%R ->
  (0 <= Rounded.blend rnd s f <= 1)%R.
Proof using Hrnd.
  intros Hf. unfold Rounded.blend. split; [|apply Rmin_l].
  apply Rmin_glb; [lra|].
  assert (Hd : (0 <= Rounded.elapsed rnd s f)%R).
  { unfold Rounded.elapsed. rewrite <- (rnd_zero rnd Hrnd) at 1.
    apply (rnd_mono rnd Hrnd). lra. }
  pose proof (rounded_quotient_mono 0 _ Hd) as H.
  replace (0 / Rounded.satInterpDuration rnd)%R with 0%R in H
    by (unfold Rdiv; ring).
  by rewrite (rnd_zero rnd Hrnd) in H.
Qed.

Lemma rounded_blend_mono (f g : R) :
  (f <= g)%R -> (Rounded.blend rnd s f <= Rounded.blend rnd s g)%R.
Proof using Hrnd.
  intros Hfg. unfold Rounded.blend. apply Rle_min_compat_l.
  by apply rounded_quotient_mono, rounded_elapsed_mono.
Qed.

Lemma rounded_blend_done (f : R) :
  (Rounded.satInterpDuration rnd <= Rounded.elapsed rnd s f)%R ->
  Rounded.blend rnd s f = 1%R.
Proof using Hrnd.
  intros Hf. unfold Rounded.blend. apply Rmin_left.
  pose proof rounded_duration_pos as Hpos.
  pose proof (rounded_quotient_mono _ _ Hf) as H.
  replace (Rounded.satInterpDuration rnd / Rounded.satInterpDuration rnd)%R
    with 1%R in H by (field; lra).
  by rewrite (rnd_one rnd Hrnd) in H.
Qed.

Lemma rounded_blend_start (f : R) :
  rnd (f / 1000) = satInterpStart s -> Rounded.blend rnd s f = 0%R.
Proof using Hrnd.
  intros Hf. unfold Rounded.blend, Rounded.elapsed. rewrite Hf.
  replace (satInterpStart s - satInterpStart s)%R with 0%R by ring.
  rewrite (rnd_zero rnd Hrnd).
  replace (0 / Rounded.satInterpDuration rnd)%R with 0%R
    by (unfold Rdiv; ring).
  rewrite (rnd_zero rnd Hrnd). apply Rmin_right. lra.
Qed.

End RoundedBlend.

Section BlendOnDoubles.
Import PrimFloat.
#[local] Open Scope float_scope.

(** C5, as stated, fails on doubles: with the clock restarted at a
    [performance.now()] of 2000, the frame at 2800, which is not before
    [satInterpStart + satInterpDuration], reads 1 - 2^-52, not 1. *)
Lemma blend_below_one_at_duration :
  let satInterpStart := Binary64.restart_clock 2000 in
  (0 <? satInterpStart) = true
  ∧ (satInterpStart + Binary64.satInterpDuration <=? 2800 / 1000) = true
  ∧ Binary64.advance_interp satInterpStart 2800
    = Some 0x1.ffffffffffffep-1
  ∧ (0x1.ffffffffffffep-1 <? 1) = true.
Proof. by vm_compute. Qed.

End BlendOnDoubles.

(** C5, amended: with every result rounded to a double, the blends read
    by successive frames after an install, no other install in between,
    never decrease as the clock advances and stay between 0 and 1; the
    frame at the clock reading of the install reads 0, and a frame
    reads exactly 1 once the elapsed time it computes is at least
    [satInterpDuration] (the double nearest 0.8). *)
Theorem blend_monotone_clamped (rnd : R -> R) (s0 : store) (install : R)
    (frames : list R) :
  rounding rnd -> tlePoints s0 = true ->
  (0 < rnd (install / 1000))%R ->
  (∀ i f, frames !! i = Some f -> (install <= f)%R) ->
  (∀ i j f g, (i <= j)%nat -> frames !! i = Some f -> frames !! j = Some g ->
     (f <= g)%R) ->
  let s := Rounded.restart_clock rnd install s0 in
  let reads := Rounded.blend_reads rnd frames s in
  length reads = length frames
  ∧ (∀ i t, reads !! i = Some t -> (0 <= t <= 1)%R)
  ∧ (∀ i j t u, (i <= j)%nat -> reads !! i = Some t -> reads !! j = Some u ->
       (t <= u)%R)
  ∧ (∀ i f t, frames !! i = Some f -> reads !! i = Some t ->
       (Rounded.satInterpDuration rnd <= Rounded.elapsed rnd s f)%R ->
       t = 1%R)
  ∧ (∀ i t, frames !! i = Some install -> reads !! i = Some t -> t = 0%R).
Proof.
  intros Hrnd Hp Hs Hafter Hclock s reads.
  assert (Hstart : satInterpStart s = rnd (install / 1000)%R) by reflexivity.
  assert (Hpos : (0 < satInterpStart s)%R) by (by rewrite Hstart).
  assert (Hreads : reads = Rounded.blend rnd s <$> frames).
  { unfold reads. by apply rounded_reads_fmap. }
  rewrite Hreads. split; [by rewrite length_fmap|].
  split; [|split; [|split]].
  - intros i t Ht. rewrite list_lookup_fmap in Ht.
    destruct (frames !! i) as [f|] eqn:Hf; [|done].
    injection Ht as <-. apply (rounded_blend_range rnd Hrnd).
    rewrite Hstart. apply (rnd_mono rnd Hrnd).
    pose proof (Hafter i f Hf). lra.
  - intros i j t u Hij Ht Hu. rewrite list_lookup_fmap in Ht, Hu.
    destruct (frames !! i) as [f|] eqn:Hf; [|done].
    destruct (frames !! j) as [g|] eqn:Hg; [|done].
    injection Ht as <-. injection Hu as <-.
    apply (rounded_blend_mono rnd Hrnd). by apply (Hclock i j).
  - intros i f t Hf Ht Hlate. rewrite list_lookup_fmap, Hf in Ht.
    injection Ht as <-. by apply (rounded_blend_done rnd Hrnd).
  - intros i t Hf Ht. rewrite list_lookup_fmap, Hf in Ht.
    injection Ht as <-. by apply (rounded_blend_start rnd Hrnd).
Qed.

Lemma blend_monotone_clamped_witness :
  let s := Rounded.restart_clock (λ x, x) 2000
             (Store [] None None true None 0 0 None 0) in
  let reads := Rounded.blend_reads (λ x, x) [2000; 2400; 3000]%R s in
  reads !! 0%nat = Some 0%R ∧ reads !! 2%nat = Some 1%R.
Proof.
  intros s reads.
  assert (Hrnd : rounding (λ x : R, x)) by (by split; [intros x y H|..]).
  assert (Hpos : (0 < 2000 / 1000)%R) by lra.
  assert (Hafter : ∀ (i : nat) (f : R),
            [2000; 2400; 3000]%R !! i = Some f -> (2000 <= f)%R).
  { intros [|[|[|i]]] f Hf; simpl in Hf; try discriminate;
      injection Hf as <-; lra. }
  assert (Hclock : ∀ (i j : nat) (f g : R), (i <= j)%nat ->
            [2000; 2400; 3000]%R !! i = Some f ->
            [2000; 2400; 3000]%R !! j = Some g -> (f <= g)%R).
  { intros i j f g Hij Hf Hg.
    destruct i as [|[|[|i]]]; simpl in Hf; try discriminate;
      injection Hf as <-;
      destruct j as [|[|[|j]]]; simpl in Hg; try discriminate;
      injection Hg as <-; solve [lra | lia]. }
  destruct (blend_monotone_clamped (λ x, x)
              (Store [] None None true None 0 0 None 0) 2000
              [2000; 2400; 3000]%R Hrnd eq_refl Hpos Hafter Hclock)
    as (Hlen & _ & _ & Hdone & Hzero).
  fold s in Hlen, Hdone, Hzero. fold reads in Hlen, Hdone, Hzero.
  destruct reads as [|t0 [|t1 [|t2 [|t3 reads]]]]; try discriminate Hlen.
  split.
  - cbn [lookup list_lookup]. f_equal. by apply (Hzero 0%nat t0).
  - cbn [lookup list_lookup]. f_equal. apply (Hdone 2%nat 3000%R t2); [done..|].
    unfold Rounded.satInterpDuration, Rounded.elapsed, s.
    cbn [satInterpStart Rounded.restart_clock set_interp]. lra.
Defined.

(** ** The main thread as a whole *)

Section MainFacts.
Variable L : SatLib.

Lemma foldl_length {B} (f : buffer -> B -> buffer) (l : list B) (out : buffer) :
  (∀ out i, length (f out i) = length out) ->
  length (foldl f out l) = length out.
Proof.
  intros Hf. revert out. induction l as [|x l IH]; intros out; [done|].
  simpl. by rewrite IH, Hf.
Qed.

Lemma direct_iteration_length now gmst tle array i :
  length (direct_iteration L now gmst tle array i) = length array.
Proof.
  unfold direct_iteration.
  destruct (tle !! i) as [t|]; [|done].
  destruct (twoline2satrec L _ _) as [rec|]; simpl; [|done].
  destruct (propagate L rec now) as [[p|]|]; simpl; [|done|done].
  destruct (eciToGeodetic L p gmst) as [geo|]; simpl; [|done].
  by rewrite !length_insert.
Qed.

Lemma ring_length squash count : length (ring squash count) = (count * 3)%nat.
Proof.
  unfold ring. rewrite foldl_length.
  - apply length_replicate.
  - intros out i. apply write3_length.
Qed.

Lemma updateTLEPositions_shape now m :
  same_shape (st m) (st (updateTLEPositions L now m)).
Proof.
  unfold updateTLEPositions.
  destruct (tleData (st m)) as [|t tle] eqn:Et; [done|].
  destruct (tlePositionsAttr (st m)) as [a|]; [|done].
  destruct (sgp4Worker (lk m)); [done|].
  destruct a as [|array].
  - repeat split; [done..|]. cbn [st with_store nextSatBuffer
      set_lastTleUpdate set_buffers].
    destruct (nextSatBuffer (st m)) as [q|]; [|done].
    cbn [fmap option_fmap option_map]. f_equal.
    apply foldl_length. intros out i. apply direct_iteration_length.
  - by repeat split.
Qed.

Lemma animateSynthetic_fields m :
  st (animateSyntheticSatellites m) = st m
  ∧ lk (animateSyntheticSatellites m) = lk m.
Proof.
  unfold animateSyntheticSatellites.
  destruct (syntheticPositions m); [|done].
  by destruct (foldl _ _ _) as [[? ?] ?].
Qed.

Lemma step_shape m e : same_shape (st m) (st (step L m e)).
Proof.
  destruct e as [[[msg| |] now] perfNow]; simpl.
  - destruct msg as [satlib count|arr]; simpl; [done|].
    apply on_positions_shape.
  - unfold timer_tick. destruct (sgp4Worker (lk m)); [done|].
    apply fallback_shape.
  - unfold animate. simpl.
    eapply same_shape_trans; [|apply advance_interp_shape].
    rewrite (proj1 (animateSynthetic_fields _)).
    destruct (decide _); [|done].
    destruct (sgp4Worker (lk m));
      [apply updateTLEPositions_shape|apply fallback_shape].
Qed.

Lemma run_shape m es : same_shape (st m) (st (run L m es)).
Proof.
  revert m. induction es as [|e es IH]; intros m; [done|].
  simpl. eapply same_shape_trans; [apply step_shape|apply IH].
Qed.

Lemma fetchTLES_sized text spawn now m :
  sized (st (fetchTLES L (Some text) spawn now m))
  ∧ tleData (st (fetchTLES L (Some text) spawn now m)) = Parser.parseTLE text
  ∧ (is_Some (sgp4Worker (lk (fetchTLES L (Some text) spawn now m))) ->
     prevSatBuffer (st (fetchTLES L (Some text) spawn now m))
     = Some (ring 0.1 (length (Parser.parseTLE text)))
     ∧ nextSatBuffer (st (fetchTLES L (Some text) spawn now m))
       = Some (ring 0.1 (length (Parser.parseTLE text)))).
Proof.
  unfold fetchTLES. cbv zeta.
  set (tle := Parser.parseTLE text).
  set (m0 := with_store _ m).
  assert (Hs0 : sized (st m0)).
  { exists (ring 0.1 (length tle)), (ring 0.1 (length tle)).
    simpl. rewrite ring_length. repeat split; lia. }
  set (m1 := match sgp4Worker (lk m0) with
             | Some _ => m0 | None => with_link (setupSgp4Worker spawn) m0
             end).
  assert (Hst : st m1 = st m0).
  { unfold m1. by destruct (sgp4Worker (lk m0)). }
  destruct (sgp4Worker (lk m1)) as [w|] eqn:Hw.
  - simpl. rewrite Hst. repeat split; try done.
  - pose proof (updateTLEPositions_shape now m1) as Hsh.
    rewrite Hst in Hsh. split; [|split].
    + by apply (same_shape_sized _ _ Hsh).
    + by destruct Hsh as (-> & _).
    + intros [w Hw']. exfalso. revert Hw'.
      unfold updateTLEPositions.
      destruct (tleData (st m1)); [by rewrite Hw|].
      destruct (tlePositionsAttr (st m1)); [|by rewrite Hw].
      rewrite Hw. simpl. by rewrite Hw.
Qed.

Lemma on_ready_none satlib l : sgp4Worker l = None -> on_ready satlib l = l.
Proof.
  intros Hl. unfold on_ready. destruct satlib; simpl; [done|].
  rewrite Hl. by destruct l; simpl in *; subst.
Qed.

Lemma step_link_none m e :
  sgp4Worker (lk m) = None -> lk (step L m e) = lk m.
Proof.
  intros Hm. destruct e as [[[msg| |] now] perfNow]; simpl.
  - destruct msg as [satlib count|arr]; simpl; [|done].
    by apply on_ready_none.
  - unfold timer_tick. by rewrite Hm.
  - unfold animate. simpl.
    rewrite (proj2 (animateSynthetic_fields _)).
    destruct (decide _); [|done]. by rewrite Hm.
Qed.

Lemma run_link_none m es :
  sgp4Worker (lk m) = None -> lk (run L m es) = lk m.
Proof.
  revert m. induction es as [|e es IH]; intros m Hm; [done|].
  simpl. rewrite IH; rewrite step_link_none; done.
Qed.

End MainFacts.

(** What the positions handler does with a buffer of another length. *)
Lemma on_positions_mismatch (arr p n : buffer) (perfNow : R) (dateNow : Z)
    (s : store) :
  prevSatBuffer s = Some p -> nextSatBuffer s = Some n ->
  length p = length n -> tlePoints s = true ->
  is_Some (tlePositionsAttr s) ->
  let s' := fst (on_positions arr perfNow dateNow s) in
  ((length arr < length n)%nat ->
     prevSatBuffer s' = Some n
     ∧ nextSatBuffer s' = Some (arr ++ drop (length arr) n))
  ∧ ((length n < length arr)%nat ->
     snd (on_positions arr perfNow dateNow s) = Raised
     ∧ prevSatBuffer s' = Some n ∧ nextSatBuffer s' = Some n).
Proof.
  intros Ep En Hpn Hpts [a Ha]. cbv zeta. unfold on_positions.
  rewrite Ha. cbv zeta.
  change (prevSatBuffer (update_latest arr s)) with (prevSatBuffer s).
  change (nextSatBuffer (update_latest arr s)) with (nextSatBuffer s).
  change (tlePoints (update_latest arr s)) with (tlePoints s).
  rewrite Ep, En, Hpts. unfold slide.
  rewrite (ta_set_same_length p n) by done.
  unfold ta_set.
  destruct (decide (length arr <= length n)%nat) as [Hle|Hgt]; simpl.
  - split; [done|lia].
  - split; [lia|done].
Qed.

(** C4, as stated, fails: a buffer of 3 cells installed over buffers of
    6 cells overwrites the first 3 cells of [next]; nothing is
    reallocated and the two buffers are not seeded alike. *)
Lemma mismatched_install_partial_write :
  let s := Store [sample_entry; sample_entry]
                 (Some [Num 1; Num 1; Num 1; Num 1; Num 1; Num 1])
                 (Some [Num 2; Num 2; Num 2; Num 2; Num 2; Num 2])
                 true (Some AttrNext) 0 0 None 0 in
  let arr := [Num 9; Num 9; Num 9] in
  let s' := fst (on_positions arr 1000 0 s) in
  sized s
  ∧ nextSatBuffer s' = Some [Num 9; Num 9; Num 9; Num 2; Num 2; Num 2]
  ∧ prevSatBuffer s' = Some [Num 2; Num 2; Num 2; Num 2; Num 2; Num 2]
  ∧ nextSatBuffer s' ≠ Some arr
  ∧ prevSatBuffer s' ≠ nextSatBuffer s'.
Proof.
  intros s arr s'.
  assert (Hn : nextSatBuffer s'
               = Some [Num 9; Num 9; Num 9; Num 2; Num 2; Num 2])
    by reflexivity.
  assert (Hp : prevSatBuffer s'
               = Some [Num 2; Num 2; Num 2; Num 2; Num 2; Num 2])
    by reflexivity.
  split; [by eexists _, _|]. split; [exact Hn|]. split; [exact Hp|]. split.
  - rewrite Hn. unfold arr. intros H. discriminate H.
  - rewrite Hn, Hp. intros H. injection H as H. lra.
Qed.

(** C4, amended: once [fetchTLES] has allocated them, [prev] and [next]
    hold three cells per entry of the collection (both the same ring of
    values while a worker is held), and they keep that length through
    every later worker message, timer tick and frame; the positions
    handler never reallocates: a shorter buffer overwrites the first
    cells of [next] after [next] was copied into [prev], a longer one
    makes the copy into [next] raise. *)
Theorem buffers_sized_not_reallocated (L : SatLib) (text : JsString.t)
    (spawn : option nat) (now : Z) (m : main) (es : list (event * Z * R)) :
  let m1 := fetchTLES L (Some text) spawn now m in
  let count := length (Parser.parseTLE text) in
  sized (st m1)
  ∧ (is_Some (sgp4Worker (lk m1)) ->
     prevSatBuffer (st m1) = Some (ring 0.1 count)
     ∧ nextSatBuffer (st m1) = Some (ring 0.1 count))
  ∧ tleData (st (run L m1 es)) = Parser.parseTLE text
  ∧ sized (st (run L m1 es))
  ∧ (∀ (arr p n : buffer) (perfNow : R) (dateNow : Z) (s : store),
       prevSatBuffer s = Some p -> nextSatBuffer s = Some n ->
       length p = length n -> tlePoints s = true ->
       is_Some (tlePositionsAttr s) ->
       let s' := fst (on_positions arr perfNow dateNow s) in
       ((length arr < length n)%nat ->
          prevSatBuffer s' = Some n
          ∧ nextSatBuffer s' = Some (arr ++ drop (length arr) n))
       ∧ ((length n < length arr)%nat ->
          snd (on_positions arr perfNow dateNow s) = Raised
          ∧ prevSatBuffer s' = Some n ∧ nextSatBuffer s' = Some n)).
Proof.
  intros m1 count.
  destruct (fetchTLES_sized L text spawn now m) as (Hs & Ht & Hw).
  pose proof (run_shape L m1 es) as Hsh.
  split; [done|]. split; [done|]. split; [|split].
  - destruct Hsh as (-> & _). done.
  - by apply (same_shape_sized _ _ Hsh).
  - intros arr p n perfNow dateNow s Ep En Hpn Hpts Ha.
    by apply (on_positions_mismatch arr p n).
Qed.

Lemma buffers_sized_not_reallocated_witness :
  let s := Store [sample_entry; sample_entry]
                 (Some [Num 1; Num 1; Num 1; Num 1; Num 1; Num 1])
                 (Some [Num 2; Num 2; Num 2; Num 2; Num 2; Num 2])
                 true (Some AttrNext) 0 0 None 0 in
  let arr := [Num 9; Num 9; Num 9; Num 9; Num 9; Num 9; Num 9] in
  snd (on_positions arr 1000 0 s) = Raised
  ∧ prevSatBuffer (fst (on_positions arr 1000 0 s))
    = Some [Num 2; Num 2; Num 2; Num 2; Num 2; Num 2]
  ∧ nextSatBuffer (fst (on_positions arr 1000 0 s))
    = Some [Num 2; Num 2; Num 2; Num 2; Num 2; Num 2].
Proof.
  intros s arr.
  apply (proj2 (proj2 (proj2 (proj2
           (buffers_sized_not_reallocated raising_lib [] None 0 initial [])
         ))) arr [Num 1; Num 1; Num 1; Num 1; Num 1; Num 1]
             [Num 2; Num 2; Num 2; Num 2; Num 2; Num 2] 1000%R 0%Z s);
    try reflexivity.
  - by exists AttrNext.
  - simpl. lia.
Defined.

(** C6: when the worker reports that its library did not load, the
    handler terminates the instance held and drops it; whatever worker
    messages, timer ticks and frames follow, no worker is held, every
    timer tick and every periodic refresh of a frame runs the fallback,
    and nothing more is posted to the instance. *)
Theorem discarded_worker_never_used (L : SatLib) (w count : nat)
    (perfNow : R) (dateNow : Z) (m : main) (es : list (event * Z * R)) :
  sgp4Worker (lk m) = Some w ->
  let m1 := onmessage (Worker.Ready false count) perfNow dateNow m in
  let m2 := run L m1 es in
  sgp4Worker (lk m1) = None
  ∧ terminated (lk m1) = terminated (lk m) ++ [w]
  ∧ sgp4Worker (lk m2) = None
  ∧ posted (lk m2) = posted (lk m)
  ∧ terminated (lk m2) = terminated (lk m) ++ [w]
  ∧ (∀ now perf,
       timer_tick L now perf m2
       = with_store (λ s, fst (updateTLEPositionsFallback L now perf s)) m2)
  ∧ (∀ now perf, (now - lastTleUpdate (st m2) > tleUpdateInterval)%Z ->
       animate L now perf m2
       = with_store (advance_interp perf)
           (animateSyntheticSatellites
              (with_store
                 (λ s, fst (updateTLEPositionsFallback L now perf s)) m2))).
Proof.
  intros Hw m1 m2.
  assert (H1 : lk m1 = Link None (posted (lk m)) (terminated (lk m) ++ [w])).
  { unfold m1. simpl. unfold on_ready. simpl. by rewrite Hw. }
  assert (H2 : lk m2 = lk m1).
  { apply run_link_none. by rewrite H1. }
  rewrite H2, H1. simpl. repeat split.
  - intros now perf. unfold timer_tick. by rewrite H2, H1.
  - intros now perf Hold. unfold animate.
    destruct (decide _) as [_|Hn]; [|done]. by rewrite H2, H1.
Qed.

Lemma discarded_worker_never_used_witness :
  let m := Main (Store [sample_entry] (Some [Num 1; Num 2; Num 3])
                       (Some [Num 1; Num 2; Num 3]) true (Some AttrNext)
                       0 0 None 0)
                (Link (Some 7%nat) [(7%nat, Worker.Update)] []) [] None in
  let m2 := run raising_lib (onmessage (Worker.Ready false 1) 10 20 m)
              [(TimerTick, 30%Z, 40%R);
               (WorkerMessage (Worker.Ready true 1), 31%Z, 41%R);
               (Frame, 9000%Z, 50%R)] in
  sgp4Worker (lk m2) = None ∧ posted (lk m2) = [(7%nat, Worker.Update)].
Proof.
  intros m m2.
  pose proof (discarded_worker_never_used raising_lib 7 1 10 20 m
                [(TimerTick, 30%Z, 40%R);
                 (WorkerMessage (Worker.Ready true 1), 31%Z, 41%R);
                 (Frame, 9000%Z, 50%R)] eq_refl) as H.
  cbv zeta in H. destruct H as (_ & _ & H3 & H4 & _).
  split; [exact H3|exact H4].
Defined.

(** ** The synthetic population *)

Section SyntheticFacts.

Lemma synth_loop (n : nat) (params : list synth) (array : buffer) :
  (n <= length params)%nat -> (n * 3 <= length array)%nat ->
  ∃ params' array',
    foldl synth_iteration (params, array, Done) (seq 0 n)
    = (params', array', Done)
    ∧ length params' = length params ∧ length array' = length array
    ∧ (∀ i p, (i < n)%nat -> params !! i = Some p ->
         params' !! i = Some (advance_body p)
         ∧ slot array' i = Some (cells (orbit_point (advance_body p))))
    ∧ (∀ i, (n <= i)%nat -> params' !! i = params !! i).
Proof.
  induction n as [|n IH]; intros Hp Ha.
  { exists params, array. repeat split; [lia|lia]. }
  destruct IH as (ps & arr & Hfold & Hlp & Hla & Hdone & Hrest); [lia..|].
  rewrite seq_S, foldl_snoc, Hfold. change (0 + n)%nat with n.
  unfold synth_iteration. cbv beta iota zeta.
  destruct (lookup_lt_is_Some_2 params n) as [p Hpn]; [lia|].
  rewrite (Hrest n) by lia. rewrite Hpn.
  change (Synth (altitude p) (speed p) (phase p + speed p) (inclination p))
    with (advance_body p).
  eexists _, _. split; [reflexivity|].
  split; [by rewrite length_insert|].
  split; [by rewrite write3_length|]. split.
  - intros i q Hi Hq. destruct (decide (i = n)) as [->|Hne].
    + rewrite Hpn in Hq. injection Hq as <-. split.
      * apply list_lookup_insert_eq. lia.
      * apply slot_write3. lia.
    + destruct (Hdone i q) as [H1 H2]; [lia|done|]. split.
      * by rewrite list_lookup_insert_ne by done.
      * by rewrite slot_write3_ne by done.
  - intros i Hi. rewrite list_lookup_insert_ne by lia. apply Hrest. lia.
Qed.

Lemma in_ranges_advance (p : synth) : in_ranges p -> in_ranges (advance_body p).
Proof. done. Qed.

Lemma animateSynthetic_populated (m : main) :
  populated m ->
  populated (animateSyntheticSatellites m)
  ∧ ∀ i p, syntheticParams m !! i = Some p ->
      syntheticParams (animateSyntheticSatellites m) !! i
      = Some (advance_body p)
      ∧ ∃ array, syntheticPositions (animateSyntheticSatellites m)
                 = Some array
                 ∧ slot array i = Some (cells (orbit_point (advance_body p))).
Proof.
  intros (Hlen & Hrange & array & Harr & Hla).
  unfold animateSyntheticSatellites. rewrite Harr.
  destruct (synth_loop SYNTHETIC_SAT_COUNT (syntheticParams m) array)
    as (ps & arr & -> & Hlp & Hlarr & Hdone & _); [lia..|].
  unfold populated. cbn [syntheticParams syntheticPositions]. split.
  - split; [lia|]. split; [|exists arr; split; [done|lia]].
    apply Forall_lookup. intros i q Hq.
    assert (Hi : (i < length (syntheticParams m))%nat).
    { rewrite <- Hlp. by eapply lookup_lt_Some. }
    destruct (lookup_lt_is_Some_2 _ _ Hi) as [p Hp].
    destruct (Hdone i p) as [Hq' _]; [lia|done|].
    rewrite Hq' in Hq. injection Hq as <-.
    apply in_ranges_advance.
    by apply (proj1 (Forall_lookup _ _) Hrange i p).
  - intros i p Hp.
    assert (Hi : (i < SYNTHETIC_SAT_COUNT)%nat).
    { rewrite <- Hlen. by eapply lookup_lt_Some. }
    destruct (Hdone i p Hi Hp) as [H1 H2]. split; [done|].
    by exists arr.
Qed.

Lemma createSatellites_populated (rnd : randoms) (m : main) :
  (∀ k, (0 <= rnd k < 1)%R) ->
  populated (createSatellites rnd m)
  ∧ Forall (λ p, (0 <= phase p < 2 * PI)%R)
           (syntheticParams (createSatellites rnd m)).
Proof.
  intros Hrnd. pose proof PI_RGT_0 as Hpi.
  unfold populated, createSatellites.
  cbn [syntheticParams syntheticPositions].
  split; [split; [|split]|].
  - by rewrite length_fmap, length_seq.
  - apply Forall_fmap, Forall_forall. intros i _.
    unfold in_ranges, synth_param, compose.
    cbn [altitude speed phase inclination].
    pose proof (Hrnd (4 * i)%nat). pose proof (Hrnd (4 * i + 1)%nat).
    pose proof (Hrnd (4 * i + 3)%nat). repeat split; nra.
  - eexists. split; [reflexivity|]. unfold zeros. by rewrite length_replicate.
  - apply Forall_fmap, Forall_forall. intros i _.
    unfold synth_param, compose. cbn [altitude speed phase inclination].
    pose proof (Hrnd (4 * i + 2)%nat). split; nra.
Qed.

End SyntheticFacts.

Section SyntheticRun.
Variable L : SatLib.

Lemma updateTLEPositions_synthetic now m :
  syntheticParams (updateTLEPositions L now m) = syntheticParams m
  ∧ syntheticPositions (updateTLEPositions L now m) = syntheticPositions m.
Proof.
  unfold updateTLEPositions.
  destruct (tleData (st m)); [done|].
  destruct (tlePositionsAttr (st m)); [|done].
  by destruct (sgp4Worker (lk m)).
Qed.

Lemma populated_ext m m' :
  syntheticParams m' = syntheticParams m ->
  syntheticPositions m' = syntheticPositions m ->
  populated m -> populated m'.
Proof. unfold populated. by intros -> ->. Qed.

Lemma step_populated m e : populated m -> populated (step L m e).
Proof.
  intros Hm. destruct e as [[[msg| |] now] perfNow]; simpl.
  - by destruct msg.
  - unfold timer_tick. by destruct (sgp4Worker (lk m)).
  - unfold animate. cbv zeta.
    apply (populated_ext (animateSyntheticSatellites
             (if decide (now - lastTleUpdate (st m) > tleUpdateInterval)%Z
              then match sgp4Worker (lk m) with
                   | Some _ => updateTLEPositions L now m
                   | None => with_store
                       (λ s, fst (updateTLEPositionsFallback L now perfNow s)) m
                   end
              else m))); [done..|].
    apply animateSynthetic_populated.
    destruct (decide _); [|done].
    destruct (sgp4Worker (lk m)); [|done].
    destruct (updateTLEPositions_synthetic now m) as [H1 H2].
    by apply (populated_ext m).
Qed.

Lemma run_populated m es : populated m -> populated (run L m es).
Proof.
  revert m. induction es as [|e es IH]; intros m Hm; [done|].
  simpl. by apply IH, step_populated.
Qed.

Lemma animate_synthetic now perfNow m i p :
  populated m -> syntheticParams m !! i = Some p ->
  syntheticParams (animate L now perfNow m) !! i = Some (advance_body p)
  ∧ ∃ array, syntheticPositions (animate L now perfNow m) = Some array
             ∧ slot array i = Some (cells (orbit_point (advance_body p))).
Proof.
  intros Hm Hp. unfold animate. cbv zeta.
  set (m1 := if decide _ then _ else m).
  assert (H1 : syntheticParams m1 = syntheticParams m
               ∧ syntheticPositions m1 = syntheticPositions m).
  { unfold m1. destruct (decide _); [|done].
    destruct (sgp4Worker (lk m)); [|done].
    apply updateTLEPositions_synthetic. }
  destruct H1 as [Hps Hpos].
  assert (Hm1 : populated m1) by by apply (populated_ext m).
  rewrite <- Hps in Hp.
  exact (proj2 (animateSynthetic_populated m1 Hm1) i p Hp).
Qed.

End SyntheticRun.

Lemma fetchTLES_synthetic (L : SatLib) (fetched : option JsString.t)
    (spawn : option nat) (now : Z) (m : main) :
  syntheticParams (fetchTLES L fetched spawn now m) = syntheticParams m
  ∧ syntheticPositions (fetchTLES L fetched spawn now m)
    = syntheticPositions m.
Proof.
  unfold fetchTLES. destruct fetched as [text|]; [|done]. cbv zeta.
  set (m0 := with_store _ m).
  set (m1 := match sgp4Worker (lk m0) with
             | Some _ => m0
             | None => with_link (setupSgp4Worker spawn) m0
             end).
  assert (H1 : syntheticParams m1 = syntheticParams m
               ∧ syntheticPositions m1 = syntheticPositions m)
    by (unfold m1; by destruct (sgp4Worker (lk m0))).
  destruct (sgp4Worker (lk m1)); [done|].
  destruct (updateTLEPositions_synthetic L now m1) as [-> ->]. exact H1.
Qed.

Lemma parseTLE_short (text : JsString.t) :
  (length (Parser.lines_of text) < 3)%nat -> Parser.parseTLE text = [].
Proof.
  intros Hshort. rewrite parseTLE_eq.
  by destruct (Parser.lines_of text) as [|a [|b [|c rest]]];
    [..|simpl in Hshort; lia].
Qed.

Lemma fetchTLES_short (L : SatLib) (text : JsString.t) (spawn : option nat)
    (now : Z) (m : main) :
  (length (Parser.lines_of text) < 3)%nat ->
  let m1 := fetchTLES L (Some text) spawn now m in
  tleData (st m1) = []
  ∧ prevSatBuffer (st m1) = Some [] ∧ nextSatBuffer (st m1) = Some [].
Proof.
  intros Hshort m1. pose proof (parseTLE_short text Hshort) as Hparse.
  destruct (fetchTLES_sized L text spawn now m)
    as ((p & n & Ep & En & Lp & Ln) & Ht & _).
  fold m1 in Ep, En, Lp, Ln, Ht. rewrite Ht, Hparse in Lp, Ln.
  rewrite Ht, Hparse, Ep, En.
  destruct p; [|done]. by destruct n.
Qed.

Section AltitudeOnDoubles.
Import PrimFloat.
#[local] Set Warnings "-inexact-float".
#[local] Open Scope float_scope.

(** C9, as stated, fails on doubles: for the largest value below 1,
    which [Math.random()] may return, the altitude is 1.55 itself, not
    below it. *)
Lemma altitude_reaches_upper_bound :
  let random := 0x1.fffffffffffffp-1 in
  (0 <=? random) = true ∧ (random <? 1) = true
  ∧ Binary64.altitude random = 1.55
  ∧ (Binary64.altitude random <? 1.55) = false.
Proof. by vm_compute. Qed.

End AltitudeOnDoubles.

(** C9, amended: after [createSatellites], whatever the fetch gives,
    there are exactly [SYNTHETIC_SAT_COUNT] synthetic bodies with
    altitude in [1.05, 1.55] (the upper end can be reached), speed in
    [0.002, 0.012), phase in [0, 2 pi) and inclination in [0, pi); in
    every later frame each body's phase grows by its speed and its
    cells receive the point (r cos a, r sin a sin i, r sin a cos i) for
    the new phase [a].  Only a fetch that raises leads to the
    placeholder entries, without worker and double buffer; a response
    with fewer than three non-blank lines, an empty one included, takes
    the other branch: an empty collection, buffers without a cell and
    the worker, if one can be made. *)
Theorem synthetic_population (L : SatLib) (rnd : randoms)
    (fetched : option JsString.t) (spawn : option nat) (now : Z)
    (es : list (event * Z * R)) :
  (∀ k, (0 <= rnd k < 1)%R) ->
  let m := fetchTLES L fetched spawn now (createSatellites rnd initial) in
  length (syntheticParams m) = SYNTHETIC_SAT_COUNT
  ∧ Forall (λ p, (1.05 <= altitude p <= 1.55)%R
                 ∧ (0.002 <= speed p < 0.012)%R
                 ∧ (0 <= phase p < 2 * PI)%R
                 ∧ (0 <= inclination p < PI)%R) (syntheticParams m)
  ∧ (∀ now' perf i p,
       syntheticParams (run L m es) !! i = Some p ->
       let m' := animate L now' perf (run L m es) in
       syntheticParams m' !! i = Some (advance_body p)
       ∧ ∃ array, syntheticPositions m' = Some array
                  ∧ slot array i
                    = Some (cells (orbit_point (advance_body p))))
  ∧ (fetched = None ->
     sgp4Worker (lk m) = None
     ∧ prevSatBuffer (st m) = None ∧ nextSatBuffer (st m) = None
     ∧ tleData (st m) = placeholder <$> seq 0 12)
  ∧ (∀ text, fetched = Some text ->
       (length (Parser.lines_of text) < 3)%nat ->
       sgp4Worker (lk m) = spawn
       ∧ prevSatBuffer (st m) = Some [] ∧ nextSatBuffer (st m) = Some []
       ∧ tleData (st m) = []).
Proof.
  intros Hrnd m.
  destruct (createSatellites_populated rnd initial Hrnd) as [Hpop Hphase].
  destruct (fetchTLES_synthetic L fetched spawn now
              (createSatellites rnd initial)) as [Hps Hpos].
  fold m in Hps, Hpos.
  assert (Hm : populated m)
    by (by apply (populated_ext (createSatellites rnd initial))).
  split; [by destruct Hm|]. split; [|split; [|split]].
  - destruct Hpop as (_ & Hr & _). rewrite Hps.
    apply Forall_lookup. intros i p Hp.
    pose proof (proj1 (Forall_lookup _ _) Hr i p Hp) as (Ha & Hs & Hi).
    pose proof (proj1 (Forall_lookup _ _) Hphase i p Hp) as Hph.
    split; [exact Ha|]. split; [exact Hs|]. split; [exact Hph|exact Hi].
  - intros now' perf i p Hp. cbv zeta.
    apply animate_synthetic; [|done]. by apply run_populated.
  - intros Hf. unfold m. by rewrite Hf.
  - intros text Hf Hshort. unfold m. rewrite Hf.
    destruct (fetchTLES_short L text spawn now
                (createSatellites rnd initial) Hshort) as (Ht & Ep & En).
    split; [|done].
    unfold fetchTLES. cbv zeta. rewrite (parseTLE_short text Hshort).
    by destruct spawn.
Qed.

Lemma synthetic_population_witness :
  let m := fetchTLES raising_lib (Some []) (Some 7%nat) 0
             (createSatellites (λ _, 0.5%R) initial) in
  length (syntheticParams m) = SYNTHETIC_SAT_COUNT
  ∧ sgp4Worker (lk m) = Some 7%nat ∧ tleData (st m) = [].
Proof.
  intros m.
  assert (Hrnd : ∀ k : nat, (0 <= 0.5 < 1)%R) by (intros _; lra).
  assert (Hshort : (length (Parser.lines_of []) < 3)%nat)
    by (vm_compute; lia).
  destruct (synthetic_population raising_lib (λ _, 0.5%R) (Some [])
              (Some 7%nat) 0 [] Hrnd) as (H1 & _ & _ & _ & H5).
  destruct (H5 [] eq_refl Hshort) as (Hw & _ & _ & Ht).
  split; [exact H1|]. split; [exact Hw|exact Ht].
Defined.

(** ** The fallback against the worker *)

Lemma update_latest_value (arr : buffer) (s : store) :
  tleLatestBuffer (update_latest arr s) = Some arr.
Proof.
  unfold update_latest. cbn [tleLatestBuffer set_latest].
  apply ta_set_same_length.
  destruct (tleLatestBuffer s) as [b|].
  - destruct (decide (length b = length arr)) as [->|_]; [done|].
    unfold zeros. by rewrite length_replicate.
  - unfold zeros. by rewrite length_replicate.
Qed.

(** When the fallback ends normally on a non-empty collection, the
    buffer it has built is the one it leaves in [window._tleLatestBuffer]. *)
Lemma fallback_produces (L : SatLib) (now : Z) (perfNow : R) (s : store) :
  tleData s ≠ [] ->
  snd (updateTLEPositionsFallback L now perfNow s) = Done ->
  tleLatestBuffer (fst (updateTLEPositionsFallback L now perfNow s))
  = Some (Fallback.positions_loop L now (gstime L now) (nextSatBuffer s)
            (tleData s)).
Proof.
  intros Hne. unfold updateTLEPositionsFallback.
  destruct (decide (length (tleData s) = 0%nat)) as [E|_].
  { by destruct (tleData s). }
  cbv zeta.
  set (arr := Fallback.positions_loop _ _ _ _ _).
  set (inst := match prevSatBuffer s with Some _ => _ | None => _ end).
  destruct inst as [s1 [|]]; [|done].
  intros _. cbn [fst tleLatestBuffer set_lastTleUpdate].
  apply update_latest_value.
Qed.

(** C1, as stated, fails: for the collection of one placeholder entry
    and no [nextSatBuffer] the two buffers differ. *)
Lemma fallback_differs_from_worker :
  Fallback.positions_loop raising_lib 0 (gstime raising_lib 0) None
    [placeholder 0]
  ≠ Worker.positions_loop raising_lib 0 (gstime raising_lib 0)
      [placeholder 0].
Proof.
  intros H. pose proof fallback_placeholder_slot as Hf.
  rewrite H, worker_placeholder_slot in Hf.
  injection Hf as Hf. lra.
Qed.

(** C1, amended: the buffer the worker posts and the buffer the
    fallback builds for a non-empty collection have the same length and
    hold the same cells at every entry that has both lines and whose
    propagation does not raise; when every entry is such, the two
    buffers are equal. *)
Theorem fallback_agrees_with_worker (L : SatLib) (now : Z)
    (next : option buffer) (tle : list entry) :
  let gmst := gstime L now in
  let out := Worker.positions_loop L now gmst tle in
  let arr := Fallback.positions_loop L now gmst next tle in
  Worker.onmessage L now (Worker.State true tle) Worker.Update
    = (Worker.State true tle, [Worker.Positions out])
  ∧ (∀ perfNow s, tleData s = tle -> nextSatBuffer s = next -> tle ≠ [] ->
       snd (updateTLEPositionsFallback L now perfNow s) = Done ->
       tleLatestBuffer (fst (updateTLEPositionsFallback L now perfNow s))
       = Some arr)
  ∧ length arr = length out
  ∧ (∀ i t, tle !! i = Some t ->
       answer_of L now gmst t ≠ Absent ->
       answer_of L now gmst t ≠ Raises ->
       slot arr i = slot out i)
  ∧ ((∀ t, t ∈ tle -> answer_of L now gmst t ≠ Absent
                      ∧ answer_of L now gmst t ≠ Raises) ->
       arr = out).
Proof.
  intros gmst out arr.
  assert (Hslot : ∀ i t, tle !! i = Some t ->
            answer_of L now gmst t ≠ Absent ->
            answer_of L now gmst t ≠ Raises -> slot arr i = slot out i).
  { intros i t Ht Ha Hr. unfold arr, out.
    rewrite (fallback_slot _ _ _ _ _ _ _ Ht), (worker_slot _ _ _ _ _ _ Ht).
    unfold fallback_cells, worker_cells.
    by destruct (answer_of L now gmst t). }
  split; [done|]. split; [|split; [|split]].
  - intros perfNow s <- <- Hne Hdone. by apply fallback_produces.
  - unfold arr, out. by rewrite fallback_length, worker_length.
  - exact Hslot.
  - intros Hall. apply (buffer_eq _ _ (length tle)).
    + apply fallback_length.
    + apply worker_length.
    + intros i Hi. destruct (lookup_lt_is_Some_2 tle i Hi) as [t Ht].
      destruct (Hall t) as [Ha Hr]; [by eapply list_elem_of_lookup_2|].
      by apply (Hslot i t).
Qed.

Lemma fallback_agrees_with_worker_witness :
  let t := Entry (Some [73%N]) (Some [49%N]) (Some [50%N]) in
  Fallback.positions_loop steady_lib 0 0 (Some [NaN; NaN; NaN]) [t; t]
  = Worker.positions_loop steady_lib 0 0 [t; t].
Proof.
  intros t.
  apply (fallback_agrees_with_worker steady_lib 0 (Some [NaN; NaN; NaN])
           [t; t]).
  intros t' Ht'. apply list_elem_of_In in Ht'.
  destruct Ht' as [<-|[<-|[]]]; split; discriminate.
Defined.

(** ** The guards of the handlers hold once the buffers exist *)

Section ReadyFacts.
Variable L : SatLib.

Lemma slide_ready arr p n s : ready s -> ready (fst (slide arr p n s)).
Proof.
  unfold slide. destruct (ta_set p n); [|done].
  by destruct (ta_set n arr).
Qed.

Lemma on_positions_ready arr perfNow dateNow s :
  ready s -> ready (fst (on_positions arr perfNow dateNow s)).
Proof.
  intros Hr. unfold on_positions.
  destruct (tlePositionsAttr s) eqn:Ha; [|done]. cbv zeta.
  change (prevSatBuffer (update_latest arr s)) with (prevSatBuffer s).
  change (nextSatBuffer (update_latest arr s)) with (nextSatBuffer s).
  change (tlePoints (update_latest arr s)) with (tlePoints s).
  assert (Hu : ready (update_latest arr s)) by done.
  destruct (prevSatBuffer s) as [p|]; [|done].
  destruct (nextSatBuffer s) as [n|]; [|done].
  destruct (tlePoints s); [|done].
  pose proof (slide_ready arr p n _ Hu) as Hs.
  by destruct (slide arr p n (update_latest arr s)) as [s1 [|]].
Qed.

Lemma fallback_ready now perfNow s :
  ready s -> ready (fst (updateTLEPositionsFallback L now perfNow s)).
Proof.
  intros Hr. unfold updateTLEPositionsFallback.
  destruct (decide (length (tleData s) = 0%nat)) as [_|_]; [done|].
  cbv zeta. set (arr := Fallback.positions_loop _ _ _ _ _).
  destruct (prevSatBuffer s) as [p|] eqn:Ep.
  - destruct (nextSatBuffer s) as [q|] eqn:En.
    + pose proof (slide_ready arr p q s Hr) as Hs.
      destruct (slide arr p q s) as [s1 [|]]; [|done].
      cbn [fst] in Hs. by destruct (tlePoints s1).
    + destruct Hr as [Hp [a Ha]]. rewrite Ha.
      destruct a as [|a]; [done|].
      destruct (ta_set a arr); [|by split; [|exists (AttrPosition a)]].
      split; [done|]. by eexists.
  - destruct Hr as [Hp [a Ha]]. rewrite Ha.
    destruct a as [|a].
    + destruct (nextSatBuffer s) as [q|]; [|by split; [|exists AttrNext]].
      destruct (ta_set q arr); split; try done; by exists AttrNext.
    + destruct (ta_set a arr); [|by split; [|exists (AttrPosition a)]].
      split; [done|]. by eexists.
Qed.

Lemma updateTLEPositions_ready now m :
  ready (st m) -> ready (st (updateTLEPositions L now m)).
Proof.
  intros Hr. unfold updateTLEPositions.
  destruct (tleData (st m)); [done|].
  destruct (tlePositionsAttr (st m)) as [a|] eqn:Ha; [|done].
  destruct (sgp4Worker (lk m)); [done|].
  destruct Hr as [Hp _]. destruct a as [|array].
  - split; [done|]. exists AttrNext. cbn. exact Ha.
  - split; [done|]. by eexists.
Qed.

Lemma step_ready m e : ready (st m) -> ready (st (step L m e)).
Proof.
  intros Hr. destruct e as [[[msg| |] now] perfNow]; simpl.
  - destruct msg as [satlib count|arr]; simpl; [done|].
    by apply on_positions_ready.
  - unfold timer_tick. destruct (sgp4Worker (lk m)); [done|].
    by apply fallback_ready.
  - unfold animate. simpl.
    rewrite (proj1 (animateSynthetic_fields _)).
    set (m1 := if decide _ then _ else m).
    assert (H1 : ready (st m1)).
    { unfold m1. destruct (decide _); [|done].
      destruct (sgp4Worker (lk m));
        [by apply updateTLEPositions_ready|by apply fallback_ready]. }
    unfold advance_interp. destruct (tlePoints (st m1)) eqn:Hp; [|done].
    by destruct (Rlt_dec 0 (satInterpStart (st m1))).
Qed.

(** In every state reached after [createSatellites] and a successful
    fetch, the buffers have their size and the guards of the handlers
    hold. *)
Lemma reachable_store (rnd : randoms) (text : JsString.t)
    (spawn : option nat) (now : Z) (m : main) (es : list (event * Z * R)) :
  let m' := run L (fetchTLES L (Some text) spawn now (createSatellites rnd m))
              es in
  sized (st m') ∧ ready (st m').
Proof.
  intros m'. split.
  - eapply same_shape_sized; [apply run_shape|].
    apply fetchTLES_sized.
  - unfold m'. clear m'.
    assert (H0 : ready (st (fetchTLES L (Some text) spawn now
                              (createSatellites rnd m)))).
    { unfold fetchTLES. cbv zeta.
      set (m0 := with_store _ _).
      assert (Hr0 : ready (st m0)) by (split; [done|by eexists]).
      set (m1 := match sgp4Worker (lk m0) with
                 | Some _ => m0
                 | None => with_link (setupSgp4Worker spawn) m0
                 end).
      assert (Hst : st m1 = st m0) by (unfold m1; by destruct (sgp4Worker _)).
      destruct (sgp4Worker (lk m1)); [by rewrite <- Hst in Hr0|].
      apply updateTLEPositions_ready. by rewrite Hst. }
    revert H0. generalize (fetchTLES L (Some text) spawn now
                             (createSatellites rnd m)).
    induction es as [|e es IH]; intros m1 H1; [done|].
    simpl. by apply IH, step_ready.
Qed.

End ReadyFacts.

(** * Further properties of the code *)

(** ** The worker's protocol *)

(** X1: the count the worker announces in [ready] and the size of the
    buffer of every later [positions] reply agree, three cells per
    entry, whether or not the library loaded; an absent [tle] counts as
    the empty collection. *)
Theorem worker_ready_then_positions (L : SatLib) (now now' : Z)
    (s : Worker.state) (tle : option (list entry)) :
  let count := length (default [] tle) in
  let s1 := fst (Worker.onmessage L now s (Worker.SetTLE tle)) in
  snd (Worker.onmessage L now s (Worker.SetTLE tle))
    = [Worker.Ready (Worker.satlibLoaded s) count]
  ∧ ∃ buf, Worker.onmessage L now' s1 Worker.Update
           = (s1, [Worker.Positions buf])
           ∧ length buf = (3 * count)%nat.
Proof.
  intros count s1. split; [done|].
  unfold Worker.onmessage at 1. unfold s1. cbn [fst Worker.onmessage].
  cbn [Worker.satlibLoaded Worker.tleData].
  destruct (Worker.satlibLoaded s); cbn [negb].
  - eexists. split; [reflexivity|]. rewrite worker_length. unfold count. lia.
  - eexists. split; [reflexivity|]. unfold zeros.
    rewrite length_replicate. unfold count. lia.
Qed.

(** X2: in the buffer of a [positions] reply every entry is the origin
    or a point at distance 1.1 from it, and no cell is [NaN]. *)
Theorem worker_entries_origin_or_sphere (L : SatLib) (now : Z)
    (s : Worker.state) (i : nat) :
  (i < length (Worker.tleData s))%nat ->
  ∃ buf v, snd (Worker.onmessage L now s Worker.Update)
           = [Worker.Positions buf]
           ∧ slot buf i = Some (cells v)
           ∧ (v = (0, 0, 0)%R ∨ norm v = 1.1%R).
Proof.
  intros Hi. unfold Worker.onmessage.
  destruct (Worker.satlibLoaded s); cbn [negb snd].
  - destruct (lookup_lt_is_Some_2 _ _ Hi) as [t Ht].
    pose proof (worker_slot L now (gstime L now) _ _ _ Ht) as Hslot.
    unfold worker_cells in Hslot.
    destruct (answer_of L now (gstime L now) t) as [| | |geo].
    1-3: eexists _, (0, 0, 0)%R; split; [reflexivity|];
         split; [exact Hslot|by left].
    eexists _, _. split; [reflexivity|]. split; [exact Hslot|].
    right. apply norm_spherical.
  - exists (zeros (length (Worker.tleData s) * 3)), (0, 0, 0)%R.
    split; [done|]. split; [by apply slot_zeros|by left].
Qed.

Lemma worker_entries_origin_or_sphere_witness :
  ∃ buf v, snd (Worker.onmessage steady_lib 0
                  (Worker.State true [sample_entry; placeholder 0])
                  Worker.Update)
           = [Worker.Positions buf]
           ∧ slot buf 1 = Some (cells v)
           ∧ (v = (0, 0, 0)%R ∨ norm v = 1.1%R).
Proof.
  apply (worker_entries_origin_or_sphere steady_lib 0
           (Worker.State true [sample_entry; placeholder 0]) 1).
  simpl. lia.
Defined.

(** ** [updateTLEPositions] without a worker *)

Lemma direct_iteration_write (L : SatLib) (now : Z) (gmst : R)
    (tle : list entry) (array : buffer) (i : nat) :
  direct_iteration L now gmst tle array i
  = match direct_write L now gmst tle i with
    | Some v => write3 i v array
    | None => array
    end.
Proof.
  unfold direct_iteration, direct_write, direct_answer.
  destruct (tle !! i) as [t|]; [|done].
  destruct (twoline2satrec L _ _) as [rec|]; simpl; [|done].
  destruct (propagate L rec now) as [[p|]|]; simpl; [|done|done].
  destruct (eciToGeodetic L p gmst) as [geo|]; [|done].
  cbn [mbind result_bind]. by rewrite (projection_eq geo).
Qed.

(** X3: without a worker, [updateTLEPositions] writes the projected
    point of every located entry straight into [next] (the array of
    [tlePositionsAttr]) and leaves the cells of every other entry as
    they were; [prev], the blend and the worker handle are untouched and
    the time of the update is recorded. *)
Theorem direct_path_cells (L : SatLib) (now : Z) (m : main) (n : buffer)
    (i : nat) (t : entry) :
  sgp4Worker (lk m) = None ->
  tlePositionsAttr (st m) = Some AttrNext ->
  nextSatBuffer (st m) = Some n ->
  length n = (3 * length (tleData (st m)))%nat ->
  tleData (st m) !! i = Some t ->
  let m' := updateTLEPositions L now m in
  ∃ n', nextSatBuffer (st m') = Some n'
        ∧ length n' = length n
        ∧ slot n' i
          = match direct_answer L now (gstime L now) t with
            | Located geo => Some (located_cells geo)
            | _ => slot n i
            end
        ∧ prevSatBuffer (st m') = prevSatBuffer (st m)
        ∧ u_interp (st m') = u_interp (st m)
        ∧ satInterpStart (st m') = satInterpStart (st m)
        ∧ lastTleUpdate (st m') = now
        ∧ lk m' = lk m.
Proof.
  intros Hw Ha Hn Hlen Ht m'. unfold m', updateTLEPositions.
  destruct (tleData (st m)) as [|t0 tle0] eqn:Etle; [done|].
  rewrite Ha, Hw, Hn.
  set (tle := t0 :: tle0) in *.
  cbn [st with_store set_lastTleUpdate set_buffers nextSatBuffer
       prevSatBuffer u_interp satInterpStart lastTleUpdate lk fmap
       option_fmap option_map].
  eexists. split; [reflexivity|].
  pose proof (lookup_lt_Some _ _ _ Ht) as Hi.
  split; [|split].
  - apply foldl_length. intros out j. apply direct_iteration_length.
  - rewrite (loop_slot _ (direct_write L now (gstime L now) tle)
               (λ out j, direct_iteration_write L now (gstime L now) tle out j));
      [|lia|lia].
    unfold direct_write. rewrite Ht.
    by destruct (direct_answer L now (gstime L now) t).
  - done.
Qed.

Lemma direct_path_cells_witness :
  let m := Main (Store [sample_entry; placeholder 0] (Some (zeros 6))
                       (Some (zeros 6)) true (Some AttrNext) 0 0 None 0)
                (Link None [] []) [] None in
  ∃ n', nextSatBuffer (st (updateTLEPositions raising_lib 5 m)) = Some n'
        ∧ slot n' 1 = slot (zeros 6) 1.
Proof.
  intros m.
  destruct (direct_path_cells raising_lib 5 m (zeros 6) 1 (placeholder 0))
    as (n' & Hn & _ & Hs & _); try reflexivity.
  exists n'. split; [exact Hn|exact Hs].
Defined.

(** ** The positions handler and the frames *)

Lemma on_positions_matching (arr p n : buffer) (perfNow : R) (dateNow : Z)
    (s : store) :
  prevSatBuffer s = Some p -> nextSatBuffer s = Some n ->
  length p = length n -> length arr = length n ->
  tlePoints s = true -> is_Some (tlePositionsAttr s) ->
  on_positions arr perfNow dateNow s
  = (set_lastTleUpdate dateNow
       (restart_clock perfNow
          (set_buffers (Some n) (Some arr) (update_latest arr s))), Done).
Proof.
  intros Ep En Hpn Harr Hpts [a Ha]. unfold on_positions. rewrite Ha.
  cbv zeta.
  change (prevSatBuffer (update_latest arr s)) with (prevSatBuffer s).
  change (nextSatBuffer (update_latest arr s)) with (nextSatBuffer s).
  change (tlePoints (update_latest arr s)) with (tlePoints s).
  by rewrite Ep, En, Hpts, slide_matching by done.
Qed.

Lemma slide_latest arr p n s :
  tleLatestBuffer (fst (slide arr p n s)) = tleLatestBuffer s.
Proof.
  unfold slide. destruct (ta_set p n); [|done].
  by destruct (ta_set n arr).
Qed.

(** X4: once [tlePositionsAttr] exists, the copy kept in
    [window._tleLatestBuffer] after a [positions] message is the buffer
    received, of whatever length, also when the double buffers cannot
    take it; before the attribute exists the message changes nothing. *)
Theorem latest_buffer_follows_messages (arr : buffer) (perfNow : R)
    (dateNow : Z) (s : store) :
  (is_Some (tlePositionsAttr s) ->
     tleLatestBuffer (fst (on_positions arr perfNow dateNow s)) = Some arr)
  ∧ (tlePositionsAttr s = None ->
     on_positions arr perfNow dateNow s = (s, Done)).
Proof.
  split.
  - intros [a Ha]. unfold on_positions. rewrite Ha. cbv zeta.
    change (prevSatBuffer (update_latest arr s)) with (prevSatBuffer s).
    change (nextSatBuffer (update_latest arr s)) with (nextSatBuffer s).
    change (tlePoints (update_latest arr s)) with (tlePoints s).
    pose proof (update_latest_value arr s) as Hl.
    destruct (prevSatBuffer s) as [p|]; [|done].
    destruct (nextSatBuffer s) as [n|]; [|done].
    destruct (tlePoints s); [|done].
    pose proof (slide_latest arr p n (update_latest arr s)) as Hs.
    destruct (slide arr p n (update_latest arr s)) as [s1 [|]];
      cbn [fst] in *; cbn [fst tleLatestBuffer set_lastTleUpdate
                           restart_clock set_interp]; congruence.
  - intros Ha. unfold on_positions. by rewrite Ha.
Qed.

Lemma latest_buffer_follows_messages_witness :
  let s := Store [sample_entry] (Some (zeros 3)) (Some (zeros 3)) true
                 (Some AttrNext) 0 0 None 0 in
  tleLatestBuffer (fst (on_positions [Num 1; Num 2; Num 3; Num 4] 10 20 s))
  = Some [Num 1; Num 2; Num 3; Num 4].
Proof.
  intros s.
  apply (proj1 (latest_buffer_follows_messages
                  [Num 1; Num 2; Num 3; Num 4] 10 20 s)).
  by exists AttrNext.
Defined.

(** X5: two results installed one after the other leave the first in
    [prev] and the second in [next], the clock restarted at the second
    install: a blend in progress is cut short, not queued. *)
Theorem second_install_truncates (a b p n : buffer) (perf1 perf2 : R)
    (date1 date2 : Z) (s : store) :
  prevSatBuffer s = Some p -> nextSatBuffer s = Some n ->
  length p = length n -> length a = length n -> length b = length n ->
  tlePoints s = true -> is_Some (tlePositionsAttr s) ->
  let s1 := fst (on_positions a perf1 date1 s) in
  let s2 := fst (on_positions b perf2 date2 s1) in
  prevSatBuffer s2 = Some a ∧ nextSatBuffer s2 = Some b
  ∧ u_interp s2 = 0%R ∧ satInterpStart s2 = (perf2 / 1000)%R
  ∧ tleLatestBuffer s2 = Some b ∧ lastTleUpdate s2 = date2.
Proof.
  intros Ep En Hpn Ha Hb Hpts Hattr s1 s2.
  assert (H1 : s1 = set_lastTleUpdate date1
                 (restart_clock perf1
                    (set_buffers (Some n) (Some a) (update_latest a s)))).
  { unfold s1. by rewrite (on_positions_matching a p n). }
  unfold s2.
  rewrite (on_positions_matching b n a); rewrite ?H1; try done;
    try congruence.
  cbn [fst]. repeat split; try done. apply update_latest_value.
Qed.

Lemma second_install_truncates_witness :
  let s := Store [sample_entry] (Some [Num 1; Num 1; Num 1])
                 (Some [Num 2; Num 2; Num 2]) true (Some AttrNext)
                 1 0 None 0 in
  let s1 := fst (on_positions [Num 3; Num 3; Num 3] 1000 10 s) in
  let s2 := fst (on_positions [Num 4; Num 4; Num 4] 1200 20 s1) in
  prevSatBuffer s2 = Some [Num 3; Num 3; Num 3]
  ∧ nextSatBuffer s2 = Some [Num 4; Num 4; Num 4].
Proof.
  intros s s1 s2.
  destruct (second_install_truncates [Num 3; Num 3; Num 3]
              [Num 4; Num 4; Num 4] [Num 1; Num 1; Num 1]
              [Num 2; Num 2; Num 2] 1000 1200 10 20 s)
    as (H1 & H2 & _); try reflexivity.
  - by exists AttrNext.
  - split; [exact H1|exact H2].
Defined.

(** X6: while the last update is at most [tleUpdateInterval] old, a
    frame neither posts to the worker nor runs the fallback: the worker
    handle and log are as before and the store only has its blend
    advanced.  A [positions] message applied at [dateNow] makes that so
    for every frame up to [dateNow + 5000]. *)
Theorem fresh_frame_only_blends (L : SatLib) (arr : buffer)
    (perfNow perf : R) (dateNow now : Z) (m : main) :
  is_Some (tlePositionsAttr (st m)) ->
  snd (on_positions arr perfNow dateNow (st m)) = Done ->
  (now <= dateNow + 5000)%Z ->
  let m1 := onmessage (Worker.Positions arr) perfNow dateNow m in
  lastTleUpdate (st m1) = dateNow
  ∧ lk (animate L now perf m1) = lk m
  ∧ st (animate L now perf m1) = advance_interp perf (st m1).
Proof.
  intros [a Ha] Hdone Hnow m1.
  assert (Hlast : lastTleUpdate (st m1) = dateNow).
  { unfold m1. cbn [onmessage with_store st]. revert Hdone.
    unfold on_positions. rewrite Ha. cbv zeta.
    destruct (match prevSatBuffer (update_latest arr (st m)) with
              | Some _ => _ | None => _ end) as [s1 [|]]; [done|].
    discriminate. }
  split; [done|]. unfold animate. cbv zeta.
  destruct (decide _) as [Hstale|_].
  { rewrite Hlast in Hstale. unfold tleUpdateInterval in Hstale. lia. }
  destruct (animateSynthetic_fields m1) as [Hst Hlk].
  cbn [with_store st lk]. by rewrite Hst, Hlk.
Qed.

Lemma fresh_frame_only_blends_witness :
  let m := Main (Store [sample_entry] (Some (zeros 3)) (Some (zeros 3)) true
                       (Some AttrNext) 0 0 None 0)
                (Link (Some 1%nat) [] []) [] None in
  lk (animate raising_lib 6000 50
        (onmessage (Worker.Positions [Num 1; Num 2; Num 3]) 40 1000 m))
  = lk m.
Proof.
  intros m.
  destruct (fresh_frame_only_blends raising_lib [Num 1; Num 2; Num 3]
              40 50 1000 6000 m) as (_ & H & _).
  - by exists AttrNext.
  - reflexivity.
  - lia.
  - exact H.
Defined.

(** ** The vertex shader *)

Lemma zip_mix_0 (p n : buffer) :
  length p = length n -> numeric p -> numeric n ->
  zip_with (mix 0) p n = p.
Proof.
  revert n. induction p as [|x p IH]; intros [|y n] Hl Hp Hn; try done.
  inversion Hp as [|? ? Hx Hp']; subst.
  inversion Hn as [|? ? Hy Hn']; subst.
  simpl. rewrite IH by (simpl in Hl; try lia; done).
  destruct x as [x|]; [|done]. destruct y as [y|]; [|done].
  simpl. do 2 f_equal. lra.
Qed.

Lemma zip_mix_1 (p n : buffer) :
  length p = length n -> numeric p -> numeric n ->
  zip_with (mix 1) p n = n.
Proof.
  revert n. induction p as [|x p IH]; intros [|y n] Hl Hp Hn; try done.
  inversion Hp as [|? ? Hx Hp']; subst.
  inversion Hn as [|? ? Hy Hn']; subst.
  simpl. rewrite IH by (simpl in Hl; try lia; done).
  destruct x as [x|]; [|done]. destruct y as [y|]; [|done].
  simpl. do 2 f_equal. lra.
Qed.

(** X7: with two buffers of the same length and without [NaN], the
    shader draws every point where [prev] has it when the blend is 0 and
    where [next] has it when the blend is 1. *)
Theorem blend_endpoints (s : store) (p n : buffer) :
  prevSatBuffer s = Some p -> nextSatBuffer s = Some n ->
  length p = length n -> numeric p -> numeric n ->
  (u_interp s = 0%R -> vertex_positions s = Some p)
  ∧ (u_interp s = 1%R -> vertex_positions s = Some n).
Proof.
  intros Ep En Hl Hp Hn. unfold vertex_positions. rewrite Ep, En. simpl.
  split; intros ->; f_equal; [by apply zip_mix_0|by apply zip_mix_1].
Qed.

Lemma blend_endpoints_witness :
  vertex_positions
    (Store [sample_entry] (Some [Num 1; Num 2; Num 3])
           (Some [Num 4; Num 5; Num 6]) true (Some AttrNext) 1 0 None 0)
  = Some [Num 4; Num 5; Num 6].
Proof.
  apply (proj2 (blend_endpoints
                  (Store [sample_entry] (Some [Num 1; Num 2; Num 3])
                         (Some [Num 4; Num 5; Num 6]) true (Some AttrNext)
                         1 0 None 0)
                  [Num 1; Num 2; Num 3] [Num 4; Num 5; Num 6]
                  eq_refl eq_refl eq_refl
                  ltac:(repeat constructor; discriminate)
                  ltac:(repeat constructor; discriminate)));
    reflexivity.
Defined.

(** X8: installing a new buffer once the blend has reached 1 moves no
    point on screen: right after the install every point is drawn where
    it was drawn before, at its place in the old [next]. *)
Theorem install_keeps_drawn_positions (arr p n : buffer) (perfNow : R)
    (dateNow : Z) (s : store) :
  prevSatBuffer s = Some p -> nextSatBuffer s = Some n ->
  length p = length n -> length arr = length n ->
  tlePoints s = true -> is_Some (tlePositionsAttr s) ->
  numeric p -> numeric n -> numeric arr ->
  u_interp s = 1%R ->
  vertex_positions (fst (on_positions arr perfNow dateNow s))
  = vertex_positions s
  ∧ vertex_positions s = Some n.
Proof.
  intros Ep En Hpn Harr Hpts Hattr Hp Hn Ha Hu.
  rewrite (on_positions_matching arr p n) by done. cbn [fst].
  assert (Hs : vertex_positions s = Some n).
  { unfold vertex_positions. rewrite Ep, En, Hu. simpl. f_equal.
    by apply zip_mix_1. }
  split; [|done]. rewrite Hs.
  unfold vertex_positions. simpl. f_equal. apply zip_mix_0; [lia|done..].
Qed.

Lemma install_keeps_drawn_positions_witness :
  let s := Store [sample_entry] (Some [Num 1; Num 2; Num 3])
                 (Some [Num 4; Num 5; Num 6]) true (Some AttrNext)
                 1 0 None 0 in
  vertex_positions (fst (on_positions [Num 7; Num 8; Num 9] 100 200 s))
  = vertex_positions s.
Proof.
  intros s.
  apply (install_keeps_drawn_positions [Num 7; Num 8; Num 9]
           [Num 1; Num 2; Num 3] [Num 4; Num 5; Num 6] 100 200 s);
    try reflexivity; try (by exists AttrNext);
    repeat constructor; discriminate.
Defined.

(** ** The synthetic bodies on screen *)

Lemma norm_orbit_point (p : synth) :
  (0 <= altitude p)%R -> norm (orbit_point p) = altitude p.
Proof.
  intros Hr. unfold norm, orbit_point. cbv zeta.
  set (a := phase p). set (i := inclination p). set (r := altitude p) in *.
  pose proof (sin2_cos2 a) as Ha. pose proof (sin2_cos2 i) as Hi.
  unfold Rsqr in Ha, Hi.
  replace (r * cos a * (r * cos a) + r * sin a * sin i * (r * sin a * sin i)
           + r * sin a * cos i * (r * sin a * cos i))%R
    with (r * r * (sin a * sin a * (sin i * sin i + cos i * cos i)
                   + cos a * cos a))%R by ring.
  rewrite Hi, Rmult_1_r, Ha, Rmult_1_r. by apply sqrt_square.
Qed.

(** X9: after any frame every synthetic body is drawn at the distance
    of its altitude from the centre of the globe, hence at a distance
    in [1.05, 1.55]: never inside the globe of radius 1. *)
Theorem synthetic_bodies_above_globe (L : SatLib) (rnd : randoms)
    (m0 : main) (es : list (event * Z * R)) (now : Z) (perf : R) :
  (∀ k, (0 <= rnd k < 1)%R) ->
  let m := animate L now perf (run L (createSatellites rnd m0) es) in
  ∀ i p, syntheticParams m !! i = Some p ->
    ∃ array, syntheticPositions m = Some array
             ∧ slot array i = Some (cells (orbit_point p))
             ∧ norm (orbit_point p) = altitude p
             ∧ (1.05 <= altitude p <= 1.55)%R.
Proof.
  intros Hrnd m i p Hp.
  destruct (createSatellites_populated rnd m0 Hrnd) as [Hpop _].
  pose proof (run_populated L _ es Hpop) as Hrun.
  set (m1 := run L (createSatellites rnd m0) es) in *.
  pose proof (step_populated L m1 (Frame, now, perf) Hrun) as Hm.
  change (step L m1 (Frame, now, perf)) with m in Hm.
  destruct Hrun as (Hlen1 & Hr1 & _). destruct Hm as (Hlen & _ & _).
  assert (Hi : (i < length (syntheticParams m1))%nat).
  { rewrite Hlen1, <- Hlen. by eapply lookup_lt_Some. }
  destruct (lookup_lt_is_Some_2 _ _ Hi) as [p0 Hp0].
  assert (Hpop1 : populated m1) by (by apply run_populated).
  destruct (animate_synthetic L now perf m1 i p0 Hpop1 Hp0)
    as (Hp' & array & Harr & Hslot).
  fold m in Hp', Harr. rewrite Hp in Hp'. injection Hp' as ->.
  pose proof (proj1 (Forall_lookup _ _) Hr1 i p0 Hp0) as (Halt & _ & _).
  exists array. split; [done|]. split; [done|].
  split; [apply norm_orbit_point; simpl; lra|exact Halt].
Qed.

Lemma synthetic_bodies_above_globe_witness :
  let m := animate raising_lib 0 0 (run raising_lib
             (createSatellites (λ _, 0.25%R) initial) []) in
  ∃ p array, syntheticParams m !! 0%nat = Some p
             ∧ syntheticPositions m = Some array
             ∧ slot array 0 = Some (cells (orbit_point p))
             ∧ (1.05 <= altitude p <= 1.55)%R.
Proof.
  intros m.
  assert (Hrnd : ∀ k : nat, (0 <= 0.25 < 1)%R) by (intros _; lra).
  assert (Hp : ∃ p, syntheticParams m !! 0%nat = Some p).
  { destruct (createSatellites_populated (λ _, 0.25%R) initial Hrnd)
      as [Hpop _].
    assert (H0 : is_Some (syntheticParams
                            (createSatellites (λ _, 0.25%R) initial)
                          !! 0%nat)).
    { apply lookup_lt_is_Some. rewrite (proj1 Hpop).
      unfold SYNTHETIC_SAT_COUNT. lia. }
    destruct H0 as [p0 H0]. exists (advance_body p0).
    exact (proj1 (animate_synthetic raising_lib 0 0 _ 0%nat p0 Hpop H0)). }
  destruct Hp as [p Hp]. exists p.
  destruct (synthetic_bodies_above_globe raising_lib (λ _, 0.25%R) initial
              [] 0 0 Hrnd 0%nat p Hp) as (array & Ha & Hs & _ & Hr).
  exists array. split; [exact Hp|]. split; [exact Ha|].
  split; [exact Hs|exact Hr].
Defined.

(** ** [fetchTLES] and what follows it *)

Lemma ring_slot (squash : R) (count i : nat) :
  (i < count)%nat ->
  slot (ring squash count) i = Some (ring_point squash count i).
Proof.
  intros Hi. unfold ring.
  rewrite (loop_slot _ (λ j, Some (ring_point squash count j)));
    [done|done|unfold zeros; rewrite length_replicate; lia|lia].
Qed.

Lemma placeholder_absent (L : SatLib) (now : Z) (gmst : R) (i : nat) :
  answer_of L now gmst (placeholder i) = Absent.
Proof. done. Qed.

(** X10: with the point cloud in place, after a failed fetch the
    collection is the 12 placeholder entries, drawn on a ring through
    the attribute [position]; when no double buffer exists, the first
    timer tick without a worker runs the fallback, which moves all
    twelve to the one point (1.1, 0, 0). *)
Theorem placeholders_collapse (L : SatLib) (spawn : option nat)
    (now now' : Z) (perf : R) (m : main) :
  tlePoints (st m) = true ->
  prevSatBuffer (st m) = None -> nextSatBuffer (st m) = None ->
  sgp4Worker (lk m) = None ->
  let m1 := fetchTLES L None spawn now m in
  let m2 := timer_tick L now' perf m1 in
  tleData (st m1) = placeholder <$> seq 0 12
  ∧ (∃ a, tlePositionsAttr (st m1) = Some (AttrPosition a)
          ∧ length a = 36%nat
          ∧ ∀ i, (i < 12)%nat -> slot a i = Some (ring_point 0.2 12 i))
  ∧ (∃ a, tlePositionsAttr (st m2) = Some (AttrPosition a)
          ∧ length a = 36%nat
          ∧ ∀ i, (i < 12)%nat -> slot a i = Some (Num 1.1, Num 0, Num 0))
  ∧ tleData (st m2) = tleData (st m1)
  ∧ prevSatBuffer (st m2) = None ∧ nextSatBuffer (st m2) = None.
Proof.
  intros Hpts Ep En Hw m1 m2.
  set (tle := placeholder <$> seq 0 12).
  assert (Hlen : length tle = 12%nat) by reflexivity.
  assert (H1 : st m1 = set_lastTleUpdate now
                 (set_attr (Some (AttrPosition (ring 0.2 12)))
                    (set_tleData tle (st m)))) by reflexivity.
  split; [by rewrite H1|]. split.
  { exists (ring 0.2 12). rewrite H1. split; [done|].
    split; [by rewrite ring_length|]. intros i Hi. by apply ring_slot. }
  set (arr := Fallback.positions_loop L now' (gstime L now') None tle).
  assert (Harr : length arr = 36%nat).
  { unfold arr. rewrite fallback_length, Hlen. lia. }
  assert (H2 : st m2 = set_lastTleUpdate now'
                 (update_latest arr
                    (set_attr (Some (AttrPosition arr)) (st m1)))).
  { unfold m2, timer_tick.
    change (sgp4Worker (lk m1)) with (sgp4Worker (lk m)). rewrite Hw.
    cbn [with_store st]. unfold updateTLEPositionsFallback.
    rewrite H1.
    cbn [tleData prevSatBuffer nextSatBuffer tlePositionsAttr
         set_lastTleUpdate set_attr set_tleData].
    rewrite Ep, En.
    destruct (decide (length tle = 0%nat)) as [E|_]; [by rewrite Hlen in E|].
    cbv zeta. fold arr.
    rewrite (ta_set_same_length (ring 0.2 12) arr)
      by (by rewrite ring_length, Harr).
    reflexivity. }
  split; [|by rewrite H2, H1; cbn; rewrite ?Ep, ?En].
  exists arr. rewrite H2. split; [done|]. split; [done|].
  intros i Hi.
  assert (Ht : tle !! i = Some (placeholder i)).
  { unfold tle. rewrite list_lookup_fmap, lookup_seq_lt by done. done. }
  unfold arr. rewrite (fallback_slot _ _ _ _ _ _ _ Ht).
  unfold fallback_cells. by rewrite placeholder_absent.
Qed.

Lemma placeholders_collapse_witness :
  let m1 := fetchTLES raising_lib None None 0
              (createSatellites (λ _, 0%R) initial) in
  ∃ a, tlePositionsAttr (st (timer_tick raising_lib 3000 10 m1))
       = Some (AttrPosition a)
       ∧ length a = 36%nat
       ∧ ∀ i, (i < 12)%nat -> slot a i = Some (Num 1.1, Num 0, Num 0).
Proof.
  intros m1.
  destruct (placeholders_collapse raising_lib None 0 3000 10
              (createSatellites (λ _, 0%R) initial)
              eq_refl eq_refl eq_refl eq_refl) as (_ & _ & H & _).
  exact H.
Defined.

Lemma fetchTLES_with_worker (L : SatLib) (text : JsString.t)
    (spawn : option nat) (now : Z) (m : main) (w : nat) :
  sgp4Worker (lk m) = Some w ∨ (sgp4Worker (lk m) = None ∧ spawn = Some w) ->
  let tle := Parser.parseTLE text in
  let r := ring 0.1 (length tle) in
  lk (fetchTLES L (Some text) spawn now m)
  = Link (Some w)
         (posted (lk m) ++ [(w, Worker.SetTLE (Some tle)); (w, Worker.Update)])
         (terminated (lk m))
  ∧ st (fetchTLES L (Some text) spawn now m)
    = set_attr (Some AttrNext)
        (set_buffers (Some r) (Some r) (set_tleData tle (st m))).
Proof.
  intros Hw tle r. unfold fetchTLES. cbv zeta.
  cbn [with_store lk st]. fold tle. fold r.
  destruct Hw as [Hw|[Hw ->]].
  - rewrite Hw. cbn [lk with_store]. rewrite Hw. cbn.
    unfold post. cbn. by rewrite Hw, <- app_assoc.
  - rewrite Hw. cbn. unfold post. cbn. by rewrite <- app_assoc.
Qed.

Lemma worker_update_reply (L : SatLib) (now : Z) (s : Worker.state) :
  ∃ buf, Worker.onmessage L now s Worker.Update = (s, [Worker.Positions buf])
         ∧ length buf = (3 * length (Worker.tleData s))%nat.
Proof.
  unfold Worker.onmessage.
  destruct (Worker.satlibLoaded s); cbn [negb].
  - eexists. split; [reflexivity|]. rewrite worker_length. lia.
  - eexists. split; [reflexivity|]. unfold zeros.
    rewrite length_replicate. lia.
Qed.

(** X11: with the point cloud in place, a successful fetch with a
    worker at hand, held already or just created, posts to that worker
    the collection now held on the main thread and then one update
    request, and nothing else; a worker already held is kept, no second
    one is created. *)
Theorem fetch_posts_collection (L : SatLib) (text : JsString.t)
    (spawn : option nat) (now : Z) (m : main) (w : nat) :
  tlePoints (st m) = true ->
  sgp4Worker (lk m) = Some w ∨ (sgp4Worker (lk m) = None ∧ spawn = Some w) ->
  let m1 := fetchTLES L (Some text) spawn now m in
  sgp4Worker (lk m1) = Some w
  ∧ tleData (st m1) = Parser.parseTLE text
  ∧ posted (lk m1)
    = posted (lk m) ++ [(w, Worker.SetTLE (Some (tleData (st m1))));
                        (w, Worker.Update)]
  ∧ terminated (lk m1) = terminated (lk m).
Proof.
  intros Hpts Hw m1.
  destruct (fetchTLES_with_worker L text spawn now m w Hw) as [Hlk Hst].
  unfold m1. by rewrite Hlk, Hst.
Qed.

Lemma fetch_posts_collection_witness :
  let m1 := fetchTLES raising_lib (Some [73; 10; 49; 10; 50]%N) (Some 4%nat)
              0 (createSatellites (λ _, 0%R) initial) in
  sgp4Worker (lk m1) = Some 4%nat
  ∧ tleData (st m1) = Parser.parseTLE [73; 10; 49; 10; 50]%N
  ∧ posted (lk m1)
    = [] ++ [(4%nat, Worker.SetTLE (Some (tleData (st m1))));
             (4%nat, Worker.Update)]
  ∧ terminated (lk m1) = [].
Proof.
  apply (fetch_posts_collection raising_lib [73; 10; 49; 10; 50]%N
           (Some 4%nat) 0 (createSatellites (λ _, 0%R) initial) 4).
  - reflexivity.
  - right. split; reflexivity.
Defined.

(** X12: the buffer with which a worker answers the update request of
    [fetchTLES], having received the collection [fetchTLES] posted, has
    the length of the buffers [fetchTLES] allocated: the handler
    installs it whole, [next] becomes the reply and [prev] the
    placeholder ring. *)
Theorem worker_reply_fits_buffers (L Lw : SatLib) (text : JsString.t)
    (spawn : option nat) (now t1 t2 dateNow : Z) (perfNow : R)
    (ws : Worker.state) (m : main) (w : nat) :
  sgp4Worker (lk m) = Some w ∨ (sgp4Worker (lk m) = None ∧ spawn = Some w) ->
  tlePoints (st m) = true ->
  let m1 := fetchTLES L (Some text) spawn now m in
  let ws1 := fst (Worker.onmessage Lw t1 ws
                    (Worker.SetTLE (Some (tleData (st m1))))) in
  ∃ buf, Worker.onmessage Lw t2 ws1 Worker.Update
         = (ws1, [Worker.Positions buf])
         ∧ length buf = (3 * length (tleData (st m1)))%nat
         ∧ snd (on_positions buf perfNow dateNow (st m1)) = Done
         ∧ nextSatBuffer (fst (on_positions buf perfNow dateNow (st m1)))
           = Some buf
         ∧ prevSatBuffer (fst (on_positions buf perfNow dateNow (st m1)))
           = Some (ring 0.1 (length (tleData (st m1)))).
Proof.
  intros Hw Hpts m1 ws1.
  destruct (fetchTLES_with_worker L text spawn now m w Hw) as [_ Hst].
  fold m1 in Hst.
  set (tle := Parser.parseTLE text) in *.
  assert (Htle : tleData (st m1) = tle) by (by rewrite Hst).
  assert (Ep : prevSatBuffer (st m1) = Some (ring 0.1 (length tle)))
    by (by rewrite Hst).
  assert (En : nextSatBuffer (st m1) = Some (ring 0.1 (length tle)))
    by (by rewrite Hst).
  assert (Hp1 : tlePoints (st m1) = true) by (by rewrite Hst).
  assert (Ha1 : is_Some (tlePositionsAttr (st m1)))
    by (rewrite Hst; by eexists).
  destruct (worker_update_reply Lw t2 ws1) as (buf & Hupd & Hlen).
  assert (Hws : Worker.tleData ws1 = tleData (st m1)) by reflexivity.
  rewrite Hws in Hlen. exists buf.
  split; [exact Hupd|]. split; [exact Hlen|].
  rewrite (on_positions_matching buf _ _ perfNow dateNow (st m1) Ep En);
    try done; [by rewrite Htle|].
  rewrite Hlen, Htle, ring_length. lia.
Qed.

Lemma worker_reply_fits_buffers_witness :
  let m := createSatellites (λ _, 0%R) initial in
  let m1 := fetchTLES raising_lib (Some [73; 10; 49; 10; 50]%N) (Some 4%nat)
              0 m in
  let ws1 := fst (Worker.onmessage steady_lib 1 (Worker.State true [])
                    (Worker.SetTLE (Some (tleData (st m1))))) in
  ∃ buf, Worker.onmessage steady_lib 2 ws1 Worker.Update
         = (ws1, [Worker.Positions buf])
         ∧ length buf = (3 * length (tleData (st m1)))%nat
         ∧ snd (on_positions buf 100 3 (st m1)) = Done
         ∧ nextSatBuffer (fst (on_positions buf 100 3 (st m1))) = Some buf
         ∧ prevSatBuffer (fst (on_positions buf 100 3 (st m1)))
           = Some (ring 0.1 (length (tleData (st m1)))).
Proof.
  intros m.
  apply (worker_reply_fits_buffers raising_lib steady_lib
           [73; 10; 49; 10; 50]%N (Some 4%nat) 0 1 2 3 100
           (Worker.State true []) m 4).
  - right. split; reflexivity.
  - reflexivity.
Defined.

(** X13: with the point cloud in place, a response with fewer than
    three non-blank lines does not lead to the placeholders: the
    collection is empty, both buffers have no cell, and the fallback
    then returns at once, changing nothing. *)
Theorem short_response_empty_collection (L : SatLib) (text : JsString.t)
    (spawn : option nat) (now now' : Z) (perf : R) (m : main) :
  tlePoints (st m) = true ->
  (length (Parser.lines_of text) < 3)%nat ->
  let m1 := fetchTLES L (Some text) spawn now m in
  tleData (st m1) = []
  ∧ prevSatBuffer (st m1) = Some []
  ∧ nextSatBuffer (st m1) = Some []
  ∧ updateTLEPositionsFallback L now' perf (st m1) = (st m1, Done).
Proof.
  intros Hpts Hshort m1.
  assert (Hparse : Parser.parseTLE text = []).
  { rewrite parseTLE_eq.
    by destruct (Parser.lines_of text) as [|a [|b [|c rest]]];
      [..|simpl in Hshort; lia]. }
  assert (Htle : tleData (st m1) = []).
  { destruct (fetchTLES_sized L text spawn now m) as (_ & Ht & _).
    unfold m1. by rewrite Ht. }
  assert (Hbuf : prevSatBuffer (st m1) = Some []
                 ∧ nextSatBuffer (st m1) = Some []).
  { destruct (fetchTLES_sized L text spawn now m)
      as ((p & n & Ep & En & Lp & Ln) & _ & _).
    fold m1 in Ep, En, Lp, Ln. rewrite Htle in Lp, Ln.
    destruct p; [|done]. destruct n; [|done]. done. }
  split; [done|]. split; [apply Hbuf|]. split; [apply Hbuf|].
  unfold updateTLEPositionsFallback. rewrite Htle.
  by destruct (decide (length [] = 0%nat)).
Qed.

Lemma short_response_empty_collection_witness :
  let m1 := fetchTLES raising_lib (Some [73; 10; 49; 10; 32]%N) None 0
              (createSatellites (λ _, 0%R) initial) in
  tleData (st m1) = []
  ∧ prevSatBuffer (st m1) = Some []
  ∧ nextSatBuffer (st m1) = Some []
  ∧ updateTLEPositionsFallback raising_lib 5 6 (st m1) = (st m1, Done).
Proof.
  apply (short_response_empty_collection raising_lib [73; 10; 49; 10; 32]%N
           None 0 5 6 (createSatellites (λ _, 0%R) initial)).
  - reflexivity.
  - vm_compute. lia.
Defined.

(** ** [findIssTleIndex] *)

Section IssFacts.
Variable toLowerCase : JsString.t -> JsString.t.

Lemma starts_with_spec (sub s : JsString.t) :
  Iss.starts_with sub s = true <-> ∃ b, s = sub ++ b.
Proof.
  revert s. induction sub as [|c sub IH]; intros s; simpl.
  - split; [by exists s|done].
  - destruct s as [|d s].
    + split; [done|]. by intros [b Hb].
    + rewrite andb_true_iff, N.eqb_eq, IH. split.
      * intros [-> [b ->]]. by exists b.
      * intros [b [= -> ->]]. split; [done|by exists b].
Qed.

Lemma includes_spec (s sub : JsString.t) :
  Iss.includes s sub = true <-> ∃ a b, s = a ++ sub ++ b.
Proof.
  induction s as [|d s IH].
  - simpl. rewrite orb_false_r, starts_with_spec. split.
    + intros [b Hb]. by exists [], b.
    + intros (a & b & Hab). destruct a; [by exists b|done].
  - cbn [Iss.includes]. rewrite orb_true_iff, starts_with_spec, IH. split.
    + intros [[b Hb]|(a & b & ->)]; [by exists [], b|by exists (d :: a), b].
    + intros (a & b & Hab). destruct a as [|d' a].
      * left. by exists b.
      * right. injection Hab as -> ->. by exists a, b.
Qed.

Lemma iss_loop_spec (tle : list entry) (fuel i : nat) :
  (length tle <= i + fuel)%nat ->
  (Iss.loop toLowerCase fuel tle i = (-1)%Z
   ∧ ∀ j u, (i <= j)%nat -> tle !! j = Some u ->
       Iss.is_iss toLowerCase u = false)
  ∨ (∃ k t, Iss.loop toLowerCase fuel tle i = Z.of_nat k
            ∧ (i <= k)%nat ∧ tle !! k = Some t
            ∧ Iss.is_iss toLowerCase t = true
            ∧ ∀ j u, (i <= j < k)%nat -> tle !! j = Some u ->
                Iss.is_iss toLowerCase u = false).
Proof.
  revert i. induction fuel as [|fuel IH]; intros i Hfuel; simpl.
  - left. split; [done|]. intros j u Hj Hu.
    apply lookup_lt_Some in Hu. lia.
  - destruct (decide (i < length tle)%nat) as [Hi|Hi].
    2:{ left. split; [done|]. intros j u Hj Hu.
        apply lookup_lt_Some in Hu. lia. }
    destruct (lookup_lt_is_Some_2 tle i Hi) as [t Ht]. rewrite Ht.
    destruct (Iss.is_iss toLowerCase t) eqn:Hm.
    + right. exists i, t. repeat split; try done. intros j u Hj. lia.
    + destruct (IH (S i)) as [[Hr Hall]|(k & t' & Hr & Hk & Ht' & Hm' & Hall)];
        [lia| |].
      * left. split; [done|]. intros j u Hj Hu.
        destruct (decide (j = i)) as [->|Hne]; [congruence|].
        apply (Hall j u); [lia|done].
      * right. exists k, t'. repeat split; try done; [lia|].
        intros j u Hj Hu.
        destruct (decide (j = i)) as [->|Hne]; [congruence|].
        apply (Hall j u); [lia|done].
Qed.

End IssFacts.

(** X14: [findIssTleIndex] returns -1 exactly when no entry has a name
    whose lower-case form contains "iss" or "international space
    station"; otherwise it returns the index of the first such entry; an
    entry without a name never matches a name it does not have. *)
Theorem findIssTleIndex_first_match (toLowerCase : JsString.t -> JsString.t)
    (tle : list entry) :
  let r := Iss.findIssTleIndex toLowerCase tle in
  (-1 <= r < Z.of_nat (length tle))%Z
  ∧ (r = (-1)%Z <-> ∀ t, t ∈ tle -> Iss.is_iss toLowerCase t = false)
  ∧ (∀ i, r = Z.of_nat i ->
       ∃ t, tle !! i = Some t ∧ Iss.is_iss toLowerCase t = true
            ∧ ∀ j u, (j < i)%nat -> tle !! j = Some u ->
                Iss.is_iss toLowerCase u = false)
  ∧ (∀ t, Iss.is_iss toLowerCase t = true <->
       ∃ a b, toLowerCase (str (name t)) = a ++ JsString.of_string "iss" ++ b
              ∨ toLowerCase (str (name t))
                = a ++ JsString.of_string "international space station" ++ b).
Proof.
  intros r.
  assert (Hr : r = Iss.loop toLowerCase (length tle) tle 0).
  { unfold r, Iss.findIssTleIndex.
    destruct (decide (length tle = 0%nat)) as [E|_]; [|done].
    by destruct tle. }
  destruct (iss_loop_spec toLowerCase tle (length tle) 0)
    as [[Hm Hall]|(k & t & Hk & _ & Ht & Hm & Hall)]; [lia| |].
  - rewrite Hr, Hm. split; [lia|]. split; [|split].
    + split; [|done]. intros _ t Ht.
      apply list_elem_of_lookup_1 in Ht as [j Hj]. apply (Hall j t); [lia|done].
    + intros i Hi. lia.
    + intros t. unfold Iss.is_iss. cbv zeta.
      rewrite orb_true_iff, !includes_spec. split.
      * intros [(a & b & H)|(a & b & H)]; exists a, b; [by left|by right].
      * intros (a & b & [H|H]); [left|right]; by exists a, b.
  - pose proof (lookup_lt_Some _ _ _ Ht) as Hlt.
    rewrite Hr, Hk. split; [lia|]. split; [|split].
    + split; [lia|]. intros Hnone.
      rewrite (Hnone t) in Hm; [done|by eapply list_elem_of_lookup_2].
    + intros i Hi. assert (i = k) as -> by lia.
      exists t. repeat split; try done.
      intros j u Hj Hu. apply (Hall j u); [lia|done].
    + intros t'. unfold Iss.is_iss. cbv zeta.
      rewrite orb_true_iff, !includes_spec. split.
      * intros [(a & b & H)|(a & b & H)]; exists a, b; [by left|by right].
      * intros (a & b & [H|H]); [left|right]; by exists a, b.
Qed.

(** ** The update timer *)

Lemma clearInterval_only (h issued0 : nat) (t : option nat) :
  Timer.running (Timer.clearInterval h (Timer.State t [h] issued0)) = [].
Proof.
  unfold Timer.clearInterval. cbn. by rewrite Nat.eqb_refl.
Qed.

Lemma timer_invariant (calls : list Timer.call) :
  let s := foldl Timer.apply Timer.initial calls in
  Timer.running s = option_list (Timer.tleUpdateTimer s).
Proof.
  induction calls as [|c calls IH] using rev_ind; [done|].
  rewrite foldl_snoc. cbv zeta in *.
  destruct (foldl Timer.apply Timer.initial calls) as [t run iss].
  cbn in IH. subst run.
  destruct c, t as [h|]; cbn; rewrite ?Nat.eqb_refl; done.
Qed.

(** X15: however often the update loop is started and stopped, at
    most one interval set by it is running: the one whose handle
    [tleUpdateTimer] holds; after a stop none is running, after a start
    exactly one, a new one. *)
Theorem one_update_timer (calls : list Timer.call) :
  let s := foldl Timer.apply Timer.initial calls in
  Timer.running s = option_list (Timer.tleUpdateTimer s)
  ∧ (length (Timer.running s) <= 1)%nat
  ∧ Timer.running (Timer.stopTleUpdateLoop s) = []
  ∧ Timer.tleUpdateTimer (Timer.stopTleUpdateLoop s) = None
  ∧ Timer.running (Timer.startTleUpdateLoop s) = [S (Timer.issued s)]
  ∧ Timer.tleUpdateTimer (Timer.startTleUpdateLoop s)
    = Some (S (Timer.issued s)).
Proof.
  intros s. pose proof (timer_invariant calls) as Hinv. cbv zeta in Hinv.
  fold s in Hinv. split; [done|]. split.
  { rewrite Hinv. destruct (Timer.tleUpdateTimer s); simpl; lia. }
  destruct s as [t run iss]. cbn in Hinv. subst run.
  destruct t as [h|]; cbn; rewrite ?Nat.eqb_refl; done.
Qed.

(** ** Astronomy and geodesy utilities *)

Section AstroFacts.
Import Astro.

(** X16: [deg2rad] and [rad2deg] undo each other. *)
Theorem deg_rad_round_trip (x : R) :
  rad2deg (deg2rad x) = x ∧ deg2rad (rad2deg x) = x.
Proof.
  pose proof PI_RGT_0. unfold rad2deg, deg2rad. split; field; lra.
Qed.

Lemma trunc_bounds (x : R) :
  ((0 <= x -> IZR (trunc x) <= x < IZR (trunc x) + 1)
   ∧ (x < 0 -> IZR (trunc x) - 1 < x <= IZR (trunc x)))%R.
Proof.
  unfold trunc. destruct (Rle_dec 0 x) as [Hx|Hx].
  - split; [|lra]. intros _. pose proof (base_Int_part x). lra.
  - split; [lra|]. intros _. pose proof (base_Int_part (- x)).
    rewrite opp_IZR. lra.
Qed.

Lemma rem_bounds (x y : R) :
  (0 < y)%R ->
  ((0 <= x -> 0 <= rem x y < y) ∧ (x < 0 -> - y < rem x y <= 0))%R.
Proof.
  intros Hy. unfold rem.
  destruct (trunc_bounds (x / y)) as [Hpos Hneg].
  assert (Hxy : (x = y * (x / y))%R) by (field; lra).
  split; intros Hx.
  - assert (Hq : (0 <= x / y)%R).
    { apply Rmult_le_pos; [done|]. apply Rlt_le, Rinv_0_lt_compat, Hy. }
    specialize (Hpos Hq). nra.
  - assert (Hq : (x / y < 0)%R).
    { pose proof (Rinv_0_lt_compat y Hy). unfold Rdiv. nra. }
    specialize (Hneg Hq). nra.
Qed.

(** X17: the sidereal angle both direction functions use is the one
    value in [0, 360) that differs from the polynomial in [JD] by a
    whole number of turns. *)
Theorem gmst_degrees_range (JD : R) :
  let T := ((JD - 2451545.0) / 36525.0)%R in
  let G := (280.46061837 + 360.98564736629 * (JD - 2451545.0)
            + 0.000387933 * T * T - (T * T * T) / 38710000.0)%R in
  (0 <= gmst_degrees JD < 360)%R
  ∧ ∃ k : Z, gmst_degrees JD = (G + 360 * IZR k)%R.
Proof.
  intros T G. unfold gmst_degrees. fold T. fold G. cbv zeta.
  assert (H360 : (0 < 360)%R) by lra.
  destruct (rem_bounds G 360 H360) as [Hp Hn].
  assert (H1 : (0 <= rem G 360 + 360)%R).
  { destruct (Rle_dec 0 G) as [HG|HG]; [specialize (Hp HG); lra|].
    assert (HG' : (G < 0)%R) by lra. specialize (Hn HG'). lra. }
  split; [exact (proj1 (rem_bounds _ 360 H360) H1)|].
  set (r1 := rem G 360).
  assert (Hr1 : r1 = (G - 360 * IZR (trunc (G / 360)))%R) by reflexivity.
  exists (1 - trunc (G / 360) - trunc ((r1 + 360) / 360))%Z.
  rewrite !minus_IZR. unfold rem. lra.
Qed.

Lemma normalize_length (v : vec3) :
  (0 < vx v * vx v + vy v * vy v + vz v * vz v)%R ->
  vlength (normalize v) = 1%R.
Proof.
  intros Hpos. unfold normalize. cbv zeta.
  set (S := (vx v * vx v + vy v * vy v + vz v * vz v)%R) in *.
  assert (Hl : vlength v = sqrt S) by reflexivity.
  pose proof (sqrt_lt_R0 S Hpos) as Hs.
  pose proof (sqrt_sqrt S (Rlt_le _ _ Hpos)) as Hss.
  rewrite Hl. destruct (Req_dec_T (sqrt S) 0) as [E|_]; [lra|].
  unfold vlength. cbn [vx vy vz].
  replace (vx v * (1 / sqrt S) * (vx v * (1 / sqrt S))
           + vy v * (1 / sqrt S) * (vy v * (1 / sqrt S))
           + vz v * (1 / sqrt S) * (vz v * (1 / sqrt S)))%R
    with ((vx v * vx v + vy v * vy v + vz v * vz v)
          * (1 / sqrt S * (1 / sqrt S)))%R by ring.
  fold S.
  replace (S * (1 / sqrt S * (1 / sqrt S)))%R
    with (S / (sqrt S * sqrt S))%R by (field; lra).
  rewrite Hss. replace (S / S)%R with 1%R by (field; lra).
  apply sqrt_1.
Qed.

Lemma rotation_square (x y c s : R) :
  (s * s + c * c = 1)%R ->
  ((x * c + y * s) * (x * c + y * s)
   + (- x * s + y * c) * (- x * s + y * c) = x * x + y * y)%R.
Proof. intros H. nra. Qed.

(** X18: [computeSunEcef] returns a vector of length 1 for every
    time. *)
Theorem computeSunEcef_unit (time : Z) : vlength (computeSunEcef time) = 1%R.
Proof.
  unfold computeSunEcef. cbv zeta. apply normalize_length. cbn [vx vy vz].
  match goal with
  | |- context [deg2rad (gmst_degrees ?jd)] =>
      set (th := deg2rad (gmst_degrees jd))
  end.
  match goal with
  | |- context [cos (deg2rad (rem ?e 360))] =>
      set (lam := deg2rad (rem e 360))
  end.
  match goal with
  | |- context [cos (deg2rad (23.439 - ?e))] =>
      set (eps := deg2rad (23.439 - e))
  end.
  pose proof (sin2_cos2 th) as Hth. pose proof (sin2_cos2 lam) as Hl.
  pose proof (sin2_cos2 eps) as He. unfold Rsqr in *.
  rewrite rotation_square by done.
  replace (cos lam * cos lam + cos eps * sin lam * (cos eps * sin lam)
           + sin eps * sin lam * (sin eps * sin lam))%R
    with (cos lam * cos lam
          + sin lam * sin lam * (sin eps * sin eps + cos eps * cos eps))%R
    by ring.
  rewrite He. lra.
Qed.

End AstroFacts.

Section AstroMore.
Import Astro.

Lemma moon_square (r cN sN cv sv ci si ce se ct st_ : R) :
  (sN * sN + cN * cN = 1)%R -> (sv * sv + cv * cv = 1)%R ->
  (si * si + ci * ci = 1)%R -> (se * se + ce * ce = 1)%R ->
  (st_ * st_ + ct * ct = 1)%R ->
  ((r * (cN * cv - sN * sv * ci) * ct
    + (r * (sN * cv + cN * sv * ci) * ce - r * (sv * si) * se) * st_)
   * (r * (cN * cv - sN * sv * ci) * ct
      + (r * (sN * cv + cN * sv * ci) * ce - r * (sv * si) * se) * st_)
   + (- (r * (cN * cv - sN * sv * ci)) * st_
      + (r * (sN * cv + cN * sv * ci) * ce - r * (sv * si) * se) * ct)
     * (- (r * (cN * cv - sN * sv * ci)) * st_
        + (r * (sN * cv + cN * sv * ci) * ce - r * (sv * si) * se) * ct)
   + (r * (sN * cv + cN * sv * ci) * se + r * (sv * si) * ce)
     * (r * (sN * cv + cN * sv * ci) * se + r * (sv * si) * ce)
   = r * r)%R.
Proof.
  intros HN Hv Hi He Ht.
  set (xe := (r * (cN * cv - sN * sv * ci))%R).
  set (ye := (r * (sN * cv + cN * sv * ci))%R).
  set (ze := (r * (sv * si))%R).
  rewrite (rotation_square xe (ye * ce - ze * se) ct st_ Ht).
  replace (xe * xe + (ye * ce - ze * se) * (ye * ce - ze * se)
           + (ye * se + ze * ce) * (ye * se + ze * ce))%R
    with (xe * xe + (ye * ye + ze * ze) * (se * se + ce * ce))%R by ring.
  rewrite He, Rmult_1_r. unfold xe, ye, ze.
  replace (r * (cN * cv - sN * sv * ci) * (r * (cN * cv - sN * sv * ci))
           + (r * (sN * cv + cN * sv * ci) * (r * (sN * cv + cN * sv * ci))
              + r * (sv * si) * (r * (sv * si))))%R
    with (r * r * ((sN * sN + cN * cN) * (cv * cv + sv * sv * ci * ci)
                   + sv * sv * (si * si)))%R by ring.
  rewrite HN, Rmult_1_l.
  replace (cv * cv + sv * sv * ci * ci + sv * sv * (si * si))%R
    with (cv * cv + sv * sv * (si * si + ci * ci))%R by ring.
  rewrite Hi, Rmult_1_r.
  replace (cv * cv + sv * sv)%R with (sv * sv + cv * cv)%R by ring.
  rewrite Hv. ring.
Qed.

Lemma moon_radius_positive (cE sE : R) :
  (sE * sE + cE * cE = 1)%R ->
  let a := 60.2666%R in
  let e := 0.054900%R in
  let xv := (a * (cE - e))%R in
  let yv := (a * sqrt (1 - e * e) * sE)%R in
  (0 < xv * xv + yv * yv)%R.
Proof.
  intros HE a e xv yv.
  assert (He : (0 <= 1 - e * e)%R) by (unfold e; lra).
  pose proof (sqrt_sqrt _ He) as Hs.
  assert (Hc : (cE <= 1)%R) by nra.
  replace (xv * xv + yv * yv)%R
    with (a * a * ((cE - e) * (cE - e)
                   + sqrt (1 - e * e) * sqrt (1 - e * e) * (sE * sE)))%R
    by (unfold xv, yv; ring).
  rewrite Hs.
  replace ((cE - e) * (cE - e) + (1 - e * e) * (sE * sE))%R
    with ((1 - e * cE) * (1 - e * cE)
          + (1 - e * e) * (sE * sE + cE * cE - 1))%R by ring.
  rewrite HE. unfold a, e in *. nra.
Qed.

(** X19: [computeMoonEcef] returns a vector of length 1 for every time,
    whatever angle [Math.atan2] gives. *)
Theorem computeMoonEcef_unit (atan2 : R -> R -> R) (time : Z) :
  vlength (computeMoonEcef atan2 time) = 1%R.
Proof.
  unfold computeMoonEcef. cbv zeta. apply normalize_length. cbn [vx vy vz].
  match goal with
  | |- context [deg2rad (gmst_degrees ?jd)] =>
      set (th := deg2rad (gmst_degrees jd))
  end.
  match goal with
  | |- context [cos (deg2rad (rem (125.1228 - ?e) 360))] =>
      set (N := deg2rad (rem (125.1228 - e) 360))
  end.
  match goal with
  | |- context [rem (115.3654 + ?e) 360] =>
      set (M := deg2rad (rem (115.3654 + e) 360))
  end.
  set (E := (M + 0.054900 * sin M * (1 + 0.054900 * cos M))%R).
  set (xv := (60.2666 * (cos E - 0.054900))%R).
  set (yv := (60.2666 * sqrt (1 - 0.054900 * 0.054900) * sin E)%R).
  set (r := sqrt (xv * xv + yv * yv)).
  match goal with
  | |- context [rem (318.0634 + ?e) 360] =>
      set (w := deg2rad (rem (318.0634 + e) 360))
  end.
  set (vw := (atan2 yv xv + w)%R).
  set (i := deg2rad 5.1454). set (eps := deg2rad 23.4397).
  assert (Htrig : ∀ x, (sin x * sin x + cos x * cos x = 1)%R).
  { intros x. pose proof (sin2_cos2 x) as Hx. exact Hx. }
  rewrite (moon_square r (cos N) (sin N) (cos vw) (sin vw) (cos i) (sin i)
             (cos eps) (sin eps) (cos th) (sin th)) by apply Htrig.
  assert (Hq : (0 < xv * xv + yv * yv)%R)
    by exact (moon_radius_positive (cos E) (sin E) (Htrig E)).
  unfold r. by rewrite (sqrt_sqrt _ (Rlt_le _ _ Hq)).
Qed.

(** X20: [latLonAltToEcef] puts a point of altitude 0 on the WGS84
    ellipsoid, and a point of altitude [altM] at [altM] metres from it
    along the direction (cos lat cos lon, cos lat sin lon, sin lat). *)
Theorem latLonAltToEcef_ellipsoid (latDeg lonDeg altM : R) :
  let a := 6378137.0%R in
  let f := (1 / 298.257223563)%R in
  let e2 := (f * (2 - f))%R in
  let lat := deg2rad latDeg in
  let lon := deg2rad lonDeg in
  let p0 := latLonAltToEcef latDeg lonDeg 0 in
  let p := latLonAltToEcef latDeg lonDeg altM in
  ((vx p0 * vx p0 + vy p0 * vy p0) / (a * a)
   + vz p0 * vz p0 / (a * a * (1 - e2)) = 1)%R
  ∧ vx p = (vx p0 + altM * (cos lat * cos lon))%R
  ∧ vy p = (vy p0 + altM * (cos lat * sin lon))%R
  ∧ vz p = (vz p0 + altM * sin lat)%R.
Proof.
  intros a f e2 lat lon p0 p.
  unfold p, p0, latLonAltToEcef. cbv zeta. cbn [vx vy vz].
  fold a. fold f. fold e2. fold lat. fold lon.
  assert (He2 : (0 < e2 < 1)%R) by (unfold e2, f; lra).
  assert (Ha : (0 < a)%R) by (unfold a; lra).
  pose proof (sin2_cos2 lat) as Hlat. pose proof (sin2_cos2 lon) as Hlon.
  unfold Rsqr in Hlat, Hlon.
  assert (HD : (0 < 1 - e2 * sin lat * sin lat)%R) by nra.
  pose proof (sqrt_lt_R0 _ HD) as Hs.
  pose proof (sqrt_sqrt _ (Rlt_le _ _ HD)) as Hss.
  set (s := sqrt (1 - e2 * sin lat * sin lat)) in *.
  clearbody e2 a. split; [|repeat split; ring].
  replace ((((a / s + 0) * cos lat * cos lon) * ((a / s + 0) * cos lat * cos lon)
            + ((a / s + 0) * cos lat * sin lon)
              * ((a / s + 0) * cos lat * sin lon)) / (a * a)
           + (((1 - e2) * (a / s) + 0) * sin lat)
             * (((1 - e2) * (a / s) + 0) * sin lat) / (a * a * (1 - e2)))%R
    with ((cos lat * cos lat * (sin lon * sin lon + cos lon * cos lon)
           + (1 - e2) * (sin lat * sin lat)) / (s * s))%R
    by (field; lra).
  rewrite Hlon, Hss, Rmult_1_r.
  replace (cos lat * cos lat + (1 - e2) * (sin lat * sin lat))%R
    with (sin lat * sin lat + cos lat * cos lat - e2 * sin lat * sin lat)%R
    by ring.
  rewrite Hlat. field. lra.
Qed.

End AstroMore.

(** ** The parser on a well-formed file *)

Section ParserMore.
Import JsString Parser.

Lemma split_nl_line (l rest : JsString.t) :
  newline ∉ l -> split_nl (l ++ newline :: rest) = l :: split_nl rest.
Proof.
  induction l as [|c l IH]; intros Hl; simpl.
  - done.
  - apply not_elem_of_cons in Hl as [Hc Hl].
    destruct (N.eqb c newline) eqn:E; [apply N.eqb_eq in E; congruence|].
    by rewrite IH.
Qed.

Lemma split_nl_single (l : JsString.t) : newline ∉ l -> split_nl l = [l].
Proof.
  induction l as [|c l IH]; intros Hl; simpl; [done|].
  apply not_elem_of_cons in Hl as [Hc Hl].
  destruct (N.eqb c newline) eqn:E; [apply N.eqb_eq in E; congruence|].
  by rewrite IH.
Qed.

Lemma split_nl_join (l : JsString.t) (ls : list JsString.t) :
  Forall clean_line (l :: ls) -> split_nl (join_nl (l :: ls)) = l :: ls.
Proof.
  revert l. induction ls as [|l' ls IH]; intros l Hall.
  - inversion Hall as [|? ? (_ & Hnl & _) _]; subst.
    by apply split_nl_single.
  - inversion Hall as [|? ? (_ & Hnl & _) Hrest]; subst.
    cbn [join_nl]. rewrite split_nl_line by done. f_equal. by apply IH.
Qed.

Lemma filter_trim_clean (ls : list JsString.t) :
  Forall clean_line ls -> List.filter truthy (trim <$> ls) = ls.
Proof.
  induction 1 as [|l ls (Hne & _ & Htrim) _ IH]; [done|].
  cbn [fmap list_fmap List.filter]. rewrite Htrim.
  destruct l; [done|]. cbn [truthy]. f_equal. exact IH.
Qed.

End ParserMore.

(** X21: a file made of clean lines (not empty, no white space at
    either end), one per line, is read back line for line: the
    collection parsed from it is exactly its lines three by three,
    [length ls / 3] entries. *)
Theorem parse_well_formed_file (ls : list JsString.t) :
  Forall clean_line ls ->
  Parser.lines_of (join_nl ls) = ls
  ∧ Parser.parseTLE (join_nl ls) = Parser.triplets ls
  ∧ length (Parser.parseTLE (join_nl ls)) = (length ls / 3)%nat.
Proof.
  intros Hall.
  assert (Hlines : Parser.lines_of (join_nl ls) = ls).
  { unfold Parser.lines_of. destruct ls as [|l ls]; [done|].
    rewrite split_nl_join by done. by apply filter_trim_clean. }
  split; [done|]. rewrite parseTLE_eq, Hlines.
  split; [done|apply triplets_length].
Qed.

Lemma parse_well_formed_file_witness :
  Parser.parseTLE (join_nl [[73; 83; 83]; [49; 32; 65]; [50; 32; 66]]%N)
  = Parser.triplets [[73; 83; 83]; [49; 32; 65]; [50; 32; 66]]%N.
Proof.
  apply (parse_well_formed_file [[73; 83; 83]; [49; 32; 65]; [50; 32; 66]]%N).
  repeat constructor; try discriminate;
    rewrite ?list_elem_of_In; simpl; intuition discriminate.
Defined.

(** ** The lines the parser reads *)

Section LineFacts.
Import JsString Parser.

Lemma padding_blank (w : JsString.t) : Lines.padding w -> blank w.
Proof.
  intros H. unfold blank. eapply Forall_impl; [exact H|]. by intros c [Hc _].
Qed.

Lemma padding_newline (w : JsString.t) : Lines.padding w -> newline ∉ w.
Proof.
  intros H Hin. apply (proj1 (Forall_forall _ _) H) in Hin. by destruct Hin.
Qed.

Lemma raw_newline (p : Lines.piece) :
  Lines.well_formed p -> newline ∉ Lines.raw p.
Proof.
  intros (Hb & Ha & _ & Hc). unfold Lines.raw.
  rewrite !not_elem_of_app. auto using padding_newline.
Qed.

Lemma trimStart_tight (c : N) (l : JsString.t) :
  is_ws c = false -> trimStart (c :: l) = c :: l.
Proof. intros H. simpl. by rewrite H. Qed.

Lemma trimEnd_tight (l : JsString.t) :
  (∀ c, last l = Some c -> is_ws c = false) -> trimEnd l = l.
Proof.
  intros Hlast. unfold trimEnd.
  destruct (reverse l) as [|x r] eqn:Hr.
  - apply (f_equal reverse) in Hr. by rewrite reverse_involutive in Hr.
  - assert (Hx : last l = Some x).
    { rewrite <- (reverse_involutive l), Hr, reverse_cons. apply last_snoc. }
    rewrite trimStart_tight by (by apply Hlast).
    rewrite <- Hr. apply reverse_involutive.
Qed.

Lemma trim_raw (p : Lines.piece) :
  Lines.well_formed p -> trim (Lines.raw p) = Lines.core p.
Proof.
  destruct p as [b c a]. unfold Lines.well_formed, Lines.raw.
  cbn [Lines.before Lines.core Lines.after].
  intros (Hb & Ha & [Hhd Hlst] & _). unfold trim.
  rewrite trimStart_blank by (by apply padding_blank).
  destruct c as [|c0 c].
  - cbn [app]. apply padding_blank, trimStart_nil_blank in Ha.
    by rewrite Ha.
  - rewrite <- app_comm_cons, trimStart_tight by (by apply Hhd).
    rewrite app_comm_cons, trimEnd_blank by (by apply padding_blank).
    by apply trimEnd_tight.
Qed.

Lemma filter_trim_raw (ps : list Lines.piece) :
  Forall Lines.well_formed ps ->
  List.filter truthy (trim <$> (Lines.raw <$> ps)) = Lines.cores ps.
Proof.
  induction 1 as [|p ps Hp _ IH]; [done|].
  cbn [fmap list_fmap List.filter]. rewrite trim_raw by done.
  unfold Lines.cores. cbn [fmap list_fmap]. rewrite filter_cons.
  destruct (Lines.core p) as [|c l]; cbn [truthy].
  - rewrite decide_False by (by intros H). exact IH.
  - rewrite decide_True by done. f_equal. exact IH.
Qed.

Lemma split_nl_join_lines (l : JsString.t) (ls : list JsString.t) :
  Forall (λ l, newline ∉ l) (l :: ls) ->
  split_nl (join_nl (l :: ls)) = l :: ls.
Proof.
  revert l. induction ls as [|l' ls IH]; intros l Hall.
  - inversion Hall; subst. by apply split_nl_single.
  - inversion Hall; subst.
    cbn [join_nl]. rewrite split_nl_line by done. f_equal. by apply IH.
Qed.

Lemma lines_of_text (ps : list Lines.piece) :
  Forall Lines.well_formed ps -> lines_of (Lines.text_of ps) = Lines.cores ps.
Proof.
  intros Hall. unfold lines_of, Lines.text_of.
  destruct ps as [|p ps]; [done|].
  cbn [fmap list_fmap]. rewrite split_nl_join_lines.
  - exact (filter_trim_raw (p :: ps) Hall).
  - change (Forall (λ l, newline ∉ l) (Lines.raw <$> p :: ps)).
    apply Forall_fmap. eapply Forall_impl; [exact Hall|].
    intros q Hq. by apply raw_newline.
Qed.

Lemma join_split (s : JsString.t) : join_nl (split_nl s) = s.
Proof.
  induction s as [|c s IH]; [done|]. cbn [split_nl].
  destruct (split_nl s) as [|l ls] eqn:Hs.
  { destruct (split_nl_cons s) as (l & ls & H). congruence. }
  destruct (N.eqb c newline) eqn:E.
  - apply N.eqb_eq in E as ->.
    change (join_nl ([] :: l :: ls)) with (newline :: join_nl (l :: ls)).
    by rewrite IH.
  - rewrite <- IH. by destruct ls.
Qed.

Lemma split_nl_newline_free (s : JsString.t) :
  Forall (λ l, newline ∉ l) (split_nl s).
Proof.
  induction s as [|c s IH]; cbn [split_nl].
  - constructor; [apply not_elem_of_nil|constructor].
  - destruct (N.eqb c newline) eqn:E.
    + constructor; [apply not_elem_of_nil|exact IH].
    + apply N.eqb_neq in E.
      destruct (split_nl s) as [|l ls].
      * constructor; [|constructor].
        apply not_elem_of_cons. split; [done|apply not_elem_of_nil].
      * inversion IH; subst. constructor; [|done].
        apply not_elem_of_cons. split; [done|done].
Qed.

Lemma trimStart_prefix (l : JsString.t) :
  ∃ a, l = a ++ trimStart l ∧ blank a.
Proof.
  induction l as [|c l (a & Hl & Ha)].
  - exists []. split; [done|constructor].
  - cbn [trimStart]. destruct (is_ws c) eqn:E.
    + exists (c :: a). split; [by rewrite Hl at 1|by constructor].
    + exists []. split; [done|constructor].
Qed.

Lemma trimStart_head (l : JsString.t) (c : N) :
  head (trimStart l) = Some c -> is_ws c = false.
Proof.
  induction l as [|d l IH]; [done|]. cbn [trimStart].
  destruct (is_ws d) eqn:E; [exact IH|]. by intros [= <-].
Qed.

Lemma trimEnd_suffix (l : JsString.t) : ∃ b, l = trimEnd l ++ b ∧ blank b.
Proof.
  destruct (trimStart_prefix (reverse l)) as (a & Hl & Ha).
  exists (reverse a). split; [|by apply blank_reverse].
  unfold trimEnd. rewrite <- reverse_app, <- Hl.
  by rewrite reverse_involutive.
Qed.

Lemma trimEnd_last (l : JsString.t) (c : N) :
  last (trimEnd l) = Some c -> is_ws c = false.
Proof. unfold trimEnd. rewrite last_reverse. apply trimStart_head. Qed.

Lemma line_piece (l : JsString.t) :
  newline ∉ l -> ∃ p, Lines.well_formed p ∧ Lines.raw p = l.
Proof.
  intros Hnl.
  destruct (trimStart_prefix l) as (a & Hl & Ha).
  destruct (trimEnd_suffix (trimStart l)) as (b & Hx & Hb).
  fold (trim l) in Hx.
  assert (Hraw : a ++ trim l ++ b = l) by (by rewrite <- Hx, <- Hl).
  assert (Hin : ∀ c, c ∈ a ++ trim l ++ b -> c ≠ newline).
  { intros c Hc ->. by rewrite Hraw in Hc. }
  assert (Hpad : ∀ w, blank w -> (∀ c, c ∈ w -> c ≠ newline) ->
                      Lines.padding w).
  { intros w Hw Hc. apply Forall_forall. intros c Hcw. split; [|by apply Hc].
    by apply (proj1 (Forall_forall _ _) Hw). }
  exists (Lines.Piece a (trim l) b). split; [|exact Hraw].
  unfold Lines.well_formed. cbn [Lines.before Lines.core Lines.after].
  split; [|split; [|split; [split|]]].
  - apply Hpad; [done|]. intros c Hc. apply Hin.
    apply elem_of_app. by left.
  - apply Hpad; [done|]. intros c Hc. apply Hin.
    rewrite !elem_of_app. by right; right.
  - intros c Hc. apply (trimStart_head l). rewrite Hx.
    destruct (trim l); [done|exact Hc].
  - intros c Hc. by apply (trimEnd_last (trimStart l)).
  - intros Hc. apply (Hin newline); [|done].
    rewrite !elem_of_app. by right; left.
Qed.

Lemma text_pieces (text : JsString.t) :
  ∃ ps, Forall Lines.well_formed ps ∧ text = Lines.text_of ps.
Proof.
  assert (H : ∀ ls, Forall (λ l, newline ∉ l) ls ->
            ∃ ps, Forall Lines.well_formed ps ∧ Lines.raw <$> ps = ls).
  { induction 1 as [|l ls Hl _ (ps & Hps & Hraw)].
    - by exists [].
    - destruct (line_piece l Hl) as (p & Hp & Hr).
      exists (p :: ps). split; [by constructor|].
      cbn [fmap list_fmap]. by rewrite Hr, Hraw. }
  destruct (H (split_nl text) (split_nl_newline_free text)) as (ps & Hps & Hr).
  exists ps. split; [done|].
  unfold Lines.text_of. by rewrite Hr, join_split.
Qed.

Lemma triplets_lookup (ls : list JsString.t) (k : nat) (n a b : JsString.t) :
  ls !! (3 * k)%nat = Some n -> ls !! (3 * k + 1)%nat = Some a ->
  ls !! (3 * k + 2)%nat = Some b ->
  triplets ls !! k = Some (Entry (Some n) (Some a) (Some b)).
Proof.
  revert ls. induction k as [|k IH]; intros ls H1 H2 H3.
  - destruct ls as [|x [|y [|z r]]]; try done.
    cbn in H1, H2, H3. by simplify_eq.
  - pose proof (lookup_lt_Some _ _ _ H3) as Hlen.
    destruct ls as [|x [|y [|z r]]]; cbn [length] in Hlen; try lia.
    replace (3 * S k)%nat with (S (S (S (3 * k)))) in H1 by lia.
    replace (3 * S k + 1)%nat with (S (S (S (3 * k + 1)))) in H2 by lia.
    replace (3 * S k + 2)%nat with (S (S (S (3 * k + 2)))) in H3 by lia.
    cbn [triplets]. rewrite lookup_cons_ne_0 by lia. cbn [Nat.pred].
    apply IH; assumption.
Qed.

End LineFacts.

(** C8: every text is lines joined by newlines, each line white space
    around a core without white space at its ends; the parser's entries
    are the cores that are not empty, three at a time and in order
    (name, line 1, line 2), an incomplete last group dropped; blank
    text after the data changes nothing; every parsed entry has a
    non-empty first and second line. *)
Theorem parseTLE_groups_of_three (text : JsString.t) :
  (∃ ps, Forall Lines.well_formed ps ∧ text = Lines.text_of ps)
  ∧ ∀ ps, Forall Lines.well_formed ps -> text = Lines.text_of ps ->
      let kept := Lines.cores ps in
      Parser.parseTLE text = Parser.triplets kept
      ∧ length (Parser.parseTLE text) = (length kept / 3)%nat
      ∧ (∀ k n a b,
           kept !! (3 * k)%nat = Some n -> kept !! (3 * k + 1)%nat = Some a ->
           kept !! (3 * k + 2)%nat = Some b ->
           Parser.parseTLE text !! k = Some (Entry (Some n) (Some a) (Some b)))
      ∧ (∀ tail, JsString.blank tail ->
           Parser.parseTLE (text ++ tail) = Parser.parseTLE text)
      ∧ Forall (λ e, ∃ l1 l2, tle1 e = Some l1 ∧ tle2 e = Some l2
                              ∧ l1 ≠ [] ∧ l2 ≠ [])
               (Parser.parseTLE text).
Proof.
  split; [apply text_pieces|]. intros ps Hps -> kept.
  assert (Hparse : Parser.parseTLE (Lines.text_of ps) = Parser.triplets kept).
  { rewrite parseTLE_eq. by rewrite lines_of_text. }
  split; [exact Hparse|]. split; [|split; [|split]].
  - rewrite Hparse. apply triplets_length.
  - intros k n a b H1 H2 H3. rewrite Hparse. by apply triplets_lookup.
  - intros tail Ht. unfold Parser.parseTLE.
    by rewrite lines_of_blank_suffix.
  - rewrite parseTLE_eq. apply triplets_lines, lines_of_truthy.
Qed.

Lemma parseTLE_groups_of_three_witness :
  Parser.parseTLE [32; 73; 83; 83; 32; 10; 49; 32; 65; 10; 10;
                   50; 32; 66; 10; 88]%N
  = [Entry (Some [73; 83; 83]%N) (Some [49; 32; 65]%N)
           (Some [50; 32; 66]%N)].
Proof.
  pose (ps := [Lines.Piece [32] [73; 83; 83] [32];
               Lines.Piece [] [49; 32; 65] [];
               Lines.Piece [] [] [];
               Lines.Piece [] [50; 32; 66] [];
               Lines.Piece [] [88] []]%N).
  assert (Hps : Forall Lines.well_formed ps).
  { unfold ps, Lines.well_formed, Lines.padding, Lines.tight.
    repeat constructor; cbn; try discriminate; try done;
      try (by intros c [= <-]);
      intros H; repeat (apply elem_of_cons in H as [H|H]; [discriminate|]);
      by apply elem_of_nil in H. }
  exact (proj1 (proj2 (parseTLE_groups_of_three _) ps Hps eq_refl)).
Defined.

(** ** [toLocalDatetimeInputValue] *)

Section DateFacts.
Import DateFormat.

Lemma pad_two_digits (n : nat) :
  (n < 100)%nat -> ∃ a b, pad n = [a; b] ∧ digit a = true ∧ digit b = true.
Proof.
  intros Hn.
  assert (Hall : forallb (λ k, match pad k with
                               | [a; b] => digit a && digit b
                               | _ => false
                               end) (seq 0 100) = true) by (vm_compute; reflexivity).
  rewrite forallb_forall in Hall.
  specialize (Hall n). rewrite in_seq in Hall.
  assert (Hin : (0 <= n < 0 + 100)%nat) by lia. specialize (Hall Hin).
  destruct (pad n) as [|a [|b [|c rest]]]; try discriminate Hall.
  exists a, b. split; [done|]. by apply andb_true_iff.
Qed.

Lemma year_four_digits (y : nat) :
  (1000 <= Z.of_nat y <= 9999)%Z ->
  ∃ a b c d, String_ y = [a; b; c; d]
             ∧ digit a = true ∧ digit b = true ∧ digit c = true
             ∧ digit d = true.
Proof.
  intros Hy.
  assert (Hall : forallb (λ k, match String_ k with
                               | [a; b; c; d] =>
                                   digit a && digit b && digit c && digit d
                               | _ => false
                               end) (seq (10 * 100) (90 * 100)) = true)
    by (vm_compute; reflexivity).
  rewrite forallb_forall in Hall.
  specialize (Hall y). rewrite in_seq in Hall.
  assert (E1 : Z.of_nat (10 * 100) = 1000%Z) by (vm_compute; reflexivity).
  assert (E2 : Z.of_nat (10 * 100 + 90 * 100) = 10000%Z)
    by (vm_compute; reflexivity).
  assert (Hin : (10 * 100 <= y < 10 * 100 + 90 * 100)%nat).
  { split; [apply Nat2Z.inj_le|apply Nat2Z.inj_lt]; rewrite ?E1, ?E2; lia. }
  specialize (Hall Hin).
  destruct (String_ y) as [|a [|b [|c [|d [|e rest]]]]];
    try discriminate Hall.
  exists a, b, c, d. split; [done|].
  rewrite !andb_true_iff in Hall. tauto.
Qed.

End DateFacts.

(** X22: for a date whose year has four digits,
    [toLocalDatetimeInputValue] gives the 19 code units of the form
    YYYY-MM-DDTHH:MM:SS: the separators at their places and decimal
    digits everywhere else. *)
Theorem datetime_local_shape (d : DateFormat.local) :
  (1000 <= Z.of_nat (DateFormat.getFullYear d) <= 9999)%Z ->
  (DateFormat.getMonth d < 12)%nat ->
  (1 <= DateFormat.getDate d <= 31)%nat ->
  (DateFormat.getHours d < 24)%nat ->
  (DateFormat.getMinutes d < 60)%nat ->
  (DateFormat.getSeconds d < 60)%nat ->
  let s := DateFormat.toLocalDatetimeInputValue d in
  length s = 19%nat
  ∧ s !! 4%nat = Some 45%N ∧ s !! 7%nat = Some 45%N
  ∧ s !! 10%nat = Some 84%N
  ∧ s !! 13%nat = Some 58%N ∧ s !! 16%nat = Some 58%N
  ∧ ∀ i c, s !! i = Some c -> i ∉ [4; 7; 10; 13; 16]%nat -> digit c = true.
Proof.
  intros Hy Hmo Hd Hh Hmi Hs s. unfold s, DateFormat.toLocalDatetimeInputValue.
  cbv zeta.
  destruct (year_four_digits _ Hy) as (y1 & y2 & y3 & y4 & -> & ? & ? & ? & ?).
  destruct (pad_two_digits (DateFormat.getMonth d + 1))
    as (m1 & m2 & -> & ? & ?); [lia|].
  destruct (pad_two_digits (DateFormat.getDate d))
    as (d1 & d2 & -> & ? & ?); [lia|].
  destruct (pad_two_digits (DateFormat.getHours d))
    as (h1 & h2 & -> & ? & ?); [lia|].
  destruct (pad_two_digits (DateFormat.getMinutes d))
    as (n1 & n2 & -> & ? & ?); [lia|].
  destruct (pad_two_digits (DateFormat.getSeconds d))
    as (s1 & s2 & -> & ? & ?); [lia|].
  cbn [app]. repeat (split; [reflexivity|]).
  intros i c Hc Hi.
  do 19 (destruct i as [|i];
         [cbn in Hc; injection Hc as <-;
          first [assumption
                | exfalso; apply Hi; rewrite list_elem_of_In; simpl; tauto]|]).
  discriminate Hc.
Qed.

Lemma datetime_local_shape_witness :
  length (DateFormat.toLocalDatetimeInputValue
            (DateFormat.Local 2026 10 2 9 5 0)) = 19%nat.
Proof.
  apply (datetime_local_shape (DateFormat.Local 2026 10 2 9 5 0));
    simpl; lia.
Defined.

(** ** No [NaN] in the buffers *)

Section NumericFacts.
Variable L : SatLib.

Lemma numeric_write3 i v (out : buffer) :
  numeric out -> numeric3 v -> numeric (write3 i v out).
Proof.
  destruct v as [[x y] z]. intros Ho (Hx & Hy & Hz). unfold write3, numeric.
  by repeat apply Forall_insert.
Qed.

Lemma numeric_zeros n : numeric (zeros n).
Proof. unfold numeric, zeros. by apply Forall_replicate. Qed.

Lemma numeric3_cells v : numeric3 (cells v).
Proof. by destruct v as [[x y] z]. Qed.

Lemma numeric_loop (it : buffer -> nat -> buffer) (w : nat -> option triple)
    (out : buffer) (a n : nat) :
  (∀ out i, it out i
            = match w i with Some v => write3 i v out | None => out end) ->
  (∀ i v, (a <= i < a + n)%nat -> w i = Some v -> numeric3 v) ->
  numeric out -> numeric (foldl it out (seq a n)).
Proof.
  intros Hit. induction n as [|n IH]; intros Hw Ho; [done|].
  rewrite seq_S, foldl_snoc, Hit.
  assert (Hrec : numeric (foldl it out (seq a n))).
  { apply IH; [|done]. intros i v Hi. apply Hw. lia. }
  destruct (w (a + n)%nat) as [v|] eqn:Ev; [|done].
  apply numeric_write3; [done|]. apply (Hw (a + n)%nat); [lia|done].
Qed.

Lemma numeric_read (nb : buffer) j :
  numeric nb -> (j < length nb)%nat -> read nb j ≠ NaN.
Proof.
  intros Hn Hj. unfold read.
  destruct (lookup_lt_is_Some_2 nb j Hj) as [c Hc]. rewrite Hc. simpl.
  by apply (proj1 (Forall_lookup _ _) Hn j c).
Qed.

Lemma numeric_keep (next : option buffer) i d :
  numeric3 d ->
  (∀ nb, next = Some nb -> numeric nb ∧ (i * 3 + 2 < length nb)%nat) ->
  numeric3 (Fallback.keep next i d).
Proof.
  intros Hd Hnext. unfold Fallback.keep. destruct next as [nb|]; [|done].
  destruct (Hnext nb eq_refl) as [Hn Hlen].
  repeat split; apply numeric_read; try done; lia.
Qed.

Lemma numeric_fallback_loop now gmst (next : option buffer) tle :
  (∀ nb, next = Some nb ->
     numeric nb ∧ (length tle * 3 <= length nb)%nat) ->
  numeric (Fallback.positions_loop L now gmst next tle).
Proof.
  intros Hnext. unfold Fallback.positions_loop.
  apply (numeric_loop _ (fallback_write L now gmst next tle));
    [apply fallback_iteration| |apply numeric_zeros].
  intros i v Hi. unfold fallback_write, fallback_cells.
  assert (Hkeep : ∀ d, numeric3 d -> numeric3 (Fallback.keep next i d)).
  { intros d Hd. apply numeric_keep; [done|]. intros nb Hnb.
    destruct (Hnext nb Hnb). split; [done|lia]. }
  destruct (tle !! i) as [t|]; [|intros [= <-]; by apply Hkeep].
  destruct (answer_of L now gmst t); intros [= <-];
    try (by apply Hkeep); apply numeric3_cells.
Qed.

Lemma numeric_worker_loop now gmst tle :
  numeric (Worker.positions_loop L now gmst tle).
Proof.
  unfold Worker.positions_loop.
  apply (numeric_loop _ (worker_write L now gmst tle));
    [apply worker_iteration| |apply numeric_zeros].
  intros i v _. unfold worker_write. intros [= <-].
  destruct (tle !! i) as [t|]; [|done]. cbn [from_option].
  unfold worker_cells.
  destruct (answer_of L now gmst t); [..|apply numeric3_cells]; done.
Qed.

Lemma numeric_ta_set (target source b : buffer) :
  ta_set target source = Some b -> numeric target -> numeric source ->
  numeric b.
Proof.
  unfold ta_set. destruct (decide _); [|done]. intros [= <-] Ht Hs.
  apply Forall_app. split; [done|by apply Forall_drop].
Qed.

Lemma numeric_slide arr p n s :
  prevSatBuffer s = Some p -> nextSatBuffer s = Some n ->
  numeric p -> numeric n -> numeric arr ->
  numeric_store (fst (slide arr p n s)).
Proof.
  intros Ep En Hp Hn Ha. unfold slide.
  destruct (ta_set p n) as [p'|] eqn:E1; [|by exists p, n].
  pose proof (numeric_ta_set _ _ _ E1 Hp Hn) as Hp'.
  destruct (ta_set n arr) as [n'|] eqn:E2.
  - pose proof (numeric_ta_set _ _ _ E2 Hn Ha). by exists p', n'.
  - by exists p', n.
Qed.

Lemma numeric_store_ext s s' :
  prevSatBuffer s' = prevSatBuffer s -> nextSatBuffer s' = nextSatBuffer s ->
  numeric_store s -> numeric_store s'.
Proof. unfold numeric_store. by intros -> ->. Qed.

Lemma numeric_on_positions arr perfNow dateNow s :
  numeric_store s -> numeric arr ->
  numeric_store (fst (on_positions arr perfNow dateNow s)).
Proof.
  intros Hs Ha. unfold on_positions.
  destruct (tlePositionsAttr s); [|done]. cbv zeta.
  change (prevSatBuffer (update_latest arr s)) with (prevSatBuffer s).
  change (nextSatBuffer (update_latest arr s)) with (nextSatBuffer s).
  change (tlePoints (update_latest arr s)) with (tlePoints s).
  destruct Hs as (p & n & Ep & En & Hp & Hn). rewrite Ep, En.
  destruct (tlePoints s); [|by exists p, n].
  pose proof (numeric_slide arr p n (update_latest arr s) Ep En Hp Hn Ha)
    as Hsl.
  destruct (slide arr p n (update_latest arr s)) as [s1 [|]]; cbn [fst] in *;
    [|done].
  by apply (numeric_store_ext s1).
Qed.

Lemma numeric_fallback now perfNow s :
  sized s -> numeric_store s ->
  numeric_store (fst (updateTLEPositionsFallback L now perfNow s)).
Proof.
  intros (p0 & n0 & Ep0 & En0 & Lp & Ln) (p & n & Ep & En & Hp & Hn).
  assert (p0 = p) as -> by congruence. assert (n0 = n) as -> by congruence.
  unfold updateTLEPositionsFallback.
  destruct (decide (length (tleData s) = 0%nat)) as [_|_]; [by exists p, n|].
  cbv zeta. rewrite En, Ep.
  set (arr := Fallback.positions_loop _ _ _ _ _).
  assert (Ha : numeric arr).
  { apply numeric_fallback_loop. intros nb [= <-]. split; [done|lia]. }
  pose proof (numeric_slide arr p n s Ep En Hp Hn Ha) as Hsl.
  destruct (slide arr p n s) as [s1 [|]]; cbn [fst] in *; [|done].
  destruct (tlePoints s1); [|done].
  by apply (numeric_store_ext s1).
Qed.

Lemma numeric_direct now m :
  numeric_store (st m) -> numeric_store (st (updateTLEPositions L now m)).
Proof.
  intros Hs. unfold updateTLEPositions.
  destruct (tleData (st m)) as [|t0 tle0]; [done|].
  destruct (tlePositionsAttr (st m)) as [a|]; [|done].
  destruct (sgp4Worker (lk m)); [done|].
  destruct Hs as (p & n & Ep & En & Hp & Hn).
  destruct a as [|array]; [|by exists p, n].
  cbn [st with_store set_lastTleUpdate set_buffers].
  exists p, (foldl (direct_iteration L now (gstime L now) (t0 :: tle0)) n
               (seq 0 (length (t0 :: tle0)))).
  cbn [prevSatBuffer nextSatBuffer]. rewrite En. split; [done|].
  split; [done|]. split; [done|].
  apply (numeric_loop _ (direct_write L now (gstime L now) (t0 :: tle0)));
    [apply direct_iteration_write| |done].
  intros i v _. unfold direct_write.
  destruct ((t0 :: tle0) !! i) as [t|]; [|done].
  destruct (direct_answer L now (gstime L now) t); try done.
  intros [= <-]. apply numeric3_cells.
Qed.

Lemma numeric_step m e :
  numeric_event e -> sized (st m) -> numeric_store (st m) ->
  numeric_store (st (step L m e)).
Proof.
  intros He Hsz Hn. destruct e as [[[msg| |] now] perfNow]; simpl.
  - destruct msg as [satlib count|arr]; simpl; [done|].
    by apply numeric_on_positions.
  - unfold timer_tick. destruct (sgp4Worker (lk m)); [done|].
    by apply numeric_fallback.
  - unfold animate. cbv zeta. cbn [with_store st].
    rewrite (proj1 (animateSynthetic_fields _)).
    set (m1 := if decide _ then _ else m).
    assert (H1 : numeric_store (st m1)).
    { unfold m1. destruct (decide _); [|done].
      destruct (sgp4Worker (lk m));
        [by apply numeric_direct|by apply numeric_fallback]. }
    apply (numeric_store_ext (st m1)); [..|done];
      unfold advance_interp; destruct (tlePoints (st m1)); try done;
      by destruct (Rlt_dec 0 (satInterpStart (st m1))).
Qed.

Lemma numeric_ring squash count : numeric (ring squash count).
Proof.
  unfold ring. apply (numeric_loop _ (λ j, Some (ring_point squash count j)));
    [done| |apply numeric_zeros].
  intros i v _ [= <-]. done.
Qed.

End NumericFacts.

(** X23: no read past the end of a buffer ever reaches the double
    buffers.  With the point cloud in place and the library's latitudes
    and longitudes taken as numbers, after a successful fetch and
    through every later timer
    tick, frame and worker message whose buffer holds no [NaN], [prev]
    and [next] hold only numbers (the fallback's reads of the cells it
    keeps stay in range); and the buffers a worker posts hold no
    [NaN]. *)
Theorem buffers_stay_numeric (L Lw : SatLib) (text : JsString.t)
    (spawn : option nat) (now : Z) (m : main) (es : list (event * Z * R)) :
  tlePoints (st m) = true ->
  Forall numeric_event es ->
  numeric_store (st (run L (fetchTLES L (Some text) spawn now m) es))
  ∧ ∀ t (ws : Worker.state),
      ∃ buf, snd (Worker.onmessage Lw t ws Worker.Update)
             = [Worker.Positions buf]
             ∧ numeric buf.
Proof.
  intros Hpts Hes. split.
  - assert (H0 : sized (st (fetchTLES L (Some text) spawn now m))
                 ∧ numeric_store (st (fetchTLES L (Some text) spawn now m))).
    { split; [apply fetchTLES_sized|].
      unfold fetchTLES. cbv zeta.
      set (m0 := with_store _ m).
      assert (Hn0 : numeric_store (st m0)).
      { eexists _, _. split; [reflexivity|]. split; [reflexivity|].
        split; apply numeric_ring. }
      set (m1 := match sgp4Worker (lk m0) with
                 | Some _ => m0
                 | None => with_link (setupSgp4Worker spawn) m0
                 end).
      assert (Hst : st m1 = st m0) by (unfold m1; by destruct (sgp4Worker _)).
      destruct (sgp4Worker (lk m1)); [by rewrite <- Hst in Hn0|].
      apply numeric_direct. by rewrite Hst. }
    revert H0. generalize (fetchTLES L (Some text) spawn now m).
    induction Hes as [|e es He _ IH]; intros m1 [Hsz Hn]; [done|].
    simpl. apply IH. split.
    + eapply same_shape_sized; [apply step_shape|done].
    + by apply numeric_step.
  - intros t ws. unfold Worker.onmessage.
    destruct (Worker.satlibLoaded ws); cbn [negb snd]; eexists;
      (split; [reflexivity|]).
    + apply numeric_worker_loop.
    + apply numeric_zeros.
Qed.

Lemma buffers_stay_numeric_witness :
  numeric_store
    (st (run raising_lib
           (fetchTLES raising_lib (Some [73; 10; 49; 10; 50]%N) None 0
              (createSatellites (λ _, 0%R) initial))
           [(TimerTick, 1%Z, 2%R);
            (WorkerMessage (Worker.Positions [Num 1; Num 2; Num 3]), 3%Z, 4%R)])).
Proof.
  refine (proj1 (buffers_stay_numeric raising_lib raising_lib
                   [73; 10; 49; 10; 50]%N None 0
                   (createSatellites (λ _, 0%R) initial) _ eq_refl _)).
  repeat constructor; discriminate.
Defined.

(** X24: in every state reached after [createSatellites] and a
    successful fetch the objects the handlers test for exist, the point
    cloud and [tlePositionsAttr]: while the double buffers exist no
    handler skips or fails for want of them. *)
Theorem guards_hold_once_fetched (L : SatLib) (rnd : randoms)
    (text : JsString.t) (spawn : option nat) (now : Z) (m : main)
    (es : list (event * Z * R)) :
  let m' := run L (fetchTLES L (Some text) spawn now (createSatellites rnd m))
              es in
  tlePoints (st m') = true ∧ is_Some (tlePositionsAttr (st m'))
  ∧ is_Some (prevSatBuffer (st m')) ∧ is_Some (nextSatBuffer (st m')).
Proof.
  intros m'.
  destruct (reachable_store L rnd text spawn now m es)
    as [(p & n & Ep & En & _) [Hp Ha]].
  fold m' in Ep, En, Hp, Ha. rewrite Ep, En. by repeat split.
Qed.
